(** * The six-phase compiler pipeline: a shallow embedding

    The development follows the source tree: [Lexer], [Parser],
    [SemanticAnalyzer], [IRGenerator], [Optimizer], [CodeGenerator] and
    [Compiler] each embed the TypeScript class of the same name.  Class
    fields become record states that are threaded explicitly, [throw]
    becomes a result constructor, and the loops whose trip count is not
    structural take a fuel argument.  The JavaScript values and the few
    runtime functions the classes call ([parseFloat], number to string
    conversion, strict equality, Map key equality) are in [JS]. *)

From Stdlib Require Import ZArith List String Ascii Bool Lia.
From Stdlib Require Import Floats Uint63 DecimalString.
Import ListNotations.
Open Scope string_scope.
#[global] Set Warnings "-register-all".
#[global] Set Warnings "-inexact-float".

(* ================================================================= *)
(** ** JavaScript values and runtime functions *)

Module JS.

(** The values held by tokens, literals and IR operands ([any] in the
    source).  Numbers are IEEE binary64, as in JavaScript.  An array
    operand holds names only: the generator builds them from parameter
    names and temporaries. *)
Inductive Value : Type :=
| VNum (x : float)
| VStr (s : string)
| VBool (b : bool)
| VNull
| VUndef
| VArr (elems : list string).

Definition is_nan (x : float) : bool := negb (PrimFloat.eqb x x).

(** [a === b].  Two array operands are compared by identity in
    JavaScript; every array of an instruction list is a separate object
    (one per CALL, one per FunctionDeclaration), so two array operands
    met at different places are never identical. *)
Definition strict_eq (a b : Value) : bool :=
  match a, b with
  | VNum x, VNum y => PrimFloat.eqb x y
  | VStr s, VStr t => String.eqb s t
  | VBool x, VBool y => Bool.eqb x y
  | VNull, VNull => true
  | VUndef, VUndef => true
  | _, _ => false
  end.

(** SameValueZero, the key equality of [Map] and [Set]: as [===] but
    NaN equals NaN. *)
Definition same_value_zero (a b : Value) : bool :=
  match a, b with
  | VNum x, VNum y => PrimFloat.eqb x y || (is_nan x && is_nan y)
  | _, _ => strict_eq a b
  end.

(** ToBoolean. *)
Definition truthy (v : Value) : bool :=
  match v with
  | VNum x => negb (PrimFloat.eqb x 0%float || is_nan x)
  | VStr s => negb (String.eqb s "")
  | VBool b => b
  | VNull | VUndef => false
  | VArr _ => true
  end.

(** *** Decimal text to binary64 and back *)

(** [n / d] rounded to the nearest integer, ties to even ([0 <= n], [0 < d]). *)
Definition div_round_even (n d : Z) : Z :=
  let q := (n / d)%Z in
  match (2 * (n mod d) ?= d)%Z with
  | Lt => q
  | Gt => (q + 1)%Z
  | Eq => if Z.even q then q else (q + 1)%Z
  end.

(** The fraction [n / (d * 2^e)]. *)
Definition scale2 (n d e : Z) : Z * Z :=
  if (0 <=? e)%Z then (n, d * 2 ^ e)%Z else (n * 2 ^ (- e), d)%Z.

(** [floor (log2 (n / d))] for [0 < n], [0 < d]. *)
Definition binade (n d : Z) : Z :=
  let e := (Z.log2 n - Z.log2 d)%Z in
  let (a, b) := scale2 n d e in
  if (b <=? a)%Z then e else (e - 1)%Z.

(** The binary64 number nearest to [n / d] (round to nearest, ties to
    even, gradual underflow, overflow to infinity). *)
Definition round_rational (n d : Z) : float :=
  if (n =? 0)%Z then PrimFloat.zero
  else
    let e := Z.max (binade n d - 52) (-1074) in
    let (a, b) := scale2 n d e in
    Z.ldexp (PrimFloat.of_uint63 (Uint63.of_Z (div_round_even a b))) e.

(** The binary64 number nearest to [s * 10^e]. *)
Definition decimal_to_float (s e : Z) : float :=
  if (0 <=? e)%Z then round_rational (s * 10 ^ e) 1
  else round_rational s (10 ^ (- e)).

Definition is_digit (c : ascii) : bool :=
  (48 <=? nat_of_ascii c)%nat && (nat_of_ascii c <=? 57)%nat.

Definition digit_value (c : ascii) : Z := (Z.of_nat (nat_of_ascii c) - 48)%Z.

Fixpoint take_digits (cs : list ascii) : list ascii * list ascii :=
  match cs with
  | c :: rest =>
      if is_digit c
      then let (ds, r) := take_digits rest in (c :: ds, r)
      else ([], cs)
  | [] => ([], [])
  end.

Definition digits_value (ds : list ascii) : Z :=
  fold_left (fun acc c => (10 * acc + digit_value c)%Z) ds 0%Z.

Definition is_white_space (c : ascii) : bool :=
  let n := nat_of_ascii c in
  ((9 <=? n)%nat && (n <=? 13)%nat) || (n =? 32)%nat || (n =? 160)%nat.

Fixpoint drop_white_space (cs : list ascii) : list ascii :=
  match cs with
  | c :: rest => if is_white_space c then drop_white_space rest else cs
  | [] => []
  end.

Fixpoint starts_with (p cs : list ascii) : bool :=
  match p, cs with
  | [], _ => true
  | a :: p', c :: cs' => Ascii.eqb a c && starts_with p' cs'
  | _ :: _, [] => false
  end.

(** The exponent part that follows the digits, [0] when there is none. *)
Definition exponent_part (cs : list ascii) : Z :=
  match cs with
  | c :: rest =>
      if Ascii.eqb c "e" || Ascii.eqb c "E" then
        let '(neg, rest') :=
          match rest with
          | s :: r => if Ascii.eqb s "-" then (true, r)
                      else if Ascii.eqb s "+" then (false, r)
                      else (false, rest)
          | [] => (false, rest)
          end in
        let (ds, _) := take_digits rest' in
        if neg then (- digits_value ds)%Z else digits_value ds
      else 0%Z
  | [] => 0%Z
  end.

(** The global [parseFloat]: the longest prefix of the trimmed text
    that is a decimal literal, NaN when there is none. *)
Definition parseFloat (s : string) : float :=
  let cs := drop_white_space (list_ascii_of_string s) in
  let '(neg, cs) :=
    match cs with
    | c :: r => if Ascii.eqb c "-" then (true, r)
                else if Ascii.eqb c "+" then (false, r)
                else (false, cs)
    | [] => (false, cs)
    end in
  let magnitude :=
    if starts_with (list_ascii_of_string "Infinity") cs then PrimFloat.infinity
    else
      let (ip, r1) := take_digits cs in
      let (fp, r2) :=
        match r1 with
        | c :: r => if Ascii.eqb c "." then take_digits r else ([], r1)
        | [] => ([], r1)
        end in
      match (ip ++ fp)%list with
      | [] => PrimFloat.nan
      | ds => decimal_to_float (digits_value ds)
                (exponent_part r2 - Z.of_nat (List.length fp))
      end in
  if neg then PrimFloat.opp magnitude else magnitude.

Definition string_of_nat (n : nat) : string :=
  NilZero.string_of_uint (Nat.to_uint n).

Definition string_of_Z (z : Z) : string :=
  NilZero.string_of_int (Z.to_int z).

Fixpoint repeat_string (s : string) (n : nat) : string :=
  match n with
  | O => ""
  | S n' => s ++ repeat_string s n'
  end.

(** The least [j <= fuel] counted from [j] with [d <= n * 10^j]. *)
Fixpoint first_scale (fuel : nat) (n d j : Z) : Z :=
  match fuel with
  | O => j
  | S fuel' => if (d <=? n * 10 ^ j)%Z then j else first_scale fuel' n d (j + 1)%Z
  end.

(** The decimal exponent [n] of [num / den]: [10^(n-1) <= num/den < 10^n]. *)
Definition decimal_exponent (num den : Z) : Z :=
  if (den <=? num)%Z
  then Z.of_nat (String.length (string_of_Z (num / den)))
  else (1 - first_scale 400 num den 1)%Z.

(** [x * 10^p] as a fraction, for [x = num / den]. *)
Definition scale10 (num den p : Z) : Z * Z :=
  if (0 <=? p)%Z then (num * 10 ^ p, den)%Z else (num, den * 10 ^ (- p))%Z.

(** Step 5 of Number::toString: the digits [s] and exponent [n] with
    the fewest digits [k] such that [s * 10^(n-k)] reads back as [x];
    of two candidates the one closer to [x], the even one on a tie. *)
Fixpoint shortest_digits (fuel : nat) (x : float) (num den n k : Z) : Z * Z :=
  match fuel with
  | O => (0%Z, n)
  | S fuel' =>
      let (a, b) := scale10 num den (k - n) in
      let lo := (a / b)%Z in
      let hi := (lo + 1)%Z in
      let ok s := PrimFloat.eqb (decimal_to_float s (n - k)) x in
      let pick_hi :=
        match (2 * (a mod b) ?= b)%Z with
        | Lt => false
        | Gt => true
        | Eq => Z.odd lo
        end in
      let found s := if (s =? 10 ^ k)%Z then (1%Z, (n + 1)%Z) else (s, n) in
      if ok lo && ok hi then found (if pick_hi then hi else lo)
      else if ok lo then found lo
      else if ok hi then found hi
      else shortest_digits fuel' x num den n (k + 1)%Z
  end.

Fixpoint strip_zeros (rev_digits : list ascii) : list ascii :=
  match rev_digits with
  | c :: rest => if Ascii.eqb c "0" then strip_zeros rest else rev_digits
  | [] => []
  end.

Definition substring_from (i : nat) (s : string) : string :=
  String.substring i (String.length s - i) s.

(** Steps 6 to 10 of Number::toString for digits [ds] and exponent [n]. *)
Definition format_decimal (ds : string) (n : Z) : string :=
  let k := Z.of_nat (String.length ds) in
  if (k <=? n)%Z && (n <=? 21)%Z then
    ds ++ repeat_string "0" (Z.to_nat (n - k))
  else if (0 <? n)%Z && (n <=? 21)%Z then
    String.substring 0 (Z.to_nat n) ds ++ "." ++ substring_from (Z.to_nat n) ds
  else if (-6 <? n)%Z && (n <=? 0)%Z then
    "0." ++ repeat_string "0" (Z.to_nat (- n)) ++ ds
  else
    let e := (n - 1)%Z in
    let sign := if (e <? 0)%Z then "-" else "+" in
    let mantissa :=
      if (k =? 1)%Z then ds
      else String.substring 0 1 ds ++ "." ++ substring_from 1 ds in
    mantissa ++ "e" ++ sign ++ string_of_Z (Z.abs e).

(** Number::toString in radix 10. *)
Definition numberToString (x : float) : string :=
  match Prim2SF x with
  | S754_nan => "NaN"
  | S754_zero _ => "0"
  | S754_infinity s => if s then "-Infinity" else "Infinity"
  | S754_finite s m e =>
      let (num, den) := scale2 (Zpos m) 1 (- e) in
      let (d, n) :=
        shortest_digits 17 (PrimFloat.abs x) num den (decimal_exponent num den) 1 in
      let ds := string_of_list_ascii
                  (rev (strip_zeros (rev (list_ascii_of_string (string_of_Z d))))) in
      (if s then "-" else "") ++ format_decimal ds n
  end.

Fixpoint join (sep : string) (l : list string) : string :=
  match l with
  | [] => ""
  | [s] => s
  | s :: rest => s ++ sep ++ join sep rest
  end.

(** ToString, as applied by template literals and [String(v)]. *)
Definition toString (v : Value) : string :=
  match v with
  | VNum x => numberToString x
  | VStr s => s
  | VBool b => if b then "true" else "false"
  | VNull => "null"
  | VUndef => "undefined"
  | VArr l => join "," l
  end.

(** [s.startsWith(p)]. *)
Definition startsWith (s p : string) : bool :=
  starts_with (list_ascii_of_string p) (list_ascii_of_string s).

Definition upper_char (c : ascii) : ascii :=
  let n := nat_of_ascii c in
  if (97 <=? n)%nat && (n <=? 122)%nat then ascii_of_nat (n - 32) else c.

(** [s.toUpperCase()] on the Basic Latin letters. *)
Definition toUpperCase (s : string) : string :=
  string_of_list_ascii (map upper_char (list_ascii_of_string s)).

End JS.

(* ================================================================= *)
(** ** Lexer *)

Module Lexer.
Import JS.

Record Token : Type := mkToken
  { type : string; value : string; line : Z; column : Z }.

(** [LexicalError(message, line, column)]. *)
Inductive LexicalError : Type :=
| mkLexicalError (message : string) (line column : Z).

Inductive Result (A : Type) : Type :=
| Ok (a : A)
| Throw (e : LexicalError).
Arguments Ok {A} a.
Arguments Throw {A} e.

(** The fields of a [Lexer] instance. *)
Module State.
Record t : Type := mk
  { source : string; position : nat; line : Z; column : Z; tokens : list Token }.
End State.

Definition isAtEnd (st : State.t) : bool :=
  (String.length (State.source st) <=? State.position st)%nat.

Definition nul : ascii := Ascii.zero.

Definition peek (st : State.t) : ascii :=
  if isAtEnd st then nul
  else match String.get (State.position st) (State.source st) with
       | Some c => c
       | None => nul
       end.

Definition peekNext (st : State.t) : ascii :=
  if (String.length (State.source st) <=? State.position st + 1)%nat then nul
  else match String.get (State.position st + 1) (State.source st) with
       | Some c => c
       | None => nul
       end.

(** [advance()] returns [source[position - 1]], which is [undefined]
    ([None]) past the end of the text. *)
Definition advance (st : State.t) : option ascii * State.t :=
  (String.get (State.position st) (State.source st),
   State.mk (State.source st) (State.position st + 1) (State.line st)
            (State.column st + 1) (State.tokens st)).

Definition match_ (expected : ascii) (st : State.t) : bool * State.t :=
  if isAtEnd st then (false, st)
  else match String.get (State.position st) (State.source st) with
       | Some c =>
           if Ascii.eqb c expected
           then (true,
                 State.mk (State.source st) (State.position st + 1) (State.line st)
                          (State.column st + 1) (State.tokens st))
           else (false, st)
       | None => (false, st)
       end.

Definition addToken (type value : string) (st : State.t) : State.t :=
  State.mk (State.source st) (State.position st) (State.line st) (State.column st)
    (State.tokens st ++
       [mkToken type value (State.line st)
          (State.column st - Z.of_nat (String.length value))]).

Definition isDigit (c : ascii) : bool :=
  (48 <=? nat_of_ascii c)%nat && (nat_of_ascii c <=? 57)%nat.

Definition isAlpha (c : ascii) : bool :=
  let n := nat_of_ascii c in
  ((97 <=? n)%nat && (n <=? 122)%nat) || ((65 <=? n)%nat && (n <=? 90)%nat)
  || (n =? 95)%nat.

Definition isAlphaNumeric (c : ascii) : bool := isAlpha c || isDigit c.

Definition keywords : list string :=
  ["if"; "else"; "while"; "for"; "return";
   "int"; "float"; "void"; "string"; "bool";
   "true"; "false"; "null"; "function"; "var"].

Definition isKeyword (value : string) : bool :=
  existsb (String.eqb value) keywords.

Definition newline : ascii := ascii_of_nat 10.
Definition quote : ascii := ascii_of_nat 34.

Definition append_char (s : string) (c : option ascii) : string :=
  match c with
  | Some c => s ++ String c ""
  | None => s ++ "undefined"
  end.

Definition remaining (st : State.t) : nat :=
  String.length (State.source st) - State.position st.

(** [while (this.peek() !== '\n' && !this.isAtEnd()) this.advance();] *)
Fixpoint skipComment (fuel : nat) (st : State.t) : State.t :=
  match fuel with
  | O => st
  | S fuel' =>
      if negb (Ascii.eqb (peek st) newline) && negb (isAtEnd st)
      then skipComment fuel' (snd (advance st))
      else st
  end.

(** The loop of [string()]. *)
Fixpoint stringChars (fuel : nat) (value : string) (st : State.t) : string * State.t :=
  match fuel with
  | O => (value, st)
  | S fuel' =>
      if negb (Ascii.eqb (peek st) quote) && negb (isAtEnd st) then
        let st1 :=
          if Ascii.eqb (peek st) newline
          then State.mk (State.source st) (State.position st) (State.line st + 1) 1
                        (State.tokens st)
          else st in
        let (c, st2) := advance st1 in
        stringChars fuel' (append_char value c) st2
      else (value, st)
  end.

Definition string_ (st : State.t) : Result State.t :=
  let startColumn := (State.column st - 1)%Z in
  let (value, st1) := stringChars (remaining st) "" st in
  if isAtEnd st1 then
    Throw (mkLexicalError "Unterminated string" (State.line st1) startColumn)
  else
    let st2 := snd (advance st1) in
    Ok (addToken "STRING" value st2).

(** [while (this.isDigit(this.peek())) value += this.advance();] *)
Fixpoint digits (fuel : nat) (value : string) (st : State.t) : string * State.t :=
  match fuel with
  | O => (value, st)
  | S fuel' =>
      if isDigit (peek st) then
        let (c, st1) := advance st in digits fuel' (append_char value c) st1
      else (value, st)
  end.

(** [this.source[this.position - 1]] as the initial lexeme. *)
Definition currentChar (st : State.t) : string :=
  append_char "" (String.get (State.position st - 1) (State.source st)).

Definition number (st : State.t) : State.t :=
  let (value, st1) := digits (remaining st) (currentChar st) st in
  let (value, st2) :=
    if Ascii.eqb (peek st1) "." && isDigit (peekNext st1) then
      let (c, st') := advance st1 in
      digits (remaining st') (append_char value c) st'
    else (value, st1) in
  addToken "NUMBER" value st2.

(** [while (this.isAlphaNumeric(this.peek())) value += this.advance();] *)
Fixpoint identChars (fuel : nat) (value : string) (st : State.t) : string * State.t :=
  match fuel with
  | O => (value, st)
  | S fuel' =>
      if isAlphaNumeric (peek st) then
        let (c, st1) := advance st in identChars fuel' (append_char value c) st1
      else (value, st)
  end.

Definition identifier (st : State.t) : State.t :=
  let (value, st1) := identChars (remaining st) (currentChar st) st in
  let type := if isKeyword value then toUpperCase value else "IDENTIFIER" in
  addToken type value st1.

(** The four cases that call [this.match('=')] twice, once in each
    argument of [addToken], evaluated left to right. *)
Definition operatorToken (char : ascii) (two one : string) (st : State.t) : State.t :=
  let (m1, st1) := match_ "=" st in
  let (m2, st2) := match_ "=" st1 in
  addToken (if m1 then two else one)
           (if m2 then String char "=" else String char "") st2.

Definition scanToken (st0 : State.t) : Result State.t :=
  let (char, st) := advance st0 in
  match char with
  | None =>
      Throw (mkLexicalError "Unexpected character: undefined"
               (State.line st) (State.column st - 1))
  | Some c =>
      let one := String c "" in
      match c with
      | "("%char => Ok (addToken "LEFT_PAREN" one st)
      | ")"%char => Ok (addToken "RIGHT_PAREN" one st)
      | "{"%char => Ok (addToken "LEFT_BRACE" one st)
      | "}"%char => Ok (addToken "RIGHT_BRACE" one st)
      | "["%char => Ok (addToken "LEFT_BRACKET" one st)
      | "]"%char => Ok (addToken "RIGHT_BRACKET" one st)
      | ","%char => Ok (addToken "COMMA" one st)
      | "."%char => Ok (addToken "DOT" one st)
      | ";"%char => Ok (addToken "SEMICOLON" one st)
      | "+"%char => Ok (addToken "PLUS" one st)
      | "-"%char => Ok (addToken "MINUS" one st)
      | "*"%char => Ok (addToken "STAR" one st)
      | "/"%char =>
          let (m, st1) := match_ "/" st in
          if m then Ok (skipComment (remaining st1) st1)
          else Ok (addToken "SLASH" one st1)
      | "="%char => Ok (operatorToken c "EQUAL_EQUAL" "EQUAL" st)
      | "!"%char => Ok (operatorToken c "BANG_EQUAL" "BANG" st)
      | "<"%char => Ok (operatorToken c "LESS_EQUAL" "LESS" st)
      | ">"%char => Ok (operatorToken c "GREATER_EQUAL" "GREATER" st)
      | " "%char | "013"%char | "009"%char => Ok st
      | "010"%char =>
          Ok (State.mk (State.source st) (State.position st) (State.line st + 1) 1
                (State.tokens st))
      | _ =>
          if Ascii.eqb c quote then string_ st
          else if isDigit c then Ok (number st)
          else if isAlpha c then Ok (identifier st)
          else Throw (mkLexicalError ("Unexpected character: " ++ one)
                        (State.line st) (State.column st - 1))
      end
  end.

(** [while (!this.isAtEnd()) this.scanToken();]  Every [scanToken]
    advances, so the length of the text bounds the trip count. *)
Fixpoint scanTokens (fuel : nat) (st : State.t) : Result State.t :=
  match fuel with
  | O => Ok st
  | S fuel' =>
      if isAtEnd st then Ok st
      else match scanToken st with
           | Ok st' => scanTokens fuel' st'
           | Throw e => Throw e
           end
  end.

(** [new Lexer(source).tokenize()]. *)
Definition tokenize (source : string) : Result (list Token) :=
  match scanTokens (String.length source) (State.mk source 0 1 1 []) with
  | Ok st => Ok (State.tokens (addToken "EOF" "" st))
  | Throw e => Throw e
  end.

(** What a loop that appends the characters it advances over has done
    when it stops at [st'] with [value']: it has moved some [k]
    characters on inside the text, on the same line, and appended
    exactly those characters to [value]. *)
Definition consumed (value : string) (st : State.t) (value' : string) (st' : State.t)
    : Prop :=
  exists k,
    State.position st + k <= String.length (State.source st)
    /\ st' = State.mk (State.source st) (State.position st + k) (State.line st)
               (State.column st + Z.of_nat k) (State.tokens st)
    /\ value' = value ++ String.substring (State.position st) k (State.source st).

(** The scanner has gone from [st] to [st'] in the same text, forward
    and not past its end. *)
Definition moved (st st' : State.t) : Prop :=
  State.source st' = State.source st
  /\ State.position st <= State.position st'
  /\ State.position st' <= String.length (State.source st).

(** From [st] the scanner has read the lexeme [text] and appended its
    token: [text] is the part of the source that starts where the
    scanner stood, the scanner has moved to its end on the same line,
    and the token carries [text] with the line and column where the
    scanner stood, which is the current column minus the length of the
    lexeme. *)
Definition lexemeAtStart (st st' : State.t) (type text : string) : Prop :=
  text = String.substring (State.position st) (String.length text) (State.source st)
  /\ st' = State.mk (State.source st) (State.position st + String.length text)
             (State.line st) (State.column st + Z.of_nat (String.length text))
             (State.tokens st ++ [mkToken type text (State.line st) (State.column st)])
  /\ (State.column st = State.column st' - Z.of_nat (String.length text))%Z.

(** The scanner stands at the operator [c =] and no further [=]
    follows it: [scanToken] appends one token of kind [kind] whose text
    is [c] alone, and moves two characters on. *)
Definition scansTwoCharacterOperator (c : ascii) (kind : string) : Prop :=
  forall st : State.t,
    String.get (State.position st) (State.source st) = Some c ->
    String.get (State.position st + 1) (State.source st) = Some "="%char ->
    String.get (State.position st + 2) (State.source st) <> Some "="%char ->
    scanToken st =
      Ok (State.mk (State.source st) (State.position st + 2) (State.line st)
            (State.column st + 2)
            (State.tokens st ++
               [mkToken kind (String c "") (State.line st) (State.column st + 2 - 1)])).

(** The scanner stands at the operator [c =] and a further [=]
    follows: both calls of [match('=')] succeed, [scanToken] appends
    one token of kind [kind] whose text is [c =], and moves three
    characters on. *)
Definition scansThreeCharacters (c : ascii) (kind : string) : Prop :=
  forall st : State.t,
    String.get (State.position st) (State.source st) = Some c ->
    String.get (State.position st + 1) (State.source st) = Some "="%char ->
    String.get (State.position st + 2) (State.source st) = Some "="%char ->
    scanToken st =
      Ok (State.mk (State.source st) (State.position st + 3) (State.line st)
            (State.column st + 3)
            (State.tokens st ++
               [mkToken kind (String c "=") (State.line st) (State.column st + 3 - 2)])).

(** The loop of [tokenize] on [source] is at [st] after some rounds:
    [st] is a state in which [tokenize] calls [scanToken], or the one
    at which it stops. *)
Definition reaches (source : string) (st : State.t) : Prop :=
  exists rounds, scanTokens rounds (State.mk source 0 1 1 []) = Ok st.

(** Every time the loop of [tokenize] stands at the operator [c =]
    with no further [=] behind it, the token of kind [kind] with the
    text [c] alone is in the list [tokenize] returns. *)
Definition tokenizesTwoCharacterOperator (c : ascii) (kind : string) : Prop :=
  forall source tokens st,
    tokenize source = Ok tokens ->
    reaches source st ->
    String.get (State.position st) (State.source st) = Some c ->
    String.get (State.position st + 1) (State.source st) = Some "="%char ->
    String.get (State.position st + 2) (State.source st) <> Some "="%char ->
    In (mkToken kind (String c "") (State.line st) (State.column st + 1)) tokens.

(** The kinds of token the scanner appends: the first argument at the
    call sites of [addToken], the keywords in upper case. *)
Definition tokenTypes : list string :=
  ["LEFT_PAREN"; "RIGHT_PAREN"; "LEFT_BRACE"; "RIGHT_BRACE"; "LEFT_BRACKET";
   "RIGHT_BRACKET"; "COMMA"; "DOT"; "SEMICOLON"; "PLUS"; "MINUS"; "STAR"; "SLASH";
   "EQUAL_EQUAL"; "EQUAL"; "BANG_EQUAL"; "BANG"; "LESS_EQUAL"; "LESS";
   "GREATER_EQUAL"; "GREATER"; "STRING"; "NUMBER"; "IDENTIFIER"; "EOF"]
  ++ map toUpperCase keywords.

(** The characters that have a case of their own in the switch of
    [scanToken]. *)
Definition switchCharacters : list ascii :=
  ["("; ")"; "{"; "}"; "["; "]"; ","; "."; ";"; "+"; "-"; "*"; "/"; "="; "!"; "<";
   ">"; " "; "013"; "009"; "010"; quote]%char.

(** From [st] to [st'] the token list has grown by the tokens [added]. *)
Definition appended (st st' : State.t) (added : list Token) : Prop :=
  State.tokens st' = (State.tokens st ++ added)%list.

(** The characters of [source] from index [from] up to [from + count]
    are neither a double quote nor a newline. *)
Definition plainStringBody (source : string) (from count : nat) : Prop :=
  forall i c,
    i < count -> String.get (from + i) source = Some c ->
    c <> quote /\ c <> newline.

(** No double quote in [source] from index [from] on. *)
Definition noQuoteFrom (source : string) (from : nat) : Prop :=
  forall i, from <= i -> String.get i source <> Some quote.

(** At most one token, of a kind in [tokenTypes]. *)
Definition known (l : list Token) : Prop :=
  List.length l <= 1 /\ Forall (fun t => In (type t) tokenTypes) l.

(** The number of newline characters of a text. *)
Fixpoint newlines (s : string) : Z :=
  match s with
  | "" => 0%Z
  | String c rest => ((if Ascii.eqb c newline then 1 else 0) + newlines rest)%Z
  end.

End Lexer.

(* ================================================================= *)
(** ** Parser *)

Module Parser.
Import JS.

Definition Token := Lexer.Token.

(** The node records built by the parser, one constructor per [type]
    tag; a [null] child is [None]. *)
Inductive ASTNode : Type :=
| Program (body : list ASTNode)
| VariableDeclaration (name : string) (initializer : option ASTNode)
| FunctionDeclaration (name : string) (params : list string) (body : ASTNode)
| BlockStatement (body : list ASTNode)
| ExpressionStatement (expression : ASTNode)
| IfStatement (condition thenBranch : ASTNode) (elseBranch : option ASTNode)
| WhileStatement (condition body : ASTNode)
| ForStatement (initializer condition increment : option ASTNode) (body : ASTNode)
| ReturnStatement (value : option ASTNode)
| BinaryExpression (operator : string) (left right : ASTNode)
| UnaryExpression (operator : string) (argument : ASTNode)
| LogicalExpression (operator : string) (left right : ASTNode)
| AssignmentExpression (operator : string) (left right : ASTNode)
| CallExpression (callee : ASTNode) (arguments : list ASTNode)
| MemberExpression (object property : ASTNode)
| Identifier (name : string)
| Literal (value : Value)
| GroupExpression (expression : ASTNode).

(** [node.type]. *)
Definition nodeType (node : ASTNode) : string :=
  match node with
  | Program _ => "Program"
  | VariableDeclaration _ _ => "VariableDeclaration"
  | FunctionDeclaration _ _ _ => "FunctionDeclaration"
  | BlockStatement _ => "BlockStatement"
  | ExpressionStatement _ => "ExpressionStatement"
  | IfStatement _ _ _ => "IfStatement"
  | WhileStatement _ _ => "WhileStatement"
  | ForStatement _ _ _ _ => "ForStatement"
  | ReturnStatement _ => "ReturnStatement"
  | BinaryExpression _ _ _ => "BinaryExpression"
  | UnaryExpression _ _ => "UnaryExpression"
  | LogicalExpression _ _ _ => "LogicalExpression"
  | AssignmentExpression _ _ _ => "AssignmentExpression"
  | CallExpression _ _ => "CallExpression"
  | MemberExpression _ _ => "MemberExpression"
  | Identifier _ => "Identifier"
  | Literal _ => "Literal"
  | GroupExpression _ => "GroupExpression"
  end.

(** What a parser method can throw: the class's own [SyntaxError], or
    the engine's TypeError when a property of [undefined] is read (a
    token index outside the array). *)
Inductive Error : Type :=
| SyntaxError (message : string) (token : Token)
| TypeError.

(** The outcome of a method started at index [current]: a value or a
    thrown error, each with the index reached.  [OutOfFuel] is the
    model's own: the recursion bound was too small for the input. *)
Inductive Result (A : Type) : Type :=
| Ok (a : A) (current : nat)
| Throw (e : Error) (current : nat)
| OutOfFuel.
Arguments Ok {A} a current.
Arguments Throw {A} e current.
Arguments OutOfFuel {A}.

Definition M (A : Type) : Type := nat -> Result A.

Definition ret {A} (a : A) : M A := fun current => Ok a current.

Definition bind {A B} (m : M A) (k : A -> M B) : M B :=
  fun current =>
    match m current with
    | Ok a current' => k a current'
    | Throw e current' => Throw e current'
    | OutOfFuel => OutOfFuel
    end.

Definition throw {A} (e : Error) : M A := fun current => Throw e current.

Definition outOfFuel {A} : M A := fun _ => OutOfFuel.

(** [try { body } catch (error) { handler(error) }]. *)
Definition tryCatch {A} (body : M A) (handler : Error -> M A) : M A :=
  fun current =>
    match body current with
    | Throw e current' => handler e current'
    | r => r
    end.

Declare Scope parser_scope.
Delimit Scope parser_scope with parser.
Notation "x <- m ;; k" := (bind m (fun x => k))
  (at level 61, m at next level, right associativity) : parser_scope.
Notation "m ;;; k" := (bind m (fun _ => k))
  (at level 61, right associativity) : parser_scope.
Open Scope parser_scope.

(** [this.error(token, message)] builds the error; throwing it is left
    to the caller. *)
Definition error (token : Token) (message : string) : Error :=
  SyntaxError message token.

Section Methods.

Variable tokens : list Token.

(** [this.peek()], read where a property of the token is taken next. *)
Definition peek : M Token :=
  fun current =>
    match nth_error tokens current with
    | Some t => Ok t current
    | None => Throw TypeError current
    end.

(** [this.tokens[this.current - 1]], possibly [undefined]. *)
Definition previousToken : M (option Token) :=
  fun current =>
    Ok (match current with
        | O => None
        | S c => nth_error tokens c
        end) current.

(** [this.previous()], read where a property of the token is taken next. *)
Definition previous : M Token :=
  t <- previousToken ;;
  match t with
  | Some t => ret t
  | None => throw TypeError
  end.

Definition isAtEnd : M bool :=
  t <- peek ;; ret (String.eqb (Lexer.type t) "EOF").

Definition check (type : string) : M bool :=
  atEnd <- isAtEnd ;;
  if atEnd then ret false
  else t <- peek ;; ret (String.eqb (Lexer.type t) type).

Definition advance : M (option Token) :=
  atEnd <- isAtEnd ;;
  (if atEnd then ret tt else fun current => Ok tt (S current)) ;;;
  previousToken.

Fixpoint match_ (types : list string) : M bool :=
  match types with
  | [] => ret false
  | type :: rest =>
      c <- check type ;;
      if c then advance ;;; ret true else match_ rest
  end.

Definition consume (type message : string) : M Token :=
  c <- check type ;;
  if c then
    t <- advance ;;
    match t with
    | Some t => ret t
    | None => throw TypeError
    end
  else t <- peek ;; throw (error t message).

Definition isSyncKeyword (type : string) : bool :=
  existsb (String.eqb type)
    ["CLASS"; "FUNCTION"; "VAR"; "FOR"; "IF"; "WHILE"; "RETURN"].

(** The loop of [synchronize()]. *)
Fixpoint synchronizeLoop (fuel : nat) : M unit :=
  match fuel with
  | O => outOfFuel
  | S fuel' =>
      atEnd <- isAtEnd ;;
      if atEnd then ret tt
      else
        p <- previous ;;
        if String.eqb (Lexer.type p) "SEMICOLON" then ret tt
        else
          t <- peek ;;
          if isSyncKeyword (Lexer.type t) then ret tt
          else advance ;;; synchronizeLoop fuel'
  end.

Definition synchronize (fuel : nat) : M unit :=
  advance ;;; synchronizeLoop fuel.

Definition varDeclaration (expression : M ASTNode) : M ASTNode :=
  name <- consume "IDENTIFIER" "Expect variable name." ;;
  eq <- match_ ["EQUAL"] ;;
  initializer <- (if eq then e <- expression ;; ret (Some e) else ret None) ;;
  consume "SEMICOLON" "Expect ';' after variable declaration." ;;;
  ret (VariableDeclaration (Lexer.value name) initializer).

(** The do-while loop over the parameter names.  The test on 255
    parameters builds an error that is not thrown, so it has no effect
    beyond reading [this.peek()]. *)
Fixpoint parameterList (fuel : nat) (parameters : list string) : M (list string) :=
  match fuel with
  | O => outOfFuel
  | S fuel' =>
      (if (255 <=? List.length parameters)%nat
       then t <- peek ;;
            let _ := error t "Cannot have more than 255 parameters." in ret tt
       else ret tt) ;;;
      name <- consume "IDENTIFIER" "Expect parameter name." ;;
      let parameters := (parameters ++ [Lexer.value name])%list in
      comma <- match_ ["COMMA"] ;;
      if comma then parameterList fuel' parameters else ret parameters
  end.

Definition functionDeclaration (fuel : nat) (block : M ASTNode) : M ASTNode :=
  name <- consume "IDENTIFIER" "Expect function name." ;;
  consume "LEFT_PAREN" "Expect '(' after function name." ;;;
  close <- check "RIGHT_PAREN" ;;
  parameters <- (if negb close then parameterList fuel [] else ret []) ;;
  consume "RIGHT_PAREN" "Expect ')' after parameters." ;;;
  consume "LEFT_BRACE" "Expect '{' before function body." ;;;
  body <- block ;;
  ret (FunctionDeclaration (Lexer.value name) parameters body).

Definition ifStatement (expression statement : M ASTNode) : M ASTNode :=
  consume "LEFT_PAREN" "Expect '(' after 'if'." ;;;
  condition <- expression ;;
  consume "RIGHT_PAREN" "Expect ')' after if condition." ;;;
  thenBranch <- statement ;;
  els <- match_ ["ELSE"] ;;
  elseBranch <- (if els then s <- statement ;; ret (Some s) else ret None) ;;
  ret (IfStatement condition thenBranch elseBranch).

Definition whileStatement (expression statement : M ASTNode) : M ASTNode :=
  consume "LEFT_PAREN" "Expect '(' after 'while'." ;;;
  condition <- expression ;;
  consume "RIGHT_PAREN" "Expect ')' after condition." ;;;
  body <- statement ;;
  ret (WhileStatement condition body).

Definition expressionStatement (expression : M ASTNode) : M ASTNode :=
  expr <- expression ;;
  consume "SEMICOLON" "Expect ';' after expression." ;;;
  ret (ExpressionStatement expr).

Definition forStatement (expression statement : M ASTNode) : M ASTNode :=
  consume "LEFT_PAREN" "Expect '(' after 'for'." ;;;
  semi <- match_ ["SEMICOLON"] ;;
  initializer <-
    (if semi then ret None
     else
       var <- match_ ["VAR"] ;;
       if var then d <- varDeclaration expression ;; ret (Some d)
       else s <- expressionStatement expression ;; ret (Some s)) ;;
  semi <- check "SEMICOLON" ;;
  condition <- (if negb semi then e <- expression ;; ret (Some e) else ret None) ;;
  consume "SEMICOLON" "Expect ';' after loop condition." ;;;
  close <- check "RIGHT_PAREN" ;;
  increment <- (if negb close then e <- expression ;; ret (Some e) else ret None) ;;
  consume "RIGHT_PAREN" "Expect ')' after for clauses." ;;;
  body <- statement ;;
  ret (ForStatement initializer condition increment body).

Definition returnStatement (expression : M ASTNode) : M ASTNode :=
  previousToken ;;;
  semi <- check "SEMICOLON" ;;
  value <- (if negb semi then e <- expression ;; ret (Some e) else ret None) ;;
  consume "SEMICOLON" "Expect ';' after return value." ;;;
  ret (ReturnStatement value).

(** The loop of [block()]. *)
Fixpoint blockStatements (fuel : nat) (declaration : M ASTNode)
    (statements : list ASTNode) : M (list ASTNode) :=
  match fuel with
  | O => outOfFuel
  | S fuel' =>
      close <- check "RIGHT_BRACE" ;;
      if negb close then
        atEnd <- isAtEnd ;;
        if negb atEnd then
          d <- declaration ;;
          blockStatements fuel' declaration (statements ++ [d])%list
        else ret statements
      else ret statements
  end.

Definition block (fuel : nat) (declaration : M ASTNode) : M ASTNode :=
  statements <- blockStatements fuel declaration [] ;;
  consume "RIGHT_BRACE" "Expect '}' after block." ;;;
  ret (BlockStatement statements).

(** The loops of [logicalOr], [logicalAnd], [equality], [comparison],
    [term] and [factor]: while one of [types] matches, the operator is
    the text of the matched token. *)
Fixpoint operatorLoop (fuel : nat) (types : list string)
    (make : string -> ASTNode -> ASTNode -> ASTNode)
    (operand : M ASTNode) (expr : ASTNode) : M ASTNode :=
  match fuel with
  | O => outOfFuel
  | S fuel' =>
      m <- match_ types ;;
      if m then
        p <- previous ;;
        let operator := Lexer.value p in
        right <- operand ;;
        operatorLoop fuel' types make operand (make operator expr right)
      else ret expr
  end.

(** The loop of [finishCall()]: the test on 255 arguments has no effect
    either. *)
Fixpoint argumentList (fuel : nat) (expression : M ASTNode)
    (args : list ASTNode) : M (list ASTNode) :=
  match fuel with
  | O => outOfFuel
  | S fuel' =>
      (if (255 <=? List.length args)%nat
       then t <- peek ;;
            let _ := error t "Cannot have more than 255 arguments." in ret tt
       else ret tt) ;;;
      e <- expression ;;
      let args := (args ++ [e])%list in
      comma <- match_ ["COMMA"] ;;
      if comma then argumentList fuel' expression args else ret args
  end.

Definition finishCall (fuel : nat) (expression : M ASTNode) (callee : ASTNode)
    : M ASTNode :=
  close <- check "RIGHT_PAREN" ;;
  args <- (if negb close then argumentList fuel expression [] else ret []) ;;
  consume "RIGHT_PAREN" "Expect ')' after arguments." ;;;
  ret (CallExpression callee args).

Definition primary (expression : M ASTNode) : M ASTNode :=
  m <- match_ ["FALSE"] ;;
  if m then ret (Literal (VBool false)) else
  m <- match_ ["TRUE"] ;;
  if m then ret (Literal (VBool true)) else
  m <- match_ ["NULL"] ;;
  if m then ret (Literal VNull) else
  m <- match_ ["NUMBER"] ;;
  if m then p <- previous ;; ret (Literal (VNum (parseFloat (Lexer.value p)))) else
  m <- match_ ["STRING"] ;;
  if m then p <- previous ;; ret (Literal (VStr (Lexer.value p))) else
  m <- match_ ["IDENTIFIER"] ;;
  if m then p <- previous ;; ret (Identifier (Lexer.value p)) else
  m <- match_ ["LEFT_PAREN"] ;;
  if m then
    expr <- expression ;;
    consume "RIGHT_PAREN" "Expect ')' after expression." ;;;
    ret (GroupExpression expr)
  else t <- peek ;; throw (error t "Expect expression.").

(** The [while (true)] loop of [call()]. *)
Fixpoint callLoop (fuel : nat) (expression : M ASTNode) (expr : ASTNode)
    : M ASTNode :=
  match fuel with
  | O => outOfFuel
  | S fuel' =>
      paren <- match_ ["LEFT_PAREN"] ;;
      if paren then
        expr <- finishCall fuel' expression expr ;;
        callLoop fuel' expression expr
      else
        dot <- match_ ["DOT"] ;;
        if dot then
          name <- consume "IDENTIFIER" "Expect property name after '.'." ;;
          callLoop fuel' expression
            (MemberExpression expr (Identifier (Lexer.value name)))
        else ret expr
  end.

Definition call (fuel : nat) (expression : M ASTNode) : M ASTNode :=
  expr <- primary expression ;;
  callLoop fuel expression expr.

Fixpoint unary (fuel : nat) (expression : M ASTNode) : M ASTNode :=
  match fuel with
  | O => outOfFuel
  | S fuel' =>
      m <- match_ ["BANG"; "MINUS"] ;;
      if m then
        p <- previous ;;
        let operator := Lexer.value p in
        right <- unary fuel' expression ;;
        ret (UnaryExpression operator right)
      else call fuel' expression
  end.

Definition factor (fuel : nat) (expression : M ASTNode) : M ASTNode :=
  expr <- unary fuel expression ;;
  operatorLoop fuel ["SLASH"; "STAR"] BinaryExpression (unary fuel expression) expr.

Definition term (fuel : nat) (expression : M ASTNode) : M ASTNode :=
  expr <- factor fuel expression ;;
  operatorLoop fuel ["MINUS"; "PLUS"] BinaryExpression (factor fuel expression) expr.

Definition comparison (fuel : nat) (expression : M ASTNode) : M ASTNode :=
  expr <- term fuel expression ;;
  operatorLoop fuel ["GREATER"; "GREATER_EQUAL"; "LESS"; "LESS_EQUAL"]
    BinaryExpression (term fuel expression) expr.

Definition equality (fuel : nat) (expression : M ASTNode) : M ASTNode :=
  expr <- comparison fuel expression ;;
  operatorLoop fuel ["BANG_EQUAL"; "EQUAL_EQUAL"] BinaryExpression
    (comparison fuel expression) expr.

Definition logicalAnd (fuel : nat) (expression : M ASTNode) : M ASTNode :=
  expr <- equality fuel expression ;;
  operatorLoop fuel ["AND"] LogicalExpression (equality fuel expression) expr.

Definition logicalOr (fuel : nat) (expression : M ASTNode) : M ASTNode :=
  expr <- logicalAnd fuel expression ;;
  operatorLoop fuel ["OR"] LogicalExpression (logicalAnd fuel expression) expr.

(** [assignment()].  On a target that is not an Identifier the method
    calls [this.error(equals, ...)] and drops the error it returns;
    control then reaches [return expr]. *)
Fixpoint assignment (fuel : nat) (expression : M ASTNode) : M ASTNode :=
  match fuel with
  | O => outOfFuel
  | S fuel' =>
      expr <- logicalOr fuel' expression ;;
      m <- match_ ["EQUAL"] ;;
      if m then
        equals <- previous ;;
        value <- assignment fuel' expression ;;
        if String.eqb (nodeType expr) "Identifier"
        then ret (AssignmentExpression "=" expr value)
        else
          let _ := error equals "Invalid assignment target." in
          ret expr
      else ret expr
  end.

Fixpoint expression (fuel : nat) : M ASTNode :=
  match fuel with
  | O => outOfFuel
  | S fuel' => assignment fuel' (expression fuel')
  end.

Fixpoint statement (fuel : nat) (declaration : M ASTNode) : M ASTNode :=
  match fuel with
  | O => outOfFuel
  | S fuel' =>
      m <- match_ ["IF"] ;;
      if m then ifStatement (expression fuel') (statement fuel' declaration) else
      m <- match_ ["WHILE"] ;;
      if m then whileStatement (expression fuel') (statement fuel' declaration) else
      m <- match_ ["FOR"] ;;
      if m then forStatement (expression fuel') (statement fuel' declaration) else
      m <- match_ ["RETURN"] ;;
      if m then returnStatement (expression fuel') else
      m <- match_ ["LEFT_BRACE"] ;;
      if m then block fuel' declaration else
      expressionStatement (expression fuel')
  end.

Fixpoint declaration (fuel : nat) : M ASTNode :=
  match fuel with
  | O => outOfFuel
  | S fuel' =>
      tryCatch
        (m <- match_ ["VAR"] ;;
         if m then varDeclaration (expression fuel') else
         m <- match_ ["FUNCTION"] ;;
         if m then functionDeclaration fuel' (block fuel' (declaration fuel')) else
         statement fuel' (declaration fuel'))
        (fun e => synchronize (List.length tokens) ;;; throw e)
  end.

(** The loop of [program()]. *)
Fixpoint programStatements (fuel : nat) (statements : list ASTNode)
    : M (list ASTNode) :=
  match fuel with
  | O => outOfFuel
  | S fuel' =>
      atEnd <- isAtEnd ;;
      if negb atEnd then
        d <- declaration fuel' ;;
        programStatements fuel' (statements ++ [d])%list
      else ret statements
  end.

Definition program (fuel : nat) : M ASTNode :=
  statements <- programStatements fuel [] ;;
  ret (Program statements).

End Methods.

(** [m'] returns what [m] returns whenever [m] stays within its
    recursion bound. *)
Definition refines {A} (m m' : M A) : Prop :=
  forall current r, m current = r -> r <> OutOfFuel -> m' current = r.

(** [new Parser(tokens).parse()]: [parse] rethrows what [program]
    throws. *)
Definition parse (fuel : nat) (tokens : list Token) : Result ASTNode :=
  tryCatch (program tokens fuel) (fun e => throw e) 0.

(** [m], started at index [current], stays within its recursion
    bound, and what it returns satisfies [post]. *)
Definition returns {A} (m : M A) (current : nat) (post : A -> nat -> Prop) : Prop :=
  match m current with
  | Ok a current' => post a current'
  | Throw _ _ => True
  | OutOfFuel => False
  end.

(** The number of tokens from index [current] on. *)
Definition remaining (tokens : list Token) (current : nat) : nat :=
  List.length tokens - current.

(** Where fewer than [n] tokens remain, [m] stays within its recursion
    bound and, when it returns, has consumed a token. *)
Definition consumes {A} (tokens : list Token) (n : nat) (m : M A) : Prop :=
  forall current,
    remaining tokens current < n ->
    returns m current
      (fun _ current' => remaining tokens current' < remaining tokens current).

(** [method] parses [left op right], where [operand] parses [left]
    and [right], [op] is a token of one of the kinds [types] and the
    token behind [right] is not: it returns the BinaryExpression of
    [left] and [right] whose operator is the text of [op]. *)
Definition takesTokenText
    (method operand : list Token -> nat -> M ASTNode -> M ASTNode)
    (types : list string) : Prop :=
  forall tokens fuel expression current left right operator after p q,
    operand tokens (S (S fuel)) expression current = Ok left p ->
    nth_error tokens p = Some operator ->
    In (Lexer.type operator) types ->
    operand tokens (S (S fuel)) expression (S p) = Ok right q ->
    nth_error tokens q = Some after ->
    ~ In (Lexer.type after) types ->
    method tokens (S (S fuel)) expression current =
      Ok (BinaryExpression (Lexer.value operator) left right) q.

Close Scope parser_scope.

End Parser.

(* ================================================================= *)
(** ** Semantic analyzer *)

Module SemanticAnalyzer.
Import JS Parser.

(** [SemanticError(message, node)]. *)
Inductive SemanticError : Type :=
| mkSemanticError (message : string) (node : ASTNode).

Definition message (e : SemanticError) : string :=
  match e with mkSemanticError m _ => m end.

(** The error of the engine when strict code sets a property on a
    string or a boolean (modules and class bodies are strict code).
    The message is the engine's own. *)
Inductive Error : Type :=
| TypeError (message : string).

(** An entry of a symbol table. *)
Record Symbol : Type := mkSymbol
  { type : string; initialized : bool; used : bool }.

(** A [SymbolTable] object.  [entries] are its own properties in the
    order in which [Object.entries] lists them.  [proto] is its
    prototype: [None] for [Object.prototype], which every object
    literal has, and [Some r] for the entry [r] that an assignment
    [table["__proto__"] = r] has put in its place (the prototype of
    [r] is [Object.prototype]). *)
Record SymbolTable : Type := mkTable
  { entries : list (string * Symbol); proto : option Symbol }.

(** [{}]. *)
Definition empty : SymbolTable := mkTable [] None.

(** What the analyzer has written to [Object.prototype], which all
    tables inherit from, and to its function-valued members:
    [objectUsed] stands for [Object.prototype.used === true],
    [membersUsed] lists the members [f] with [f.used === true], and
    likewise for [initialized].  The object is shared by everything
    that runs in the realm; it is carried with the analyzer that
    runs. *)
Record ObjectPrototype : Type := mkObjectPrototype
  { objectUsed : bool;
    objectInitialized : bool;
    membersUsed : list string;
    membersInitialized : list string }.

(** [Object.prototype] as the engine creates it. *)
Definition pristine : ObjectPrototype := mkObjectPrototype false false [] [].

(** The function-valued members of [Object.prototype]; [__proto__] is
    its one accessor. *)
Definition members : list string :=
  ["constructor"; "__defineGetter__"; "__defineSetter__"; "hasOwnProperty";
   "__lookupGetter__"; "__lookupSetter__"; "isPrototypeOf"; "propertyIsEnumerable";
   "toString"; "valueOf"; "toLocaleString"].

Definition includes (l : list string) (s : string) : bool :=
  existsb (String.eqb s) l.

(** The value of [table[name]] when it is not [undefined]: an entry of
    a symbol table, [Object.prototype] itself, one of its members, or
    the string or boolean held by a field of the entry that is the
    prototype of the table. *)
Inductive Property : Type :=
| PSymbol (symbol : Symbol)
| PObjectPrototype
| PMember (name : string)
| PString (s : string)
| PBoolean (b : bool).

(** The own property [name] among [entries]. *)
Fixpoint own (name : string) (entries : list (string * Symbol)) : option Symbol :=
  match entries with
  | [] => None
  | (k, v) :: rest => if String.eqb k name then Some v else own name rest
  end.

(** [Object.prototype[name]] for a name other than [__proto__]. *)
Definition inherited (prototype : ObjectPrototype) (name : string) : option Property :=
  if includes members name then Some (PMember name)
  else if String.eqb name "used" && objectUsed prototype then Some (PBoolean true)
  else if String.eqb name "initialized" && objectInitialized prototype
       then Some (PBoolean true)
  else None.

(** [table[name]]: an own property, else the prototype of the table
    for [__proto__], else a field of the entry that is the prototype,
    else what [Object.prototype] has. *)
Definition get (prototype : ObjectPrototype) (name : string) (table : SymbolTable)
    : option Property :=
  match own name (entries table) with
  | Some symbol => Some (PSymbol symbol)
  | None =>
      if String.eqb name "__proto__" then
        match proto table with
        | Some r => Some (PSymbol r)
        | None => Some PObjectPrototype
        end
      else
        match proto table with
        | Some r =>
            if String.eqb name "type" then Some (PString (type r))
            else if String.eqb name "initialized" then Some (PBoolean (initialized r))
            else if String.eqb name "used" then Some (PBoolean (used r))
            else inherited prototype name
        | None => inherited prototype name
        end
  end.

(** ToBoolean of [table[name]], as the tests [if (table[name])] and
    [if (!variable)] take it. *)
Definition found (p : option Property) : bool :=
  match p with
  | None => false
  | Some (PString s) => negb (String.eqb s "")
  | Some (PBoolean b) => b
  | Some _ => true
  end.

Definition isSome {A} (o : option A) : bool :=
  match o with Some _ => true | None => false end.

(** [name] is an array index: the decimal text, without a leading
    zero, of an integer below [2^32 - 1].  An object lists the own
    properties with such names first, in ascending order, and the
    others behind them in the order of their creation. *)
Definition isIndex (name : string) : bool :=
  match list_ascii_of_string name with
  | [] => false
  | c :: rest =>
      forallb is_digit (c :: rest)
      && (negb (Ascii.eqb c "0") || match rest with [] => true | _ => false end)
      && (digits_value (c :: rest) <=? 4294967294)%Z
  end.

Definition indexValue (name : string) : Z :=
  digits_value (list_ascii_of_string name).

(** The value of an own property is replaced; the property keeps its
    place. *)
Fixpoint replaceOwn (name : string) (symbol : Symbol) (entries : list (string * Symbol))
    : list (string * Symbol) :=
  match entries with
  | [] => []
  | (k, v) :: rest =>
      if String.eqb k name then (k, symbol) :: rest
      else (k, v) :: replaceOwn name symbol rest
  end.

(** An own property whose name is an array index is created: it goes
    behind the array indices that are smaller. *)
Fixpoint insertIndex (name : string) (symbol : Symbol) (entries : list (string * Symbol))
    : list (string * Symbol) :=
  match entries with
  | [] => [(name, symbol)]
  | (k, v) :: rest =>
      if isIndex k && (indexValue k <? indexValue name)%Z
      then (k, v) :: insertIndex name symbol rest
      else (name, symbol) :: entries
  end.

(** An own property is set. *)
Definition assignOwn (name : string) (symbol : Symbol) (entries : list (string * Symbol))
    : list (string * Symbol) :=
  if isSome (own name entries) then replaceOwn name symbol entries
  else if isIndex name then insertIndex name symbol entries
  else (entries ++ [(name, symbol)])%list.

(** [table[name] = symbol].  For [__proto__] the setter inherited from
    [Object.prototype] runs and makes [symbol] the prototype of the
    table, unless the table has an own property of that name. *)
Definition assign (name : string) (symbol : Symbol) (table : SymbolTable) : SymbolTable :=
  if String.eqb name "__proto__" && negb (isSome (own name (entries table)))
  then mkTable (entries table) (Some symbol)
  else mkTable (assignOwn name symbol (entries table)) (proto table).

(** The fields of a [SemanticAnalyzer] instance, [scopes] in index
    order, innermost scope last; and the state of [Object.prototype]. *)
Record t : Type := mk
  { scopes : list SymbolTable;
    currentScope : SymbolTable;
    errors : list SemanticError;
    objectPrototype : ObjectPrototype }.

(** A method returns or throws; either way it leaves a state. *)
Inductive Result : Type :=
| Ok (st : t)
| Throw (e : Error) (st : t).

Definition bind (m : Result) (f : t -> Result) : Result :=
  match m with
  | Ok st => f st
  | Throw e st => Throw e st
  end.

Section Loops.
Context {A : Type} (f : A -> t -> Result).

(** [for (const a of l) f(a);] *)
Fixpoint forEach (l : list A) (st : t) : Result :=
  match l with
  | [] => Ok st
  | a :: rest => bind (f a st) (forEach rest)
  end.

End Loops.

Definition pushError (e : SemanticError) (st : t) : t :=
  mk (scopes st) (currentScope st) (errors st ++ [e]) (objectPrototype st).

Definition setCurrent (name : string) (symbol : Symbol) (st : t) : t :=
  mk (scopes st) (assign name symbol (currentScope st)) (errors st) (objectPrototype st).

Definition enterScope (st : t) : t :=
  mk (scopes st ++ [currentScope st]) empty (errors st) (objectPrototype st).

Definition exitScope (st : t) : t :=
  let st1 :=
    fold_left
      (fun st (entry : string * Symbol) =>
         let (name, info) := entry in
         if negb (used info) then
           pushError
             (mkSemanticError ("Variable '" ++ name ++ "' is declared but never used")
                (Identifier name)) st
         else st)
      (entries (currentScope st)) st in
  mk (removelast (scopes st1)) (last (scopes st1) empty) (errors st1)
     (objectPrototype st1).

(** The search of [lookupVariable] over the outer scopes, from the last
    index down; the list is given innermost first. *)
Fixpoint lookupOuter (prototype : ObjectPrototype) (name : string)
    (rev_scopes : list SymbolTable) : option Property :=
  match rev_scopes with
  | [] => None
  | s :: rest =>
      if found (get prototype name s) then get prototype name s
      else lookupOuter prototype name rest
  end.

Definition lookupVariable (name : string) (st : t) : option Property :=
  if found (get (objectPrototype st) name (currentScope st))
  then get (objectPrototype st) name (currentScope st)
  else lookupOuter (objectPrototype st) name (rev (scopes st)).

(** The two fields the analyzer sets to [true] on what
    [lookupVariable] returned. *)
Inductive Field : Type :=
| Used
| Initialized.

Definition mark (field : Field) (s : Symbol) : Symbol :=
  match field with
  | Used => mkSymbol (type s) (initialized s) true
  | Initialized => mkSymbol (type s) true (used s)
  end.

(** [table[name].field = true] where [table[name]] is an entry: an own
    property, or for [__proto__] the prototype of the table. *)
Definition markIn (field : Field) (name : string) (table : SymbolTable) : SymbolTable :=
  match own name (entries table) with
  | Some s => mkTable (replaceOwn name (mark field s) (entries table)) (proto table)
  | None => mkTable (entries table) (option_map (mark field) (proto table))
  end.

(** The write reaches the entry in the table where the search of
    [lookupOuter] found it. *)
Fixpoint markOuter (prototype : ObjectPrototype) (field : Field) (name : string)
    (rev_scopes : list SymbolTable) : list SymbolTable :=
  match rev_scopes with
  | [] => []
  | s :: rest =>
      if found (get prototype name s) then markIn field name s :: rest
      else s :: markOuter prototype field name rest
  end.

Definition markVariable (field : Field) (name : string) (st : t) : t :=
  if found (get (objectPrototype st) name (currentScope st))
  then mk (scopes st) (markIn field name (currentScope st)) (errors st)
          (objectPrototype st)
  else mk (rev (markOuter (objectPrototype st) field name (rev (scopes st))))
          (currentScope st) (errors st) (objectPrototype st).

Definition add (name : string) (l : list string) : list string :=
  if includes l name then l else (l ++ [name])%list.

(** [Object.prototype.field = true]. *)
Definition markObject (field : Field) (p : ObjectPrototype) : ObjectPrototype :=
  match field with
  | Used =>
      mkObjectPrototype true (objectInitialized p) (membersUsed p) (membersInitialized p)
  | Initialized =>
      mkObjectPrototype (objectUsed p) true (membersUsed p) (membersInitialized p)
  end.

(** [Object.prototype[name].field = true]. *)
Definition markMember (field : Field) (name : string) (p : ObjectPrototype)
    : ObjectPrototype :=
  match field with
  | Used =>
      mkObjectPrototype (objectUsed p) (objectInitialized p) (add name (membersUsed p))
        (membersInitialized p)
  | Initialized =>
      mkObjectPrototype (objectUsed p) (objectInitialized p) (membersUsed p)
        (add name (membersInitialized p))
  end.

Definition setObjectPrototype (p : ObjectPrototype) (st : t) : t :=
  mk (scopes st) (currentScope st) (errors st) p.

Definition fieldName (field : Field) : string :=
  match field with
  | Used => "used"
  | Initialized => "initialized"
  end.

(** The message of V8 for a property set on a string or a boolean. *)
Definition cannotCreate (field : Field) (kind value : string) : Error :=
  TypeError
    ("Cannot create property '" ++ fieldName field ++ "' on " ++ kind ++ " '" ++ value
     ++ "'").

(** [variable.field = true] for the [variable] that
    [lookupVariable(name)] returned in [st].  The write changes the
    object found, wherever it is; on a string or a boolean it
    throws. *)
Definition setField (field : Field) (name : string) (st : t) : Result :=
  match lookupVariable name st with
  | None => Ok st
  | Some (PSymbol _) => Ok (markVariable field name st)
  | Some PObjectPrototype =>
      Ok (setObjectPrototype (markObject field (objectPrototype st)) st)
  | Some (PMember f) =>
      Ok (setObjectPrototype (markMember field f (objectPrototype st)) st)
  | Some (PString s) => Throw (cannotCreate field "string" s) st
  | Some (PBoolean b) =>
      Throw (cannotCreate field "boolean" (if b then "true" else "false")) st
  end.

(** ToBoolean of [variable.initialized].  A member of
    [Object.prototype], a string and a boolean have the property when
    [Object.prototype] has it, which they inherit from. *)
Definition isInitialized (prototype : ObjectPrototype) (variable : Property) : bool :=
  match variable with
  | PSymbol s => initialized s
  | PObjectPrototype => objectInitialized prototype
  | PMember f => includes (membersInitialized prototype) f || objectInitialized prototype
  | PString _ | PBoolean _ => objectInitialized prototype
  end.

(** [func.type === "function"]: only an entry has a [type]. *)
Definition isFunction (func : Property) : bool :=
  match func with
  | PSymbol s => String.eqb (type s) "function"
  | _ => false
  end.

Definition visitIdentifier (name : string) (node : ASTNode) (st : t) : Result :=
  match lookupVariable name st with
  | None =>
      Ok (pushError
            (mkSemanticError ("Variable '" ++ name ++ "' used before declaration") node)
            st)
  | Some variable =>
      bind (setField Used name st) (fun st =>
        if negb (isInitialized (objectPrototype st) variable) then
          Ok (pushError
                (mkSemanticError ("Variable '" ++ name ++ "' used before initialization")
                   node) st)
        else Ok st)
  end.

(** [visit] with the [visitX] methods as its cases. *)
Fixpoint visit (node : ASTNode) (st : t) {struct node} : Result :=
  match node with
  | Program body => forEach visit body st
  | VariableDeclaration name initializer =>
      let st :=
        if found (get (objectPrototype st) name (currentScope st)) then
          pushError
            (mkSemanticError
               ("Variable '" ++ name ++ "' already declared in this scope") node) st
        else setCurrent name (mkSymbol "variable" (isSome initializer) false) st in
      match initializer with
      | Some e => visit e st
      | None => Ok st
      end
  | FunctionDeclaration name params body =>
      let st :=
        if found (get (objectPrototype st) name (currentScope st)) then
          pushError
            (mkSemanticError
               ("Function '" ++ name ++ "' already declared in this scope") node) st
        else setCurrent name (mkSymbol "function" true false) st in
      let st := enterScope st in
      let st :=
        fold_left (fun st param => setCurrent param (mkSymbol "parameter" true false) st)
          params st in
      bind (visit body st) (fun st =>
        let st :=
          fold_left
            (fun st (entry : string * Symbol) =>
               let (name, info) := entry in
               if String.eqb (type info) "parameter" && negb (used info) then
                 pushError
                   (mkSemanticError ("Parameter '" ++ name ++ "' is never used") node) st
               else st)
            (entries (currentScope st)) st in
        Ok (exitScope st))
  | BlockStatement body =>
      bind (forEach visit body (enterScope st)) (fun st => Ok (exitScope st))
  | ExpressionStatement expression => visit expression st
  | IfStatement condition thenBranch elseBranch =>
      bind (visit condition st) (fun st =>
        bind (visit thenBranch st) (fun st =>
          match elseBranch with
          | Some e => visit e st
          | None => Ok st
          end))
  | WhileStatement condition body =>
      bind (visit condition st) (fun st => visit body st)
  | ForStatement initializer condition increment body =>
      bind (match initializer with
            | Some n => visit n (enterScope st)
            | None => Ok (enterScope st)
            end) (fun st =>
        bind (match condition with Some n => visit n st | None => Ok st end) (fun st =>
          bind (match increment with Some n => visit n st | None => Ok st end) (fun st =>
            bind (visit body st) (fun st => Ok (exitScope st)))))
  | ReturnStatement value =>
      match value with
      | Some v => visit v st
      | None => Ok st
      end
  | BinaryExpression _ lhs rhs =>
      bind (visit lhs st) (fun st => visit rhs st)
  | UnaryExpression _ argument => visit argument st
  | LogicalExpression _ lhs rhs =>
      bind (visit lhs st) (fun st => visit rhs st)
  | AssignmentExpression _ lhs rhs =>
      bind (match lhs with
            | Identifier name =>
                match lookupVariable name st with
                | None =>
                    Ok (pushError
                          (mkSemanticError
                             ("Variable '" ++ name ++ "' used before declaration") node)
                          st)
                | Some _ => setField Initialized name st
                end
            | _ => visit lhs st
            end) (fun st => visit rhs st)
  | CallExpression callee arguments =>
      bind (visit callee st) (fun st =>
        bind (match callee with
              | Identifier name =>
                  match lookupVariable name st with
                  | None =>
                      Ok (pushError
                            (mkSemanticError
                               ("Function '" ++ name ++ "' called before declaration")
                               node) st)
                  | Some func =>
                      if negb (isFunction func) then
                        Ok (pushError
                              (mkSemanticError ("'" ++ name ++ "' is not a function") node)
                              st)
                      else setField Used name st
                  end
              | _ => Ok st
              end) (fun st => forEach visit arguments st))
  | MemberExpression object _ => visit object st
  | Identifier name => visitIdentifier name node st
  | Literal _ => Ok st
  | GroupExpression expression => visit expression st
  end.

(** [new SemanticAnalyzer()]: the field initialisers, then
    [enterScope()], in a realm where nothing has written to
    [Object.prototype]. *)
Definition new : t := enterScope (mk [] empty [] pristine).

(** [analyze(ast)] returns its error list or throws; the instance after
    the call is given in both cases.  Only [errors] is reset. *)
Inductive Outcome : Type :=
| Returns (errors : list SemanticError) (st : t)
| Throws (e : Error) (st : t).

Definition analyze (ast : ASTNode) (st : t) : Outcome :=
  match visit ast (mk (scopes st) (currentScope st) [] (objectPrototype st)) with
  | Ok st' => Returns (errors st') st'
  | Throw e st' => Throws e st'
  end.

(** The names a table declares, in insertion order. *)
Definition names (table : SymbolTable) : list string := map fst (entries table).

(** The entry that is the prototype of a table may get its fields
    [used] and [initialized] set; it is never replaced. *)
Definition protoFollows (p p' : option Symbol) : Prop :=
  match p, p' with
  | None, None => True
  | Some r, Some r' =>
      type r' = type r
      /\ (initialized r = true -> initialized r' = true)
      /\ (used r = true -> used r' = true)
  | _, _ => False
  end.

(** What has been written to [Object.prototype] stays. *)
Definition prototypeFollows (p p' : ObjectPrototype) : Prop :=
  (objectUsed p = true -> objectUsed p' = true)
  /\ (objectInitialized p = true -> objectInitialized p' = true)
  /\ (forall f, includes (membersUsed p) f = true -> includes (membersUsed p') f = true)
  /\ (forall f, includes (membersInitialized p) f = true ->
                includes (membersInitialized p') f = true).

(** [st'] can follow [st] in an analysis: the enclosing scopes have
    the own names they had, the current scope has the names it had,
    no table has changed its prototype, and the earlier errors come
    first. *)
Definition follows (st st' : t) : Prop :=
  map names (scopes st') = map names (scopes st)
  /\ Forall2 protoFollows (map proto (scopes st)) (map proto (scopes st'))
  /\ incl (names (currentScope st)) (names (currentScope st'))
  /\ protoFollows (proto (currentScope st)) (proto (currentScope st'))
  /\ prototypeFollows (objectPrototype st) (objectPrototype st')
  /\ (exists new, errors st' = (errors st ++ new)%list).

(** The tables the search of [lookupVariable] goes through, outermost
    first. *)
Definition stack (st : t) : list SymbolTable :=
  (scopes st ++ [currentScope st])%list.

(** A table has kept its own names and its prototype. *)
Definition tableKeeps (table table' : SymbolTable) : Prop :=
  incl (names table) (names table')
  /\ protoFollows (proto table) (proto table').

(** [st'] is a state inside the analysis begun at [st]: the tables of
    [st] are still there, below the scopes entered since, with the own
    names and the prototype they had, and what was written to
    [Object.prototype] is still there. *)
Definition keeps (st st' : t) : Prop :=
  (exists kept deeper,
      stack st' = (kept ++ deeper)%list /\ Forall2 tableKeeps (stack st) kept)
  /\ prototypeFollows (objectPrototype st) (objectPrototype st').

(** What a method does from [st]: when it returns, the state follows
    [st]; when it throws, the scopes entered are not left, and the
    state keeps what [st] had. *)
Definition proceeds (st : t) (r : Result) : Prop :=
  match r with
  | Ok st' => follows st st'
  | Throw _ st' => keeps st st'
  end.

(** The own names of the current scope at [st'], where [st] was the
    state before the declaration of [name]: the same when
    [currentScope[name]] was found, and else with [name] added, behind
    the others unless it is an array index. *)
Definition declares (name : string) (st st' : t) : Prop :=
  if found (get (objectPrototype st) name (currentScope st))
  then names (currentScope st') = names (currentScope st)
  else (isIndex name = false ->
        names (currentScope st') = (names (currentScope st) ++ [name])%list)
       /\ (forall n,
             In n (names (currentScope st'))
             <-> n = name \/ In n (names (currentScope st))).

(** [lookupVariable(name)] does not return [null]. *)
Definition declared (name : string) (st : t) : bool :=
  isSome (lookupVariable name st).

(** The error [exitScope] pushes for an entry that is not marked as
    used, and the names of those entries, in the order of the table. *)
Definition unusedError (name : string) : SemanticError :=
  mkSemanticError ("Variable '" ++ name ++ "' is declared but never used")
    (Identifier name).

Definition unusedNames (table : SymbolTable) : list string :=
  map fst (filter (fun entry => negb (used (snd entry))) (entries table)).

End SemanticAnalyzer.

(* ================================================================= *)
(** ** IR generator *)

Module IRGenerator.
Import JS Parser.

Record IRInstruction : Type := mkInstr
  { op : string; args : list Value }.

(** [IRGenerationError(message, node)]. *)
Inductive IRGenerationError : Type :=
| mkIRGenerationError (message : string) (node : ASTNode).

(** The fields of an [IRGenerator] instance. *)
Record t : Type := mk
  { instructions : list IRInstruction; tempCounter : nat; labelCounter : nat }.

Inductive Result (A : Type) : Type :=
| Ok (a : A) (st : t)
| Throw (e : IRGenerationError) (st : t).
Arguments Ok {A} a st.
Arguments Throw {A} e st.

Definition M (A : Type) : Type := t -> Result A.

Definition ret {A} (a : A) : M A := fun st => Ok a st.

Definition bind {A B} (m : M A) (k : A -> M B) : M B :=
  fun st =>
    match m st with
    | Ok a st' => k a st'
    | Throw e st' => Throw e st'
    end.

Definition throw {A} (e : IRGenerationError) : M A := fun st => Throw e st.

Declare Scope ir_scope.
Delimit Scope ir_scope with ir.
Notation "x <- m ;; k" := (bind m (fun x => k))
  (at level 61, m at next level, right associativity) : ir_scope.
Notation "m ;;; k" := (bind m (fun _ => k))
  (at level 61, right associativity) : ir_scope.
Open Scope ir_scope.

Definition emit (op : string) (args : list Value) : M unit :=
  fun st =>
    Ok tt (mk (instructions st ++ [mkInstr op args]) (tempCounter st) (labelCounter st)).

Definition createTemp : M string :=
  fun st =>
    Ok ("t" ++ string_of_nat (tempCounter st))
       (mk (instructions st) (S (tempCounter st)) (labelCounter st)).

Definition createLabel (prefix : string) : M string :=
  fun st =>
    Ok (prefix ++ "_" ++ string_of_nat (labelCounter st))
       (mk (instructions st) (tempCounter st) (S (labelCounter st))).

(** [node.name], [undefined] on a node without the field. *)
Definition nodeName (node : ASTNode) : Value :=
  match node with
  | VariableDeclaration name _ | FunctionDeclaration name _ _ | Identifier name =>
      VStr name
  | _ => VUndef
  end.

(** The [switch] of [generateBinaryExpression]. *)
Definition binaryOperation (operator : string) : option string :=
  if String.eqb operator "+" then Some "ADD"
  else if String.eqb operator "-" then Some "SUB"
  else if String.eqb operator "*" then Some "MUL"
  else if String.eqb operator "/" then Some "DIV"
  else if String.eqb operator "==" then Some "EQ"
  else if String.eqb operator "!=" then Some "NEQ"
  else if String.eqb operator "<" then Some "LT"
  else if String.eqb operator "<=" then Some "LTE"
  else if String.eqb operator ">" then Some "GT"
  else if String.eqb operator ">=" then Some "GTE"
  else None.

(** [generateIR] with the [generateX] methods as its cases; it returns
    the name that holds the node's value. *)
Fixpoint generateIR (node : ASTNode) {struct node} : M string :=
  match node with
  | Program body =>
      (fix statements (l : list ASTNode) : M string :=
         match l with
         | [] => ret ""
         | s :: rest => generateIR s ;;; statements rest
         end) body
  | VariableDeclaration varName initializer =>
      match initializer with
      | Some e =>
          valueTemp <- generateIR e ;;
          emit "STORE" [VStr valueTemp; VStr varName]
      | None => emit "DECLARE" [VStr varName]
      end ;;;
      ret varName
  | FunctionDeclaration funcName params body =>
      emit "FUNCTION_START" [VStr funcName; VArr params] ;;;
      generateIR body ;;;
      emit "FUNCTION_END" [VStr funcName] ;;;
      ret funcName
  | BlockStatement body =>
      emit "BLOCK_START" [] ;;;
      (fix statements (l : list ASTNode) : M string :=
         match l with
         | [] => ret ""
         | s :: rest => generateIR s ;;; statements rest
         end) body ;;;
      emit "BLOCK_END" [] ;;;
      ret ""
  | ExpressionStatement expression =>
      generateIR expression ;;; ret ""
  | IfStatement condition thenBranch elseBranch =>
      conditionTemp <- generateIR condition ;;
      elseLabel <- createLabel "else" ;;
      endLabel <- createLabel "endif" ;;
      emit "JUMP_IF_FALSE" [VStr conditionTemp; VStr elseLabel] ;;;
      generateIR thenBranch ;;;
      emit "JUMP" [VStr endLabel] ;;;
      emit "LABEL" [VStr elseLabel] ;;;
      match elseBranch with
      | Some e => generateIR e ;;; ret tt
      | None => ret tt
      end ;;;
      emit "LABEL" [VStr endLabel] ;;;
      ret ""
  | WhileStatement condition body =>
      startLabel <- createLabel "while" ;;
      endLabel <- createLabel "endwhile" ;;
      emit "LABEL" [VStr startLabel] ;;;
      conditionTemp <- generateIR condition ;;
      emit "JUMP_IF_FALSE" [VStr conditionTemp; VStr endLabel] ;;;
      generateIR body ;;;
      emit "JUMP" [VStr startLabel] ;;;
      emit "LABEL" [VStr endLabel] ;;;
      ret ""
  | ForStatement initializer condition increment body =>
      startLabel <- createLabel "for" ;;
      updateLabel <- createLabel "forupdate" ;;
      endLabel <- createLabel "endfor" ;;
      match initializer with
      | Some n => generateIR n ;;; ret tt
      | None => ret tt
      end ;;;
      emit "LABEL" [VStr startLabel] ;;;
      match condition with
      | Some n =>
          conditionTemp <- generateIR n ;;
          emit "JUMP_IF_FALSE" [VStr conditionTemp; VStr endLabel]
      | None => ret tt
      end ;;;
      generateIR body ;;;
      emit "LABEL" [VStr updateLabel] ;;;
      match increment with
      | Some n => generateIR n ;;; ret tt
      | None => ret tt
      end ;;;
      emit "JUMP" [VStr startLabel] ;;;
      emit "LABEL" [VStr endLabel] ;;;
      ret ""
  | ReturnStatement value =>
      match value with
      | Some v =>
          valueTemp <- generateIR v ;;
          emit "RETURN" [VStr valueTemp]
      | None => emit "RETURN" []
      end ;;;
      ret ""
  | BinaryExpression operator lhs rhs =>
      leftTemp <- generateIR lhs ;;
      rightTemp <- generateIR rhs ;;
      resultTemp <- createTemp ;;
      match binaryOperation operator with
      | Some operation =>
          emit operation [VStr leftTemp; VStr rightTemp; VStr resultTemp] ;;;
          ret resultTemp
      | None =>
          throw (mkIRGenerationError ("Unknown binary operator: " ++ operator) node)
      end
  | UnaryExpression operator argument =>
      argTemp <- generateIR argument ;;
      resultTemp <- createTemp ;;
      (if String.eqb operator "-" then emit "NEG" [VStr argTemp; VStr resultTemp]
       else if String.eqb operator "!" then emit "NOT" [VStr argTemp; VStr resultTemp]
       else throw (mkIRGenerationError ("Unknown unary operator: " ++ operator) node)) ;;;
      ret resultTemp
  | LogicalExpression operator lhs rhs =>
      resultTemp <- createTemp ;;
      (if String.eqb operator "&&" then
         leftTemp <- generateIR lhs ;;
         skipLabel <- createLabel "and_skip" ;;
         emit "COPY" [VStr leftTemp; VStr resultTemp] ;;;
         emit "JUMP_IF_FALSE" [VStr leftTemp; VStr skipLabel] ;;;
         rightTemp <- generateIR rhs ;;
         emit "COPY" [VStr rightTemp; VStr resultTemp] ;;;
         emit "LABEL" [VStr skipLabel]
       else if String.eqb operator "||" then
         leftTemp <- generateIR lhs ;;
         skipLabel <- createLabel "or_skip" ;;
         emit "COPY" [VStr leftTemp; VStr resultTemp] ;;;
         emit "JUMP_IF_TRUE" [VStr leftTemp; VStr skipLabel] ;;;
         rightTemp <- generateIR rhs ;;
         emit "COPY" [VStr rightTemp; VStr resultTemp] ;;;
         emit "LABEL" [VStr skipLabel]
       else throw (mkIRGenerationError ("Unknown logical operator: " ++ operator) node)) ;;;
      ret resultTemp
  | AssignmentExpression _ lhs rhs =>
      rightTemp <- generateIR rhs ;;
      match lhs with
      | Identifier varName =>
          emit "STORE" [VStr rightTemp; VStr varName] ;;;
          ret rightTemp
      | MemberExpression object property =>
          objectTemp <- generateIR object ;;
          emit "STORE_PROP" [VStr objectTemp; nodeName property; VStr rightTemp] ;;;
          ret rightTemp
      | _ => throw (mkIRGenerationError "Invalid assignment target" node)
      end
  | CallExpression callee arguments =>
      args <-
        (fix argTemps (l : list ASTNode) (args : list string) : M (list string) :=
           match l with
           | [] => ret args
           | arg :: rest =>
               argTemp <- generateIR arg ;;
               argTemps rest (args ++ [argTemp])%list
           end) arguments [] ;;
      resultTemp <- createTemp ;;
      match callee with
      | Identifier funcName =>
          emit "CALL" [VStr funcName; VArr args; VStr resultTemp]
      | _ =>
          calleeTemp <- generateIR callee ;;
          emit "CALL_INDIRECT" [VStr calleeTemp; VArr args; VStr resultTemp]
      end ;;;
      ret resultTemp
  | MemberExpression object property =>
      objectTemp <- generateIR object ;;
      resultTemp <- createTemp ;;
      emit "LOAD_PROP" [VStr objectTemp; nodeName property; VStr resultTemp] ;;;
      ret resultTemp
  | Identifier name =>
      resultTemp <- createTemp ;;
      emit "LOAD" [VStr name; VStr resultTemp] ;;;
      ret resultTemp
  | Literal value =>
      resultTemp <- createTemp ;;
      emit "CONST" [value; VStr resultTemp] ;;;
      ret resultTemp
  | GroupExpression expression => generateIR expression
  end.

(** What [generate(ast)] does: it returns the instruction list or
    throws. *)
Inductive Outcome : Type :=
| Generated (ir : list IRInstruction)
| Failed (e : IRGenerationError).

(** [generate(ast)]: the three fields are reset first, so the instance
    it runs on does not matter. *)
Definition generate (ast : ASTNode) : Outcome :=
  match generateIR ast (mk [] 0 0) with
  | Ok _ st => Generated (instructions st)
  | Throw e _ => Failed e
  end.

(** The four errors the source builds, each for the node it names. *)
Definition knownFailure (e : IRGenerationError) : Prop :=
  match e with
  | mkIRGenerationError message node =>
      match node with
      | BinaryExpression operator _ _ =>
          binaryOperation operator = None
          /\ message = "Unknown binary operator: " ++ operator
      | UnaryExpression operator _ =>
          operator <> "-" /\ operator <> "!"
          /\ message = "Unknown unary operator: " ++ operator
      | LogicalExpression operator _ _ =>
          operator <> "&&" /\ operator <> "||"
          /\ message = "Unknown logical operator: " ++ operator
      | AssignmentExpression _ target _ =>
          nodeType target <> "Identifier" /\ nodeType target <> "MemberExpression"
          /\ message = "Invalid assignment target"
      | _ => False
      end
  end.

(** Whatever [m] throws is one of them. *)
Definition failsKnown {A} (m : M A) : Prop :=
  forall st,
    match m st with
    | Ok _ _ => True
    | Throw e _ => knownFailure e
    end.

Close Scope ir_scope.

End IRGenerator.

(* ================================================================= *)
(** ** Optimizer *)

Module Optimizer.
Import JS.

Definition IRInstruction := IRGenerator.IRInstruction.
Definition op := IRGenerator.op.
Definition args := IRGenerator.args.
Definition mkInstr := IRGenerator.mkInstr.

(** [instr.args[i]], [undefined] past the end of the array. *)
Definition arg (i : nat) (instr : IRInstruction) : Value :=
  nth i (args instr) VUndef.

(** [list.includes(s)] on strings. *)
Definition includes (l : list string) (s : string) : bool :=
  existsb (String.eqb s) l.

Definition binaryOps : list string :=
  ["ADD"; "SUB"; "MUL"; "DIV"; "EQ"; "NEQ"; "LT"; "LTE"; "GT"; "GTE"].

(** *** A [Map] keyed by values: the entries in insertion order, keys
    compared by SameValueZero. *)
Definition ValueMap : Type := list (Value * Value).

Fixpoint mapGet (k : Value) (m : ValueMap) : option Value :=
  match m with
  | [] => None
  | (k', v) :: rest => if same_value_zero k' k then Some v else mapGet k rest
  end.

Definition mapHas (k : Value) (m : ValueMap) : bool :=
  match mapGet k m with Some _ => true | None => false end.

(** [m.get(k)], [undefined] when the key is absent. *)
Definition mapGetOr (k : Value) (m : ValueMap) : Value :=
  match mapGet k m with Some v => v | None => VUndef end.

Fixpoint mapSet (k v : Value) (m : ValueMap) : ValueMap :=
  match m with
  | [] => [(k, v)]
  | (k', v') :: rest =>
      if same_value_zero k' k then (k', v) :: rest
      else (k', v') :: mapSet k v rest
  end.

Definition mapDelete (k : Value) (m : ValueMap) : ValueMap :=
  filter (fun e => negb (same_value_zero (fst e) k)) m.

(** *** Constant folding *)

(** The scan of [findPreviousConstInstr] from [currentIndex - 1] down
    to [0]. *)
Definition findPreviousConstInstr (ir : list IRInstruction) (currentIndex : nat)
    (tempVar : Value) : option IRInstruction :=
  find (fun instr => String.eqb (op instr) "CONST" && strict_eq (arg 1 instr) tempVar)
       (rev (firstn currentIndex ir)).

(** The [switch] over the binary operations on two numbers. *)
Definition foldBinary (o : string) (val1 val2 : float) : Value :=
  if String.eqb o "ADD" then VNum (val1 + val2)
  else if String.eqb o "SUB" then VNum (val1 - val2)
  else if String.eqb o "MUL" then VNum (val1 * val2)
  else if String.eqb o "DIV" then VNum (val1 / val2)
  else if String.eqb o "EQ" then VBool (PrimFloat.eqb val1 val2)
  else if String.eqb o "NEQ" then VBool (negb (PrimFloat.eqb val1 val2))
  else if String.eqb o "LT" then VBool (PrimFloat.ltb val1 val2)
  else if String.eqb o "LTE" then VBool (PrimFloat.leb val1 val2)
  else if String.eqb o "GT" then VBool (PrimFloat.ltb val2 val1)
  else if String.eqb o "GTE" then VBool (PrimFloat.leb val2 val1)
  else VUndef.

(** [-val] and [!val] on a number or a boolean. *)
Definition foldUnary (o : string) (val : Value) : Value :=
  if String.eqb o "NEG" then
    match val with
    | VNum x => VNum (- x)
    | VBool true => VNum (-1)
    | _ => VNum (-0)
    end
  else if String.eqb o "NOT" then VBool (negb (truthy val))
  else VUndef.

(** The binary case of the loop body: the folded instruction, if both
    operands have a previous numeric CONST. *)
Definition foldedBinary (ir : list IRInstruction) (i : nat) (instr : IRInstruction)
    : option IRInstruction :=
  if includes binaryOps (op instr) then
    match findPreviousConstInstr ir i (arg 0 instr),
          findPreviousConstInstr ir i (arg 1 instr) with
    | Some prevInstr1, Some prevInstr2 =>
        match arg 0 prevInstr1, arg 0 prevInstr2 with
        | VNum val1, VNum val2 =>
            Some (mkInstr "CONST" [foldBinary (op instr) val1 val2; arg 2 instr])
        | _, _ => None
        end
    | _, _ => None
    end
  else None.

(** The unary case of the loop body. *)
Definition foldedUnary (ir : list IRInstruction) (i : nat) (instr : IRInstruction)
    : option IRInstruction :=
  if includes ["NEG"; "NOT"] (op instr) then
    match findPreviousConstInstr ir i (arg 0 instr) with
    | Some prevInstr =>
        match arg 0 prevInstr with
        | VNum _ | VBool _ =>
            Some (mkInstr "CONST" [foldUnary (op instr) (arg 0 prevInstr); arg 1 instr])
        | _ => None
        end
    | None => None
    end
  else None.

(** The loop of [constantFolding] from index [i] on; [rest] is
    [ir[i..]]. *)
Fixpoint constantFoldingLoop (ir : list IRInstruction) (i : nat)
    (rest result : list IRInstruction) (changed : bool)
    : list IRInstruction * bool :=
  match rest with
  | [] => (result, changed)
  | instr :: rest' =>
      match foldedBinary ir i instr with
      | Some folded => constantFoldingLoop ir (S i) rest' (result ++ [folded]) true
      | None =>
          match foldedUnary ir i instr with
          | Some folded => constantFoldingLoop ir (S i) rest' (result ++ [folded]) true
          | None => constantFoldingLoop ir (S i) rest' (result ++ [instr]) changed
          end
      end
  end.

Definition constantFolding (ir : list IRInstruction) : list IRInstruction * bool :=
  constantFoldingLoop ir 0 ir [] false.

(** *** Dead code elimination *)

Definition isJump (o : string) : bool :=
  includes ["JUMP"; "JUMP_IF_TRUE"; "JUMP_IF_FALSE"] o.

(** [instr.args[instr.op === "JUMP" ? 0 : 1]]. *)
Definition jumpTarget (instr : IRInstruction) : Value :=
  arg (if String.eqb (op instr) "JUMP" then 0 else 1) instr.

(** First pass, started with the keys [jumps] of the [jumps] map (the
    [labels] set it also fills is never read). *)
Definition collectJumps (ir : list IRInstruction) (jumps : list Value) : list Value :=
  fold_left
    (fun jumps instr =>
       if String.eqb (op instr) "LABEL" then jumps
       else if isJump (op instr) then
         if existsb (fun k => same_value_zero k (jumpTarget instr)) jumps then jumps
         else (jumps ++ [jumpTarget instr])%list
       else jumps)
    ir jumps.

Definition jumpTargets (ir : list IRInstruction) : list Value := collectJumps ir [].

Definition hasJump (jumps : list Value) (label : Value) : bool :=
  existsb (fun k => same_value_zero k label) jumps.

(** [typeof arg === 'string' && arg.startsWith('t')]. *)
Definition isTempName (v : Value) : bool :=
  match v with
  | VStr s => startsWith s "t"
  | _ => false
  end.

Definition isStoreOrConst (instr : IRInstruction) : bool :=
  String.eqb (op instr) "STORE" || String.eqb (op instr) "CONST".

(** Second pass: the [usedVars] set. *)
Definition usedVars (ir : list IRInstruction) : list string :=
  fold_left
    (fun used instr =>
       if negb (isStoreOrConst instr) then
         fold_left
           (fun used a =>
              match a with
              | VStr s =>
                  if startsWith s "t" && negb (includes used s)
                  then (used ++ [s])%list else used
              | _ => used
              end)
           (args instr) used
       else used)
    ir [].

Definition hasUsed (used : list string) (v : Value) : bool :=
  match v with
  | VStr s => includes used s
  | _ => false
  end.

(** The test of the third loop: is the instruction skipped? *)
Definition isDead (used : list string) (jumps : list Value) (instr : IRInstruction)
    : bool :=
  (isStoreOrConst instr
   && isTempName (arg 1 instr) && negb (hasUsed used (arg 1 instr)))
  || (String.eqb (op instr) "LABEL" && negb (hasJump jumps (arg 0 instr))).

Fixpoint eliminationLoop (used : list string) (jumps : list Value)
    (rest result : list IRInstruction) (changed : bool)
    : list IRInstruction * bool :=
  match rest with
  | [] => (result, changed)
  | instr :: rest' =>
      if isDead used jumps instr
      then eliminationLoop used jumps rest' result true
      else eliminationLoop used jumps rest' (result ++ [instr]) changed
  end.

Definition deadCodeElimination (ir : list IRInstruction) : list IRInstruction * bool :=
  eliminationLoop (usedVars ir) (jumpTargets ir) ir [] false.

(** *** Constant propagation *)

(** The [if / else if] chain that tracks constants: the map after the
    instruction, and the CONST that replaces a LOAD of a known name. *)
Definition track (instr : IRInstruction) (constants : ValueMap)
    : ValueMap * option IRInstruction :=
  if String.eqb (op instr) "CONST" then
    (mapSet (arg 1 instr) (arg 0 instr) constants, None)
  else if String.eqb (op instr) "STORE" then
    match arg 0 instr with
    | VStr s =>
        if mapHas (VStr s) constants
        then (mapSet (arg 1 instr) (mapGetOr (VStr s) constants) constants, None)
        else (mapDelete (arg 1 instr) constants, None)
    | _ => (mapDelete (arg 1 instr) constants, None)
    end
  else if String.eqb (op instr) "LOAD" then
    if mapHas (arg 0 instr) constants
    then (constants,
          Some (mkInstr "CONST" [mapGetOr (arg 0 instr) constants; arg 1 instr]))
    else (constants, None)
  else if includes ["BLOCK_START"; "FUNCTION_START"] (op instr) then ([], None)
  else (constants, None).

(** [typeof arg === 'string' && constants.has(arg)]. *)
Definition isKnown (constants : ValueMap) (a : Value) : bool :=
  match a with
  | VStr _ => mapHas a constants
  | _ => false
  end.

(** The callback of [instr.args.map]. *)
Definition substitute (constants : ValueMap) (a : Value) : Value :=
  if isKnown constants a then mapGetOr a constants else a.

Fixpoint constantPropagationLoop (rest : list IRInstruction) (constants : ValueMap)
    (result : list IRInstruction) (changed : bool) : list IRInstruction * bool :=
  match rest with
  | [] => (result, changed)
  | instr :: rest' =>
      match track instr constants with
      | (constants', Some replaced) =>
          constantPropagationLoop rest' constants' (result ++ [replaced]) true
      | (constants', None) =>
          if existsb (isKnown constants') (args instr) then
            constantPropagationLoop rest' constants'
              (result ++ [mkInstr (op instr) (map (substitute constants') (args instr))])
              true
          else constantPropagationLoop rest' constants' (result ++ [instr]) changed
      end
  end.

Definition constantPropagation (ir : list IRInstruction) : list IRInstruction * bool :=
  constantPropagationLoop ir [] [] false.

(** *** Common subexpression elimination *)

(** The [expressions] map, keyed by the text of the expression. *)
Definition ExprMap : Type := list (string * Value).

Fixpoint exprGet (k : string) (m : ExprMap) : option Value :=
  match m with
  | [] => None
  | (k', v) :: rest => if String.eqb k' k then Some v else exprGet k rest
  end.

Fixpoint exprSet (k : string) (v : Value) (m : ExprMap) : ExprMap :=
  match m with
  | [] => [(k, v)]
  | (k', v') :: rest =>
      if String.eqb k' k then (k', v) :: rest else (k', v') :: exprSet k v rest
  end.

(** The template [op(arg0,arg1)]. *)
Definition exprKey (instr : IRInstruction) : string :=
  op instr ++ "(" ++ toString (arg 0 instr) ++ "," ++ toString (arg 1 instr) ++ ")".

Fixpoint eliminationOfSubexpressions (rest : list IRInstruction) (expressions : ExprMap)
    (result : list IRInstruction) (changed : bool) : list IRInstruction * bool :=
  match rest with
  | [] => (result, changed)
  | instr :: rest' =>
      if includes binaryOps (op instr) then
        match exprGet (exprKey instr) expressions with
        | Some previous =>
            eliminationOfSubexpressions rest' expressions
              (result ++ [mkInstr "COPY" [previous; arg 2 instr]]) true
        | None =>
            eliminationOfSubexpressions rest'
              (exprSet (exprKey instr) (arg 2 instr) expressions)
              (result ++ [instr]) changed
        end
      else if includes ["STORE"; "CALL"; "FUNCTION_START"; "BLOCK_START"] (op instr) then
        eliminationOfSubexpressions rest' [] (result ++ [instr]) changed
      else eliminationOfSubexpressions rest' expressions (result ++ [instr]) changed
  end.

Definition commonSubexpressionElimination (ir : list IRInstruction)
    : list IRInstruction * bool :=
  eliminationOfSubexpressions ir [] [] false.

(** *** The driver *)

Definition Pass : Type := list IRInstruction -> list IRInstruction * bool.

Definition passes : list Pass :=
  [constantFolding; deadCodeElimination; constantPropagation;
   commonSubexpressionElimination].

(** The [for (const pass of passes)] loop: one round over the list
    [optimized], and whether some pass reported a change. *)
Definition round (optimized : list IRInstruction) : list IRInstruction * bool :=
  fold_left
    (fun (acc : list IRInstruction * bool) (pass : Pass) =>
       let (optimized, changed) := acc in
       let (ir', passChanged) := pass optimized in
       if passChanged then (ir', true) else (optimized, changed))
    passes (optimized, false).

(** The [while (changed)] loop, at most [fuel] rounds: [None] when the
    last of them still reported a change. *)
Fixpoint optimizeLoop (fuel : nat) (optimized : list IRInstruction)
    : option (list IRInstruction) :=
  match fuel with
  | O => None
  | S fuel' =>
      let (optimized', changed) := round optimized in
      if changed then optimizeLoop fuel' optimized' else Some optimized'
  end.

Definition optimize (fuel : nat) (ir : list IRInstruction)
    : option (list IRInstruction) :=
  optimizeLoop fuel ir.

(** [optimize(ir)] never returns: every bound on the number of rounds
    is exceeded. *)
Definition diverges (ir : list IRInstruction) : Prop :=
  forall fuel, optimize fuel ir = None.

(** The [constants] map of [constantPropagation] when its loop has
    processed the instructions [before]. *)
Definition constantsAfter (before : list IRInstruction) : ValueMap :=
  fold_left (fun constants instr => fst (track instr constants)) before [].

(** The inner loop of the second pass of dead code elimination, on
    the operands of one instruction. *)
Definition markArgs (used : list string) (a : list Value) : list string :=
  fold_left
    (fun used a =>
       match a with
       | VStr s =>
           if startsWith s "t" && negb (includes used s)
           then (used ++ [s])%list else used
       | _ => used
       end) a used.

(** What the flag of a loop says about its output [result ++ mid],
    where the loop started with [changed] and the instructions [rest]:
    the flag is unset only if it was unset and nothing was replaced,
    and it is set only if it was set or something was replaced. *)
Definition honest (rest result : list IRInstruction) (changed : bool)
    (out : list IRInstruction * bool) : Prop :=
  exists mid,
    fst out = (result ++ mid)%list
    /\ (snd out = false -> changed = false /\ mid = rest)
    /\ (snd out = true -> changed = true \/ mid <> rest).

End Optimizer.

(* ================================================================= *)
(** ** Code generator *)

Module CodeGenerator.
Import JS.

Definition IRInstruction := IRGenerator.IRInstruction.
Definition op := IRGenerator.op.
Definition arg := Optimizer.arg.

(** What [generate] can throw: the class's own error, or the engine's
    RangeError ([repeat] with a negative count) and TypeError ([join]
    on a value that is not an array). *)
Inductive Error : Type :=
| CodeGenerationError (message : string) (instruction : IRInstruction)
| RangeError
| TypeError.

(** The fields of a [CodeGenerator] instance that are read ([variables]
    is only ever cleared). *)
Record t : Type := mk { output : list string; indentLevel : Z }.

Inductive Result (A : Type) : Type :=
| Ok (a : A) (st : t)
| Throw (e : Error).
Arguments Ok {A} a st.
Arguments Throw {A} e.

Definition M (A : Type) : Type := t -> Result A.

Definition bind {A B} (m : M A) (k : A -> M B) : M B :=
  fun st =>
    match m st with
    | Ok a st' => k a st'
    | Throw e => Throw e
    end.

Definition throw {A} (e : Error) : M A := fun _ => Throw e.

Declare Scope codegen_scope.
Delimit Scope codegen_scope with codegen.
Notation "m ;;; k" := (bind m (fun _ => k))
  (at level 61, right associativity) : codegen_scope.
Open Scope codegen_scope.

Definition emitLine (line : string) (extraIndent : Z) : M unit :=
  fun st =>
    let count := (indentLevel st + extraIndent)%Z in
    if (count <? 0)%Z then Throw RangeError
    else
      Ok tt (mk (output st ++ [repeat_string "  " (Z.to_nat count) ++ line])
                (indentLevel st)).

Definition indent (delta : Z) : M unit :=
  fun st => Ok tt (mk (output st) (indentLevel st + delta)).

Definition dquote : string := String Lexer.quote "".

Definition formatValue (value : Value) : string :=
  match value with
  | VNull => "null"
  | VUndef => "undefined"
  | VStr s => dquote ++ s ++ dquote
  | _ => toString value
  end.

(** [instr.args[1].join(", ")] inside a line built by [line]. *)
Definition withJoined (instr : IRInstruction) (line : string -> string) : M unit :=
  match arg 1 instr with
  | VArr l => emitLine (line (join ", " l)) 0
  | _ => throw TypeError
  end.

(** The text of a binary operation. *)
Definition binaryLine (instr : IRInstruction) (symbol : string) : M unit :=
  emitLine ("let " ++ toString (arg 2 instr) ++ " = " ++ toString (arg 0 instr)
            ++ " " ++ symbol ++ " " ++ toString (arg 1 instr) ++ ";") 0.

Definition callLine (instr : IRInstruction) : M unit :=
  if truthy (arg 2 instr) then
    withJoined instr (fun joined =>
      "let " ++ toString (arg 2 instr) ++ " = " ++ toString (arg 0 instr)
      ++ "(" ++ joined ++ ");")
  else
    withJoined instr (fun joined => toString (arg 0 instr) ++ "(" ++ joined ++ ");").

Definition processInstruction (instr : IRInstruction) : M unit :=
  let o := op instr in
  let a0 := toString (arg 0 instr) in
  let a1 := toString (arg 1 instr) in
  let a2 := toString (arg 2 instr) in
  if String.eqb o "FUNCTION_START" then
    withJoined instr (fun joined => "function " ++ a0 ++ "(" ++ joined ++ ") {") ;;;
    indent 1
  else if String.eqb o "FUNCTION_END" then
    indent (-1) ;;; emitLine "}" 0 ;;; emitLine "" 0
  else if String.eqb o "BLOCK_START" then
    emitLine "{" 0 ;;; indent 1
  else if String.eqb o "BLOCK_END" then
    indent (-1) ;;; emitLine "}" 0
  else if String.eqb o "DECLARE" then emitLine ("let " ++ a0 ++ ";") 0
  else if String.eqb o "CONST" then
    emitLine ("let " ++ a1 ++ " = " ++ formatValue (arg 0 instr) ++ ";") 0
  else if String.eqb o "LOAD" then emitLine ("let " ++ a1 ++ " = " ++ a0 ++ ";") 0
  else if String.eqb o "STORE" then emitLine (a1 ++ " = " ++ a0 ++ ";") 0
  else if String.eqb o "LOAD_PROP" then
    emitLine ("let " ++ a2 ++ " = " ++ a0 ++ "." ++ a1 ++ ";") 0
  else if String.eqb o "STORE_PROP" then
    emitLine (a0 ++ "." ++ a1 ++ " = " ++ a2 ++ ";") 0
  else if String.eqb o "ADD" then binaryLine instr "+"
  else if String.eqb o "SUB" then binaryLine instr "-"
  else if String.eqb o "MUL" then binaryLine instr "*"
  else if String.eqb o "DIV" then binaryLine instr "/"
  else if String.eqb o "NEG" then emitLine ("let " ++ a1 ++ " = -" ++ a0 ++ ";") 0
  else if String.eqb o "NOT" then emitLine ("let " ++ a1 ++ " = !" ++ a0 ++ ";") 0
  else if String.eqb o "EQ" then binaryLine instr "==="
  else if String.eqb o "NEQ" then binaryLine instr "!=="
  else if String.eqb o "LT" then binaryLine instr "<"
  else if String.eqb o "LTE" then binaryLine instr "<="
  else if String.eqb o "GT" then binaryLine instr ">"
  else if String.eqb o "GTE" then binaryLine instr ">="
  else if String.eqb o "COPY" then emitLine ("let " ++ a1 ++ " = " ++ a0 ++ ";") 0
  else if String.eqb o "LABEL" then emitLine (a0 ++ ":") 0
  else if String.eqb o "JUMP" then emitLine ("goto " ++ a0 ++ ";") 0
  else if String.eqb o "JUMP_IF_TRUE" then
    emitLine ("if (" ++ a0 ++ ") goto " ++ a1 ++ ";") 0
  else if String.eqb o "JUMP_IF_FALSE" then
    emitLine ("if (!" ++ a0 ++ ") goto " ++ a1 ++ ";") 0
  else if String.eqb o "CALL" then callLine instr
  else if String.eqb o "CALL_INDIRECT" then callLine instr
  else if String.eqb o "RETURN" then
    if (0 <? List.length (IRGenerator.args instr))%nat
    then emitLine ("return " ++ a0 ++ ";") 0
    else emitLine "return;" 0
  else throw (CodeGenerationError ("Unknown instruction: " ++ o) instr).

Fixpoint processAll (ir : list IRInstruction) : M unit :=
  match ir with
  | [] => fun st => Ok tt st
  | instr :: rest => processInstruction instr ;;; processAll rest
  end.

Definition preamble : M unit :=
  emitLine "// Generated JavaScript code" 0 ;;;
  emitLine "// This is a simplified target language" 0 ;;;
  emitLine "" 0 ;;;
  emitLine "// Runtime functions" 0 ;;;
  emitLine "function printValue(value) {" 0 ;;;
  emitLine "  console.log(value);" 1 ;;;
  emitLine "}" 0 ;;;
  emitLine "" 0.

(** What [generate(ir)] does: it returns the text or throws. *)
Inductive Outcome : Type :=
| Generated (code : string)
| Failed (e : Error).

(** [generate(ir)]: the fields are reset first. *)
Definition generate (ir : list IRInstruction) : Outcome :=
  match (preamble ;;; processAll ir) (mk [] 0) with
  | Ok _ st => Generated (join (String Lexer.newline "") (output st))
  | Throw e => Failed e
  end.

Close Scope codegen_scope.

End CodeGenerator.

(* ================================================================= *)
(** ** Compiler *)

Module Compiler.
Import JS.

(** An element of [CompilationResult.errors]; an absent [line] or
    [column] is [None]. *)
Record Diagnostic : Type := mkDiagnostic
  { phase : string; message : string; line : option Z; column : option Z }.

Record CompilationResult : Type := mkResult
  { success : bool;
    tokens : option (list Lexer.Token);
    ast : option Parser.ASTNode;
    ir : option (list IRGenerator.IRInstruction);
    optimizedIr : option (list IRGenerator.IRInstruction);
    code : option string;
    errors : list Diagnostic }.

(** A [Compiler] instance.  Of its six components only the semantic
    analyzer carries fields from one [compile] call into the next: the
    lexer and the parser are created anew by each call, the generators
    reset their fields when they start, and the optimizer has none.
    What the analyzer has written to [Object.prototype] is carried
    with it. *)
Record t : Type := mk { semanticAnalyzer : SemanticAnalyzer.t }.

(** [new Compiler()]. *)
Definition new : t := mk SemanticAnalyzer.new.

(** The diagnostic the [catch] block records.  The message of an error
    raised by the engine is the engine's own: for the parser and the
    code generator the model records the name of its class, for the
    analyzer the message of V8. *)
Definition lexicalDiagnostic (e : Lexer.LexicalError) : Diagnostic :=
  match e with
  | Lexer.mkLexicalError m l c => mkDiagnostic "Lexical Analysis" m (Some l) (Some c)
  end.

Definition syntaxDiagnostic (e : Parser.Error) : Diagnostic :=
  match e with
  | Parser.SyntaxError m token =>
      mkDiagnostic "Syntax Analysis" m (Some (Lexer.line token)) (Some (Lexer.column token))
  | Parser.TypeError => mkDiagnostic "Unknown" "TypeError" None None
  end.

Definition semanticDiagnostic (e : SemanticAnalyzer.SemanticError) : Diagnostic :=
  mkDiagnostic "Semantic Analysis" (SemanticAnalyzer.message e) None None.

Definition analysisDiagnostic (e : SemanticAnalyzer.Error) : Diagnostic :=
  match e with
  | SemanticAnalyzer.TypeError m => mkDiagnostic "Unknown" m None None
  end.

Definition irDiagnostic (e : IRGenerator.IRGenerationError) : Diagnostic :=
  match e with
  | IRGenerator.mkIRGenerationError m _ => mkDiagnostic "IR Generation" m None None
  end.

Definition codeDiagnostic (e : CodeGenerator.Error) : Diagnostic :=
  match e with
  | CodeGenerator.CodeGenerationError m _ => mkDiagnostic "Code Generation" m None None
  | CodeGenerator.RangeError => mkDiagnostic "Unknown" "RangeError" None None
  | CodeGenerator.TypeError => mkDiagnostic "Unknown" "TypeError" None None
  end.

(** [compile(source)] on the instance [c]: the result and the instance
    after the call.  [fuel] bounds the recursion of the parser and the
    rounds of the optimizer; the answer is [None] when either bound is
    reached, and for the optimizer that is the case at every bound when
    its loop does not end. *)
Definition compile (fuel : nat) (source : string) (c : t)
    : option (CompilationResult * t) :=
  match Lexer.tokenize source with
  | Lexer.Throw e =>
      Some (mkResult false None None None None None [lexicalDiagnostic e], c)
  | Lexer.Ok tokens =>
      match Parser.parse fuel tokens with
      | Parser.OutOfFuel => None
      | Parser.Throw e _ =>
          Some (mkResult false (Some tokens) None None None None [syntaxDiagnostic e], c)
      | Parser.Ok ast _ =>
          match SemanticAnalyzer.analyze ast (semanticAnalyzer c) with
          | SemanticAnalyzer.Throws e analyzer =>
              Some (mkResult false (Some tokens) (Some ast) None None None
                      [analysisDiagnostic e], mk analyzer)
          | SemanticAnalyzer.Returns semanticErrors analyzer =>
              let c' := mk analyzer in
              if (0 <? List.length semanticErrors)%nat then
                Some (mkResult false (Some tokens) (Some ast) None None None
                        (map semanticDiagnostic semanticErrors), c')
              else
                match IRGenerator.generate ast with
                | IRGenerator.Failed e =>
                    Some (mkResult false (Some tokens) (Some ast) None None None
                            [irDiagnostic e], c')
                | IRGenerator.Generated ir =>
                    match Optimizer.optimize fuel ir with
                    | None => None
                    | Some optimizedIr =>
                        match CodeGenerator.generate optimizedIr with
                        | CodeGenerator.Failed e =>
                            Some (mkResult false (Some tokens) (Some ast) (Some ir)
                                    (Some optimizedIr) None [codeDiagnostic e], c')
                        | CodeGenerator.Generated code =>
                            Some (mkResult true (Some tokens) (Some ast) (Some ir)
                                    (Some optimizedIr) (Some code) [], c')
                        end
                    end
                end
          end
      end
  end.

End Compiler.

(* ================================================================= *)
(** ** The instruction lists that pass from phase to phase *)

Module Pipeline.
Import JS CodeGenerator.

(** The operations with a case in the switch of [processInstruction],
    in its order. *)
Definition knownOps : list string :=
  ["FUNCTION_START"; "FUNCTION_END"; "BLOCK_START"; "BLOCK_END"; "DECLARE"; "CONST";
   "LOAD"; "STORE"; "LOAD_PROP"; "STORE_PROP"; "ADD"; "SUB"; "MUL"; "DIV"; "NEG"; "NOT";
   "EQ"; "NEQ"; "LT"; "LTE"; "GT"; "GTE"; "COPY"; "LABEL"; "JUMP"; "JUMP_IF_TRUE";
   "JUMP_IF_FALSE"; "CALL"; "CALL_INDIRECT"; "RETURN"].

Definition isArray (v : Value) : bool :=
  match v with VArr _ => true | _ => false end.

(** The indentation level [processInstruction] leaves when it starts
    at [level]; [None] where it throws: on an unknown operation, on a
    FUNCTION_START, CALL or CALL_INDIRECT whose second operand is not
    an array, and where the line to emit would be indented by a
    negative amount. *)
Definition levelAfter (instr : IRInstruction) (level : Z) : option Z :=
  let o := op instr in
  if negb (Optimizer.includes knownOps o) then None
  else if Optimizer.includes ["FUNCTION_START"; "CALL"; "CALL_INDIRECT"] o
          && negb (isArray (arg 1 instr)) then None
  else if Optimizer.includes ["FUNCTION_END"; "BLOCK_END"] o then
    if (level - 1 <? 0)%Z then None else Some (level - 1)%Z
  else if (level <? 0)%Z then None
  else if Optimizer.includes ["FUNCTION_START"; "BLOCK_START"] o then Some (level + 1)%Z
  else Some level.

Fixpoint levelsAfter (ir : list IRInstruction) (level : Z) : option Z :=
  match ir with
  | [] => Some level
  | instr :: rest =>
      match levelAfter instr level with
      | Some level' => levelsAfter rest level'
      | None => None
      end
  end.

(** From every level that is not negative, the code generator
    accepts [ir] and is back at that level after it. *)
Definition balanced (ir : list IRInstruction) : Prop :=
  forall level, (0 <= level)%Z -> levelsAfter ir level = Some level.

(** The instructions [m] appends to those emitted so far are
    balanced. *)
Definition emitsBalanced {A} (m : IRGenerator.M A) : Prop :=
  forall st,
    match m st with
    | IRGenerator.Ok _ st' =>
        exists new,
          IRGenerator.instructions st' = (IRGenerator.instructions st ++ new)%list
          /\ balanced new
    | IRGenerator.Throw _ _ => True
    end.
(** The operations whose case emits one line at the current level. *)
Definition plainOps : list string :=
  ["DECLARE"; "CONST"; "LOAD"; "STORE"; "LOAD_PROP"; "STORE_PROP"; "ADD"; "SUB"; "MUL";
   "DIV"; "NEG"; "NOT"; "EQ"; "NEQ"; "LT"; "LTE"; "GT"; "GTE"; "COPY"; "LABEL"; "JUMP";
   "JUMP_IF_TRUE"; "JUMP_IF_FALSE"; "RETURN"].

Definition plain (instr : IRInstruction) : Prop :=
  forall level,
    levelAfter instr level = if (level <? 0)%Z then None else Some level.

End Pipeline.

(* ================================================================= *)
(** ** Inputs used in the statements below *)

Module Examples.
Import JS.

Definition instr := IRGenerator.mkInstr.

(** [CONST(2,t0), CONST(3,t1), ADD(t0,t1,t2)]. *)
Definition foldingInput : list IRGenerator.IRInstruction :=
  [instr "CONST" [VNum 2; VStr "t0"];
   instr "CONST" [VNum 3; VStr "t1"];
   instr "ADD" [VStr "t0"; VStr "t1"; VStr "t2"]].

(** [CONST(5,t2)]. *)
Definition foldedConst : IRGenerator.IRInstruction :=
  instr "CONST" [VNum 5; VStr "t2"].

(** The IR of [var x = 1;]. *)
Definition storeInput : list IRGenerator.IRInstruction :=
  [instr "CONST" [VNum 1; VStr "t0"];
   instr "STORE" [VStr "t0"; VStr "x"]].

(** The IR of [var total = 1;]. *)
Definition totalInput : list IRGenerator.IRInstruction :=
  [instr "CONST" [VNum 1; VStr "t0"];
   instr "STORE" [VStr "t0"; VStr "total"]].

(** [tokenize] followed by [parse]; [None] on a lexical error. *)
Definition parseSource (fuel : nat) (source : string)
    : option (Parser.Result Parser.ASTNode) :=
  match Lexer.tokenize source with
  | Lexer.Ok tokens => Some (Parser.parse fuel tokens)
  | Lexer.Throw _ => None
  end.

(** The messages [analyze] returns on a new analyzer for the parsed
    text; [None] also when it throws. *)
Definition analyzeSource (fuel : nat) (source : string) : option (list string) :=
  match parseSource fuel source with
  | Some (Parser.Ok ast _) =>
      match SemanticAnalyzer.analyze ast SemanticAnalyzer.new with
      | SemanticAnalyzer.Returns errors _ => Some (map SemanticAnalyzer.message errors)
      | SemanticAnalyzer.Throws _ _ => None
      end
  | _ => None
  end.

(** [generate] on the parsed text. *)
Definition generateSource (fuel : nat) (source : string)
    : option IRGenerator.Outcome :=
  match parseSource fuel source with
  | Some (Parser.Ok ast _) => Some (IRGenerator.generate ast)
  | _ => None
  end.

(** [success] and [errors] of a result of [compile]. *)
Definition report (r : option (Compiler.CompilationResult * Compiler.t))
    : option (bool * list Compiler.Diagnostic) :=
  option_map (fun rc => (Compiler.success (fst rc), Compiler.errors (fst rc))) r.

(** Two [compile] calls on one compiler instance: the result of the
    second. *)
Definition compileAgain (fuel : nat) (first second : string) (c : Compiler.t)
    : option (Compiler.CompilationResult * Compiler.t) :=
  match Compiler.compile fuel first c with
  | Some (_, c') => Compiler.compile fuel second c'
  | None => None
  end.

(** The tokens and the tree of [var x; var x;]. *)
Definition duplicateTokens : list Lexer.Token :=
  [Lexer.mkToken "VAR" "var" 1 1; Lexer.mkToken "IDENTIFIER" "x" 1 5;
   Lexer.mkToken "SEMICOLON" ";" 1 6; Lexer.mkToken "VAR" "var" 1 8;
   Lexer.mkToken "IDENTIFIER" "x" 1 12; Lexer.mkToken "SEMICOLON" ";" 1 13;
   Lexer.mkToken "EOF" "" 1 14].

Definition duplicateAst : Parser.ASTNode :=
  Parser.Program
    [Parser.VariableDeclaration "x" None; Parser.VariableDeclaration "x" None].

Definition duplicateError : SemanticAnalyzer.SemanticError :=
  SemanticAnalyzer.mkSemanticError "Variable 'x' already declared in this scope"
    (Parser.VariableDeclaration "x" None).

(** The analyzer after [var x; var x;]. *)
Definition duplicateAnalyzer : SemanticAnalyzer.t :=
  SemanticAnalyzer.mk [SemanticAnalyzer.empty]
    (SemanticAnalyzer.mkTable
       [("x", SemanticAnalyzer.mkSymbol "variable" false false)] None)
    [duplicateError] SemanticAnalyzer.pristine.

(** [1 op 2]. *)
Definition oneTwo (operator : string) : Parser.ASTNode :=
  Parser.BinaryExpression operator (Parser.Literal (VNum 1)) (Parser.Literal (VNum 2)).

(** The one-line program that returns the string literal [a]. *)
Definition stringReturnSource : string :=
  "return " ++ CodeGenerator.dquote ++ "a" ++ CodeGenerator.dquote ++ ";".

Definition stringReturnTokens : list Lexer.Token :=
  [Lexer.mkToken "RETURN" "return" 1 1; Lexer.mkToken "STRING" "a" 1 10;
   Lexer.mkToken "SEMICOLON" ";" 1 11; Lexer.mkToken "EOF" "" 1 12].

Definition stringReturnAst : Parser.ASTNode :=
  Parser.Program [Parser.ReturnStatement (Some (Parser.Literal (VStr "a")))].

(** Its IR: [CONST("a",t0), RETURN(t0)]. *)
Definition stringReturnIR : list IRGenerator.IRInstruction :=
  [instr "CONST" [VStr "a"; VStr "t0"];
   instr "RETURN" [VStr "t0"]].

(** What the first round of [optimize] makes of it. *)
Definition stringReturnStuck : list IRGenerator.IRInstruction :=
  [instr "CONST" [VStr "a"; VStr "a"];
   instr "RETURN" [VStr "a"]].

(** [CONST(1,t0), CONST("t0",t1)]. *)
Definition nameValuedInput : list IRGenerator.IRInstruction :=
  [instr "CONST" [VNum 1; VStr "t0"];
   instr "CONST" [VStr "t0"; VStr "t1"]].

(** The result of [compile] on [var x; var x;]. *)
Definition duplicateResult : Compiler.CompilationResult :=
  Compiler.mkResult false (Some duplicateTokens) (Some duplicateAst) None None None
    [Compiler.mkDiagnostic "Semantic Analysis"
       "Variable 'x' already declared in this scope" None None].

(** The tokens, the tree, the code and the result of [compile] for
    [var x = 1;], and the compiler after that call. *)
Definition declarationTokens : list Lexer.Token :=
  [Lexer.mkToken "VAR" "var" 1 1; Lexer.mkToken "IDENTIFIER" "x" 1 5;
   Lexer.mkToken "EQUAL" "=" 1 7; Lexer.mkToken "NUMBER" "1" 1 9;
   Lexer.mkToken "SEMICOLON" ";" 1 10; Lexer.mkToken "EOF" "" 1 11].

Definition declarationAst : Parser.ASTNode :=
  Parser.Program [Parser.VariableDeclaration "x" (Some (Parser.Literal (VNum 1)))].

Definition declarationCode : string :=
  JS.join (String Lexer.newline "")
    ["// Generated JavaScript code";
     "// This is a simplified target language";
     "";
     "// Runtime functions";
     "function printValue(value) {";
     "    console.log(value);";
     "}";
     "";
     "x = t0;"].

Definition declarationResult : Compiler.CompilationResult :=
  Compiler.mkResult true (Some declarationTokens) (Some declarationAst)
    (Some storeInput) (Some [instr "STORE" [VStr "t0"; VStr "x"]])
    (Some declarationCode) [].

Definition declarationCompiler : Compiler.t :=
  Compiler.mk
    (SemanticAnalyzer.mk [SemanticAnalyzer.empty]
       (SemanticAnalyzer.mkTable
          [("x", SemanticAnalyzer.mkSymbol "variable" true false)] None)
       [] SemanticAnalyzer.pristine).

End Examples.

(* ================================================================= *)
(** ** Properties of the optimizer *)

Section OptimizerFacts.
Import JS Optimizer Examples.

Lemma optimizeLoop_S (fuel : nat) (l : list IRInstruction) :
  optimizeLoop (S fuel) l =
    (let (optimized', changed) := round l in
     if changed then optimizeLoop fuel optimized' else Some optimized').
Proof. reflexivity. Qed.

(** A round that reports a change and returns its input keeps the loop
    running under every bound. *)
Lemma optimizeLoop_stuck (l : list IRInstruction) :
  round l = (l, true) -> forall fuel, optimizeLoop fuel l = None.
Proof.
  intros Hround fuel.
  induction fuel as [|fuel IH]; [reflexivity|].
  rewrite optimizeLoop_S, Hround. exact IH.
Qed.

(** A round in which no pass reports a change returns its input. *)
Lemma round_unchanged (l l' : list IRInstruction) :
  round l = (l', false) -> l' = l.
Proof.
  unfold round, passes. cbn [fold_left].
  destruct (constantFolding l) as [l1 [|]];
    [destruct (deadCodeElimination l1) as [l2 [|]]
    |destruct (deadCodeElimination l) as [l2 [|]]].
  all: repeat match goal with
         | |- context [let (_, _) := ?p ?x in _] =>
             let r := fresh "r" in let c := fresh "c" in
             destruct (p x) as [r [|]]
         end; intros H; inversion H; reflexivity.
Qed.

(** The list [optimize] returns is one on which a round changes
    nothing. *)
Lemma optimizeLoop_fixpoint (fuel : nat) :
  forall l r, optimizeLoop fuel l = Some r -> round r = (r, false).
Proof.
  induction fuel as [|fuel IH]; intros l r H; [discriminate|].
  rewrite optimizeLoop_S in H.
  destruct (round l) as [l' [|]] eqn:Hround.
  - exact (IH _ _ H).
  - injection H as <-.
    rewrite (round_unchanged _ _ Hround) in Hround |- *. exact Hround.
Qed.

Lemma round_foldingInput : round foldingInput = ([], true).
Proof. vm_compute. reflexivity. Qed.

Lemma round_nil : round [] = ([], false).
Proof. vm_compute. reflexivity. Qed.

Lemma optimize_foldingInput (fuel : nat) :
  optimize (2 + fuel) foldingInput = Some [].
Proof.
  unfold optimize. cbn [Nat.add].
  rewrite optimizeLoop_S, round_foldingInput.
  rewrite optimizeLoop_S, round_nil. reflexivity.
Qed.

Lemma round_stringReturnIR : round stringReturnIR = (stringReturnStuck, true).
Proof. vm_compute. reflexivity. Qed.

Lemma round_stringReturnStuck : round stringReturnStuck = (stringReturnStuck, true).
Proof. vm_compute. reflexivity. Qed.

Lemma stringReturnIR_diverges (fuel : nat) : optimize fuel stringReturnIR = None.
Proof.
  unfold optimize. destruct fuel as [|fuel]; [reflexivity|].
  rewrite optimizeLoop_S, round_stringReturnIR.
  apply optimizeLoop_stuck, round_stringReturnStuck.
Qed.

End OptimizerFacts.

Section ConstantPropagationFacts.
Import JS Optimizer Examples.

(** The output of the loop starts with the instructions accumulated so
    far, whatever the flag. *)
Lemma constantPropagationLoop_result (rest : list IRInstruction) :
  forall constants result changed,
    fst (constantPropagationLoop rest constants result changed) =
    (result ++ fst (constantPropagationLoop rest constants [] false))%list.
Proof.
  induction rest as [|i rest IH]; intros constants result changed; cbn [constantPropagationLoop].
  - cbn. now rewrite app_nil_r.
  - destruct (track i constants) as [constants' [replaced|]].
    + rewrite IH. rewrite (IH _ ([] ++ _)%list). now rewrite <- app_assoc.
    + destruct (existsb (isKnown constants') (args i)).
      * rewrite IH. rewrite (IH _ ([] ++ _)%list). now rewrite <- app_assoc.
      * rewrite IH. rewrite (IH _ ([] ++ _)%list). now rewrite <- app_assoc.
Qed.

(** The pass emits one instruction for each one it reads. *)
Lemma constantPropagationLoop_length (rest : list IRInstruction) :
  forall constants,
    List.length (fst (constantPropagationLoop rest constants [] false)) = List.length rest.
Proof.
  induction rest as [|i rest IH]; intros constants; cbn [constantPropagationLoop].
  - reflexivity.
  - destruct (track i constants) as [constants' [replaced|]];
      [|destruct (existsb (isKnown constants') (args i))];
      rewrite constantPropagationLoop_result, length_app, IH; reflexivity.
Qed.

(** The loop over [before ++ rest] is the loop over [before] followed
    by the loop over [rest] started with the map [before] leaves. *)
Lemma constantPropagationLoop_app (before : list IRInstruction) :
  forall rest constants result changed,
    fst (constantPropagationLoop (before ++ rest) constants result changed) =
    (result
     ++ fst (constantPropagationLoop before constants [] false)
     ++ fst (constantPropagationLoop rest
               (fold_left (fun c i => fst (track i c)) before constants) [] false))%list.
Proof.
  induction before as [|i before IH]; intros rest constants result changed.
  - cbn [app fold_left constantPropagationLoop fst].
    apply constantPropagationLoop_result.
  - cbn [app fold_left constantPropagationLoop].
    destruct (track i constants) as [constants' [replaced|]]; cbn [fst];
      [|destruct (existsb (isKnown constants') (args i))];
      rewrite IH, (constantPropagationLoop_result before _ [_]);
      cbn [app]; rewrite <- !app_assoc; reflexivity.
Qed.

(** The instruction the pass emits at the place of [i], which follows
    [before]: the head of the loop started at [i]. *)
Lemma constantPropagation_at (before after : list IRInstruction) (i : IRInstruction) :
  nth_error (fst (constantPropagation (before ++ i :: after))) (List.length before) =
  nth_error (fst (constantPropagationLoop (i :: after) (constantsAfter before) [] false)) 0.
Proof.
  unfold constantPropagation, constantsAfter.
  rewrite constantPropagationLoop_app. cbn [app].
  rewrite nth_error_app2;
    rewrite constantPropagationLoop_length; [|apply Nat.le_refl].
  now rewrite Nat.sub_diag.
Qed.

Lemma mapGet_mapSet_same (k v : Value) (m : ValueMap) :
  same_value_zero k k = true -> mapGet k (mapSet k v m) = Some v.
Proof.
  intros Hk. induction m as [|[k' v'] m IH]; cbn [mapSet mapGet].
  - now rewrite Hk.
  - destruct (same_value_zero k' k) eqn:E; cbn [mapGet]; rewrite E; [reflexivity|exact IH].
Qed.

Lemma same_value_zero_string (s : string) : same_value_zero (VStr s) (VStr s) = true.
Proof. cbn. apply String.eqb_refl. Qed.

(** A key equal to one string name is not equal to another. *)
Lemma same_value_zero_names (k : Value) (s d : string) :
  same_value_zero k (VStr d) = true ->
  same_value_zero k (VStr s) = String.eqb d s.
Proof.
  destruct k; cbn; try discriminate.
  intros H. apply String.eqb_eq in H. now subst.
Qed.

Lemma mapGet_mapSet_name (s d : string) (v : Value) (m : ValueMap) :
  mapGet (VStr s) (mapSet (VStr d) v m) =
  if String.eqb d s then Some v else mapGet (VStr s) m.
Proof.
  induction m as [|[k' v'] m IH]; cbn [mapSet mapGet].
  - cbn. reflexivity.
  - destruct (same_value_zero k' (VStr d)) eqn:E; cbn [mapGet].
    + rewrite (same_value_zero_names _ _ _ E).
      destruct (String.eqb d s); reflexivity.
    + destruct (same_value_zero k' (VStr s)) eqn:E'.
      * destruct (String.eqb d s) eqn:Eds; [|reflexivity].
        apply String.eqb_eq in Eds. subst. congruence.
      * exact IH.
Qed.

(** The value substituted for the destination of a CONST is the value
    just recorded for it. *)
Lemma substitute_recorded (t : string) (v : Value) (m : ValueMap) :
  substitute (mapSet (VStr t) v m) (VStr t) = v.
Proof.
  unfold substitute, isKnown, mapHas, mapGetOr.
  now rewrite (mapGet_mapSet_same _ _ _ (same_value_zero_string t)).
Qed.

(** A value that names no recorded constant is left as it is. *)
Lemma substitute_unrecorded (t : string) (v : Value) (m : ValueMap) :
  isKnown m v = false -> substitute (mapSet (VStr t) v m) v = v.
Proof.
  intros H. unfold substitute, isKnown, mapHas, mapGetOr in *.
  destruct v as [x|s|b| | |l]; try reflexivity.
  rewrite mapGet_mapSet_name.
  destruct (String.eqb t s); [reflexivity|].
  destruct (mapGet (VStr s) m); [discriminate|reflexivity].
Qed.

Lemma constantPropagation_const (before after : list IRInstruction)
    (v : Value) (t : string) :
  nth_error
    (fst (constantPropagation (before ++ instr "CONST" [v; VStr t] :: after)))
    (List.length before) =
  Some (instr "CONST"
          [substitute (mapSet (VStr t) v (constantsAfter before)) v; v]).
Proof.
  rewrite constantPropagation_at.
  cbn [constantPropagationLoop].
  change (track (instr "CONST" [v; VStr t]) (constantsAfter before))
    with (mapSet (VStr t) v (constantsAfter before), @None IRInstruction).
  cbv iota.
  change (args (instr "CONST" [v; VStr t])) with [v; VStr t].
  assert (Hknown : isKnown (mapSet (VStr t) v (constantsAfter before)) (VStr t) = true).
  { unfold isKnown, mapHas.
    now rewrite (mapGet_mapSet_same _ _ _ (same_value_zero_string t)). }
  cbn [existsb map]. rewrite Hknown. cbn [orb]. rewrite orb_true_r.
  rewrite constantPropagationLoop_result. cbn [app nth_error].
  rewrite substitute_recorded. reflexivity.
Qed.

Lemma constantPropagation_store (before after : list IRInstruction)
    (s d : string) (c : Value) :
  mapGet (VStr s) (constantsAfter before) = Some c ->
  nth_error
    (fst (constantPropagation (before ++ instr "STORE" [VStr s; VStr d] :: after)))
    (List.length before) =
  Some (instr "STORE" [c; c]).
Proof.
  intros Hs.
  rewrite constantPropagation_at.
  cbn [constantPropagationLoop].
  assert (Htrack : track (instr "STORE" [VStr s; VStr d]) (constantsAfter before)
                   = (mapSet (VStr d) c (constantsAfter before), None)).
  { unfold track. cbn. unfold mapHas, mapGetOr. now rewrite Hs. }
  rewrite Htrack.
  change (args (instr "STORE" [VStr s; VStr d])) with [VStr s; VStr d].
  assert (Hd : mapGet (VStr d) (mapSet (VStr d) c (constantsAfter before)) = Some c)
    by apply mapGet_mapSet_same, same_value_zero_string.
  assert (Hs' : mapGet (VStr s) (mapSet (VStr d) c (constantsAfter before)) = Some c).
  { rewrite mapGet_mapSet_name. now destruct (String.eqb d s). }
  cbn [existsb map]. unfold substitute, isKnown, mapHas, mapGetOr.
  rewrite Hd, Hs'. cbn [orb].
  rewrite constantPropagationLoop_result. reflexivity.
Qed.

End ConstantPropagationFacts.

(* ================================================================= *)
(** ** Further properties of the optimizer *)

Section OptimizerInvariants.
Import JS Optimizer Examples.

(** Where [optimize] returns, the list it returns is a fixpoint: a
    round on it changes nothing, and [optimize] maps it to itself. *)
Theorem optimize_result_is_fixpoint :
  forall fuel ir r,
    optimize fuel ir = Some r ->
    round r = (r, false) /\ forall fuel', optimize (S fuel') r = Some r.
Proof.
  intros fuel ir r H. unfold optimize in *.
  pose proof (optimizeLoop_fixpoint _ _ _ H) as Hr.
  split; [exact Hr|].
  intros fuel'. rewrite optimizeLoop_S, Hr. reflexivity.
Qed.

Lemma optimize_result_is_fixpoint_witness :
  optimize 2 storeInput = Some [instr "STORE" [VStr "t0"; VStr "x"]]
  /\ round [instr "STORE" [VStr "t0"; VStr "x"]]
     = ([instr "STORE" [VStr "t0"; VStr "x"]], false)
  /\ optimize 1 [instr "STORE" [VStr "t0"; VStr "x"]]
     = Some [instr "STORE" [VStr "t0"; VStr "x"]].
Proof.
  assert (H : optimize 2 storeInput = Some [instr "STORE" [VStr "t0"; VStr "x"]])
    by (vm_compute; reflexivity).
  split; [exact H|].
  split.
  - exact (proj1 (optimize_result_is_fixpoint 2 storeInput _ H)).
  - exact (proj2 (optimize_result_is_fixpoint 2 storeInput _ H) 0).
Defined.

Lemma constantFoldingLoop_length (ir rest : list IRInstruction) :
  forall i result changed,
    List.length (fst (constantFoldingLoop ir i rest result changed)) =
    List.length result + List.length rest.
Proof.
  induction rest as [|x rest IH]; intros i result changed; cbn [constantFoldingLoop].
  - cbn. now rewrite Nat.add_0_r.
  - destruct (foldedBinary ir i x); [|destruct (foldedUnary ir i x)];
      rewrite IH, length_app; cbn [List.length]; lia.
Qed.

Lemma eliminationLoop_length (used : list string) (jumps : list Value)
    (rest : list IRInstruction) :
  forall result changed,
    List.length (fst (eliminationLoop used jumps rest result changed)) <=
    List.length result + List.length rest.
Proof.
  induction rest as [|x rest IH]; intros result changed; cbn [eliminationLoop].
  - cbn. lia.
  - destruct (isDead used jumps x).
    + specialize (IH result true). cbn [List.length]. lia.
    + specialize (IH (result ++ [x])%list changed).
      rewrite length_app in IH. cbn [List.length] in *. lia.
Qed.

Lemma eliminationOfSubexpressions_length (rest : list IRInstruction) :
  forall expressions result changed,
    List.length (fst (eliminationOfSubexpressions rest expressions result changed)) =
    List.length result + List.length rest.
Proof.
  induction rest as [|x rest IH]; intros expressions result changed;
    cbn [eliminationOfSubexpressions].
  - cbn. now rewrite Nat.add_0_r.
  - destruct (includes binaryOps (op x));
      [destruct (exprGet (exprKey x) expressions)
      |destruct (includes ["STORE"; "CALL"; "FUNCTION_START"; "BLOCK_START"] (op x))];
      rewrite IH, length_app; cbn [List.length]; lia.
Qed.

(** Each of the four passes returns at most as many instructions as it
    was given. *)
Lemma pass_length (pass : Pass) :
  In pass passes -> forall ir, List.length (fst (pass ir)) <= List.length ir.
Proof.
  intros [<-|[<-|[<-|[<-|[]]]]] ir.
  - unfold constantFolding. rewrite constantFoldingLoop_length. cbn. lia.
  - unfold deadCodeElimination.
    etransitivity; [apply eliminationLoop_length|]. cbn. lia.
  - unfold constantPropagation. rewrite constantPropagationLoop_length. lia.
  - unfold commonSubexpressionElimination.
    rewrite eliminationOfSubexpressions_length. cbn. lia.
Qed.

Lemma round_length_from (ps : list Pass) :
  (forall pass, In pass ps -> forall ir, List.length (fst (pass ir)) <= List.length ir) ->
  forall n optimized changed,
    List.length optimized <= n ->
    List.length
      (fst (fold_left
              (fun (acc : list IRInstruction * bool) (pass : Pass) =>
                 let (optimized, changed) := acc in
                 let (ir', passChanged) := pass optimized in
                 if passChanged then (ir', true) else (optimized, changed))
              ps (optimized, changed))) <= n.
Proof.
  induction ps as [|pass ps IH]; intros Hps n optimized changed Hn; cbn [fold_left].
  - exact Hn.
  - pose proof (Hps pass (or_introl eq_refl) optimized) as Hpass.
    destruct (pass optimized) as [ir' [|]]; cbn [fst] in Hpass;
      apply IH; try (intros q Hq; apply Hps; now right); lia.
Qed.

(** The instruction count never grows: not in a pass, not in a round,
    and so not in what [optimize] returns. *)
Theorem optimize_never_grows_the_list :
  (forall ir,
      List.length (fst (constantFolding ir)) = List.length ir
      /\ List.length (fst (deadCodeElimination ir)) <= List.length ir
      /\ List.length (fst (constantPropagation ir)) = List.length ir
      /\ List.length (fst (commonSubexpressionElimination ir)) = List.length ir
      /\ List.length (fst (round ir)) <= List.length ir)
  /\ (forall fuel ir r, optimize fuel ir = Some r -> List.length r <= List.length ir).
Proof.
  assert (Hround : forall ir, List.length (fst (round ir)) <= List.length ir).
  { intros ir. unfold round. apply round_length_from; [exact pass_length|lia]. }
  split.
  - intros ir. repeat split.
    + unfold constantFolding. rewrite constantFoldingLoop_length. reflexivity.
    + apply (pass_length deadCodeElimination). cbn. auto.
    + unfold constantPropagation. apply constantPropagationLoop_length.
    + unfold commonSubexpressionElimination.
      rewrite eliminationOfSubexpressions_length. reflexivity.
    + apply Hround.
  - unfold optimize. induction fuel as [|fuel IH]; intros ir r H; [discriminate|].
    rewrite optimizeLoop_S in H. specialize (Hround ir).
    destruct (round ir) as [ir' [|]]; cbn [fst] in Hround.
    + specialize (IH _ _ H). lia.
    + injection H as <-. exact Hround.
Qed.

Lemma optimize_never_grows_the_list_witness :
  optimize 2 storeInput = Some [instr "STORE" [VStr "t0"; VStr "x"]]
  /\ List.length [instr "STORE" [VStr "t0"; VStr "x"]] <= List.length storeInput.
Proof.
  assert (H : optimize 2 storeInput = Some [instr "STORE" [VStr "t0"; VStr "x"]])
    by (vm_compute; reflexivity).
  split; [exact H|].
  exact (proj2 optimize_never_grows_the_list 2 storeInput _ H).
Defined.

Lemma isJump_not_label (o : string) : isJump o = true -> String.eqb o "LABEL" = false.
Proof.
  unfold isJump, includes. cbn [existsb]. rewrite !orb_true_iff.
  intros [H|[H|[H|H]]]; try discriminate H; apply String.eqb_eq in H; now subst.
Qed.

(** IEEE equality holds between two zeros and between a number and
    itself, never for NaN. *)
Lemma SFeqb_true (a b : spec_float) :
  SFeqb a b = true ->
  (exists s s', a = S754_zero s /\ b = S754_zero s') \/ (a = b /\ a <> S754_nan).
Proof.
  unfold SFeqb, SFcompare.
  destruct a as [s|s| |s m e], b as [s'|s'| |s' m' e']; try discriminate.
  all: try (destruct s); try (destruct s'); try discriminate.
  all: try (intros _; left; eauto; fail).
  all: try (intros _; right; split; [reflexivity|discriminate]).
  all: destruct (Z.compare_spec e e') as [->| |]; try discriminate;
    destruct (Pos.compare_cont Eq m m') eqn:E; try discriminate;
    apply Pos.compare_eq in E; subst m'; intros _; right;
    (split; [reflexivity|discriminate]).
Qed.

Lemma SFeqb_refl (a : spec_float) : a <> S754_nan -> SFeqb a a = true.
Proof.
  unfold SFeqb, SFcompare. destruct a as [s|s| |s m e]; try reflexivity.
  - now destruct s.
  - intros H. now contradiction H.
  - intros _. rewrite Z.compare_refl.
    change (Pos.compare_cont Eq m m) with (Pos.compare m m).
    rewrite Pos.compare_refl. now destruct s.
Qed.

Lemma SFeqb_zero (s s' : bool) : SFeqb (S754_zero s) (S754_zero s') = true.
Proof. reflexivity. Qed.

Lemma SFeqb_nan_l (a : spec_float) : SFeqb S754_nan a = false.
Proof. reflexivity. Qed.

Lemma SFeqb_nan_r (a : spec_float) : SFeqb a S754_nan = false.
Proof. now destruct a. Qed.

Lemma SFeqb_sym (a b : spec_float) : SFeqb a b = true -> SFeqb b a = true.
Proof.
  intros H. destruct (SFeqb_true _ _ H) as [[s [s' [-> ->]]]|[<- Hn]].
  - reflexivity.
  - exact H.
Qed.

Lemma SFeqb_trans (a b c : spec_float) :
  SFeqb a b = true -> SFeqb b c = true -> SFeqb a c = true.
Proof.
  intros H1 H2.
  destruct (SFeqb_true _ _ H1) as [[s [s' [-> ->]]]|[<- Hn]]; [|exact H2].
  destruct (SFeqb_true _ _ H2) as [[t [t' [_ ->]]]|[<- _]]; reflexivity.
Qed.

Lemma is_nan_spec (x : float) : is_nan x = true <-> Prim2SF x = S754_nan.
Proof.
  unfold is_nan. rewrite FloatAxioms.eqb_spec. split.
  - intros H. destruct (Prim2SF x) eqn:E; try reflexivity;
      rewrite SFeqb_refl in H by discriminate; discriminate H.
  - intros ->. reflexivity.
Qed.

Lemma same_value_zero_sym (a b : Value) :
  same_value_zero a b = true -> same_value_zero b a = true.
Proof.
  destruct a, b; cbn [same_value_zero strict_eq]; try discriminate;
    try (intros _; reflexivity).
  - rewrite !orb_true_iff, !andb_true_iff, !FloatAxioms.eqb_spec.
    intros [H|[H1 H2]]; [left; now apply SFeqb_sym|right; now split].
  - rewrite String.eqb_sym. auto.
  - now destruct b, b0.
Qed.

Lemma same_value_zero_trans (a b c : Value) :
  same_value_zero a b = true -> same_value_zero b c = true ->
  same_value_zero a c = true.
Proof.
  destruct a, b; cbn [same_value_zero strict_eq]; try discriminate;
    destruct c; cbn [same_value_zero strict_eq]; try discriminate; auto.
  - rewrite !orb_true_iff, !andb_true_iff, !FloatAxioms.eqb_spec, !is_nan_spec.
    intros [H1|[H1 H1']] [H2|[H2 H2']].
    + left. eapply SFeqb_trans; eassumption.
    + rewrite H2 in H1. now rewrite SFeqb_nan_r in H1.
    + rewrite H1' in H2. now rewrite SFeqb_nan_l in H2.
    + right. now split.
  - intros H1 H2. apply String.eqb_eq in H1, H2. subst. apply String.eqb_refl.
  - now destruct b, b0, b1.
Qed.

(** The keys of the [jumps] map after the first pass: those it had,
    and the targets of the jumps of the list. *)
Lemma collectJumps_spec (ir : list IRInstruction) (label : Value) :
  forall jumps,
    hasJump (collectJumps ir jumps) label = true
    <-> hasJump jumps label = true
        \/ exists jump,
             In jump ir /\ isJump (op jump) = true
             /\ same_value_zero (jumpTarget jump) label = true.
Proof.
  induction ir as [|x ir IH]; intros jumps.
  - cbn. split; [auto|]. intros [H|[jump [[] _]]]. exact H.
  - unfold collectJumps. cbn [fold_left]. fold (collectJumps ir).
    rewrite IH. clear IH.
    destruct (String.eqb (op x) "LABEL") eqn:El.
    { split; intros [H|[jump [Hin [Hj Ht]]]]; auto.
      - right. exists jump. split; [now right|auto].
      - destruct Hin as [->|Hin]; [|right; exists jump; auto].
        rewrite (isJump_not_label _ Hj) in El. discriminate El. }
    destruct (isJump (op x)) eqn:Ej.
    2:{ split; intros [H|[jump [Hin [Hj Ht]]]]; auto.
        - right. exists jump. split; [now right|auto].
        - destruct Hin as [->|Hin]; [|right; exists jump; auto].
          rewrite Hj in Ej. discriminate Ej. }
    destruct (existsb (fun k => same_value_zero k (jumpTarget x)) jumps) eqn:Ee.
    + split; intros [H|[jump [Hin [Hj Ht]]]]; auto.
      * right. exists jump. split; [now right|auto].
      * destruct Hin as [->|Hin]; [|right; exists jump; auto].
        left. unfold hasJump. apply existsb_exists in Ee as [k [Hk Hkt]].
        apply existsb_exists. exists k. split; [exact Hk|].
        eapply same_value_zero_trans; eassumption.
    + unfold hasJump at 1. rewrite existsb_app. cbn [existsb].
      rewrite orb_false_r, orb_true_iff. fold (hasJump jumps label).
      split.
      * intros [[H|H]|[jump [Hin [Hj Ht]]]]; auto.
        -- right. exists x. split; [now left|auto].
        -- right. exists jump. split; [now right|auto].
      * intros [H|[jump [Hin [Hj Ht]]]]; auto.
        destruct Hin as [->|Hin]; [auto|right; exists jump; auto].
Qed.

(** What the third loop returns: the instructions it had, then those
    of the rest that are not skipped. *)
Lemma eliminationLoop_spec (used : list string) (jumps : list Value)
    (rest : list IRInstruction) (x : IRInstruction) :
  forall result changed,
    In x (fst (eliminationLoop used jumps rest result changed))
    <-> In x result \/ (In x rest /\ isDead used jumps x = false).
Proof.
  induction rest as [|y rest IH]; intros result changed; cbn [eliminationLoop].
  - cbn. split; [auto|]. now intros [H|[[] _]].
  - destruct (isDead used jumps y) eqn:E; rewrite IH; clear IH.
    + split; intros [H|[H1 H2]]; auto.
      * right. split; [now right|exact H2].
      * destruct H1 as [->|H1]; [congruence|auto].
    + rewrite in_app_iff. cbn [In]. split.
      * intros [[H|[<-|[]]]|[H1 H2]];
          [now left | right; split; [now left|exact E]
          | right; split; [now right|exact H2]].
      * intros [H|[[->|H1] H2]]; auto.
Qed.

Lemma deadCodeElimination_spec (ir : list IRInstruction) (x : IRInstruction) :
  In x (fst (deadCodeElimination ir))
  <-> In x ir /\ isDead (usedVars ir) (jumpTargets ir) x = false.
Proof.
  unfold deadCodeElimination. rewrite eliminationLoop_spec. cbn [In]. tauto.
Qed.

(** Dead code elimination keeps every jump, and keeps a LABEL exactly
    when its name is the target of a JUMP, JUMP_IF_TRUE or
    JUMP_IF_FALSE of the list, names being compared as the keys of the
    [jumps] map are. *)
Theorem dead_code_elimination_keeps_jump_targets :
  forall ir,
    (forall jump,
        In jump ir -> isJump (op jump) = true ->
        In jump (fst (deadCodeElimination ir)))
    /\ (forall label,
          In label ir -> op label = "LABEL" ->
          (In label (fst (deadCodeElimination ir))
           <-> exists jump,
                 In jump ir /\ isJump (op jump) = true
                 /\ same_value_zero (jumpTarget jump) (arg 0 label) = true)).
Proof.
  intros ir. split.
  - intros jump Hin Hjump. apply deadCodeElimination_spec. split; [exact Hin|].
    unfold isDead, isStoreOrConst.
    rewrite (isJump_not_label _ Hjump).
    unfold isJump, includes in Hjump. cbn [existsb] in Hjump.
    rewrite !orb_true_iff in Hjump.
    destruct Hjump as [H|[H|[H|H]]]; try discriminate H;
      apply String.eqb_eq in H; rewrite H; reflexivity.
  - intros label Hin Hop. rewrite deadCodeElimination_spec.
    unfold isDead, isStoreOrConst, jumpTargets. rewrite Hop.
    cbn [String.eqb Ascii.eqb Bool.eqb orb andb].
    pose proof (collectJumps_spec ir (arg 0 label) []) as Hspec.
    destruct (hasJump (collectJumps ir []) (arg 0 label)) eqn:E; cbn [negb].
    + split; [|now split].
      intros _. destruct (proj1 Hspec eq_refl) as [H|H]; [discriminate H|exact H].
    + split; [now intros [_ H]|].
      intros H. assert (false = true) by (apply Hspec; now right). discriminate.
Qed.

Lemma dead_code_elimination_keeps_jump_targets_witness :
  In (instr "JUMP_IF_FALSE" [VNum 1; VNum 1])
     (fst (deadCodeElimination
             [instr "JUMP_IF_FALSE" [VNum 1; VNum 1]; instr "LABEL" [VNum 1];
              instr "LABEL" [VStr "endif_1"]]))
  /\ In (instr "LABEL" [VNum 1])
       (fst (deadCodeElimination
               [instr "JUMP_IF_FALSE" [VNum 1; VNum 1]; instr "LABEL" [VNum 1];
                instr "LABEL" [VStr "endif_1"]]))
  /\ ~ In (instr "LABEL" [VStr "endif_1"])
         (fst (deadCodeElimination
                 [instr "JUMP_IF_FALSE" [VNum 1; VNum 1]; instr "LABEL" [VNum 1];
                  instr "LABEL" [VStr "endif_1"]])).
Proof.
  pose (ir := [instr "JUMP_IF_FALSE" [VNum 1; VNum 1]; instr "LABEL" [VNum 1];
               instr "LABEL" [VStr "endif_1"]]).
  destruct (dead_code_elimination_keeps_jump_targets ir) as [Hjump Hlabel].
  split; [|split].
  - apply Hjump; [left; reflexivity|reflexivity].
  - apply (Hlabel (instr "LABEL" [VNum 1])); [right; left; reflexivity|reflexivity|].
    exists (instr "JUMP_IF_FALSE" [VNum 1; VNum 1]).
    split; [left; reflexivity|]. split; reflexivity.
  - intros H.
    apply (Hlabel (instr "LABEL" [VStr "endif_1"])) in H;
      [|right; right; left; reflexivity|reflexivity].
    destruct H as [jump [[<-|[<-|[<-|[]]]] [Hj Ht]]]; discriminate.
Defined.

End OptimizerInvariants.

(* ================================================================= *)
(** ** Properties of the lexer *)

Section LexerFacts.
Import Lexer.

Lemma get_lt (s : string) :
  forall n c, String.get n s = Some c -> n < String.length s.
Proof.
  induction s as [|a s IH]; intros [|n] c H; cbn in *; try discriminate.
  - apply Nat.lt_0_succ.
  - apply -> Nat.succ_lt_mono. exact (IH _ _ H).
Qed.

(** [match('=')] where the next character is [=]. *)
Lemma match_found (st : State.t) (c : ascii) :
  String.get (State.position st) (State.source st) = Some c ->
  match_ c st =
    (true, State.mk (State.source st) (State.position st + 1) (State.line st)
             (State.column st + 1) (State.tokens st)).
Proof.
  intros H. unfold match_, isAtEnd.
  apply get_lt in H as Hlt.
  apply Nat.leb_gt in Hlt. rewrite Hlt, H, Ascii.eqb_refl. reflexivity.
Qed.

(** [match('=')] where the next character is another one, or the text
    has ended. *)
Lemma match_not_found (st : State.t) (c : ascii) :
  String.get (State.position st) (State.source st) <> Some c ->
  match_ c st = (false, st).
Proof.
  intros H. unfold match_.
  destruct (isAtEnd st); [reflexivity|].
  destruct (String.get (State.position st) (State.source st)) as [c'|]; [|reflexivity].
  destruct (Ascii.eqb c' c) eqn:E; [|reflexivity].
  apply Ascii.eqb_eq in E. subst. now contradiction H.
Qed.

(** The two calls of [match('=')] on [=] followed by something else:
    the first consumes the [=] and picks the two-character kind, the
    second fails and picks the one-character text. *)
Lemma operatorToken_two_characters (st : State.t) (c : ascii) (two one : string) :
  String.get (State.position st) (State.source st) = Some "="%char ->
  String.get (State.position st + 1) (State.source st) <> Some "="%char ->
  operatorToken c two one st =
    State.mk (State.source st) (State.position st + 1) (State.line st)
      (State.column st + 1)
      (State.tokens st ++
         [mkToken two (String c "") (State.line st) (State.column st + 1 - 1)]).
Proof.
  intros H1 H2. unfold operatorToken.
  rewrite (match_found _ _ H1).
  rewrite match_not_found by exact H2.
  reflexivity.
Qed.

(** [scanToken] on one of the four operator characters followed by a
    single [=]. *)
Ltac scan_two_characters :=
  intros st H0 H1 H2;
  unfold scanToken, advance; rewrite H0; cbv iota beta;
  rewrite operatorToken_two_characters;
  cbn [State.source State.position State.line State.column State.tokens];
  [ rewrite <- !Nat.add_assoc, <- !Z.add_assoc; reflexivity
  | exact H1
  | rewrite <- Nat.add_assoc; exact H2 ].

Lemma scans_equal_equal : scansTwoCharacterOperator "=" "EQUAL_EQUAL".
Proof. scan_two_characters. Qed.

Lemma scans_bang_equal : scansTwoCharacterOperator "!" "BANG_EQUAL".
Proof. scan_two_characters. Qed.

Lemma scans_less_equal : scansTwoCharacterOperator "<" "LESS_EQUAL".
Proof. scan_two_characters. Qed.

Lemma scans_greater_equal : scansTwoCharacterOperator ">" "GREATER_EQUAL".
Proof. scan_two_characters. Qed.

(** *** Identifiers, keywords and numbers *)

Lemma length_append (s1 s2 : string) :
  String.length (s1 ++ s2) = String.length s1 + String.length s2.
Proof. induction s1 as [|a s1 IH]; cbn; [reflexivity | now rewrite IH]. Qed.

Lemma append_assoc (s1 s2 s3 : string) : (s1 ++ s2) ++ s3 = s1 ++ (s2 ++ s3).
Proof. induction s1 as [|a s1 IH]; cbn; [reflexivity | now rewrite IH]. Qed.

Lemma append_empty (s : string) : s ++ "" = s.
Proof. induction s as [|a s IH]; cbn; [reflexivity | now rewrite IH]. Qed.

Lemma substring_empty (n m : nat) : String.substring n m "" = "".
Proof. destruct n, m; reflexivity. Qed.

Lemma substring_zero (s : string) : forall n, String.substring n 0 s = "".
Proof. induction s as [|a s IH]; intros [|n]; cbn; auto. Qed.

Lemma substring_add (s : string) :
  forall n k j,
    String.substring n (k + j) s =
    String.substring n k s ++ String.substring (n + k) j s.
Proof.
  induction s as [|a s IH]; intros n k j.
  - now rewrite !substring_empty.
  - destruct n as [|n].
    + destruct k as [|k]; [reflexivity|].
      cbn [Nat.add String.substring append]. f_equal. apply (IH 0).
    + cbn [Nat.add String.substring]. apply IH.
Qed.

Lemma substring_length (s : string) :
  forall n k, n + k <= String.length s -> String.length (String.substring n k s) = k.
Proof.
  induction s as [|a s IH]; intros n k H; cbn [String.length] in H.
  - assert (n = 0 /\ k = 0) as [-> ->] by lia. reflexivity.
  - destruct n as [|n].
    + destruct k as [|k]; [reflexivity|].
      cbn [String.substring String.length]. f_equal. apply IH. lia.
    + cbn [String.substring]. apply IH. cbn in H. lia.
Qed.

Lemma substring_one (s : string) :
  forall n c, String.get n s = Some c -> String.substring n 1 s = String c "".
Proof.
  induction s as [|a s IH]; intros [|n] c H; cbn in H; try discriminate.
  - injection H as <-. cbn. now destruct s.
  - cbn [String.substring]. exact (IH n c H).
Qed.

(** A character test that fails on NUL holds of [peek] only inside the
    text, where [peek] is the character at [position]. *)
Lemma peek_inside (test : ascii -> bool) (st : State.t) :
  test nul = false -> test (peek st) = true ->
  String.get (State.position st) (State.source st) = Some (peek st).
Proof.
  intros Hnul H. unfold peek in *.
  destruct (isAtEnd st); [congruence|].
  destruct (String.get (State.position st) (State.source st)); [reflexivity|congruence].
Qed.

Lemma consumed_none (value : string) (st : State.t) :
  State.position st <= String.length (State.source st) -> consumed value st value st.
Proof.
  intros H. exists 0. split; [lia|]. split.
  - destruct st; cbn. f_equal; lia.
  - now rewrite substring_zero, append_empty.
Qed.

Lemma consumed_step (value : string) (st : State.t) (c : ascii)
    (value' : string) (st' : State.t) :
  String.get (State.position st) (State.source st) = Some c ->
  consumed (append_char value (Some c)) (snd (advance st)) value' st' ->
  consumed value st value' st'.
Proof.
  intros Hc [k [Hk [-> ->]]]. exists (1 + k).
  cbn [advance snd State.source State.position State.line State.column State.tokens
       append_char] in *.
  split; [lia|]. split.
  - f_equal; lia.
  - rewrite substring_add, (substring_one _ _ _ Hc), append_assoc. reflexivity.
Qed.

Lemma consumed_trans (v1 v2 v3 : string) (s1 s2 s3 : State.t) :
  consumed v1 s1 v2 s2 -> consumed v2 s2 v3 s3 -> consumed v1 s1 v3 s3.
Proof.
  intros [k [Hk [-> ->]]] [j [Hj [-> ->]]].
  cbn [State.source State.position State.line State.column State.tokens] in *.
  exists (k + j). split; [lia|]. split.
  - f_equal; lia.
  - now rewrite append_assoc, substring_add.
Qed.

Lemma identChars_consumed (fuel : nat) :
  forall value st,
    State.position st <= String.length (State.source st) ->
    consumed value st (fst (identChars fuel value st)) (snd (identChars fuel value st)).
Proof.
  induction fuel as [|fuel IH]; intros value st Hpos; cbn [identChars].
  - now apply consumed_none.
  - destruct (isAlphaNumeric (peek st)) eqn:E; [|now apply consumed_none].
    pose proof (peek_inside isAlphaNumeric st eq_refl E) as Hc.
    apply get_lt in Hc as Hlt.
    unfold advance at 1 2. rewrite Hc.
    apply (consumed_step _ _ _ _ _ Hc). unfold advance. rewrite Hc.
    apply IH. cbn. lia.
Qed.

Lemma digits_consumed (fuel : nat) :
  forall value st,
    State.position st <= String.length (State.source st) ->
    consumed value st (fst (digits fuel value st)) (snd (digits fuel value st)).
Proof.
  induction fuel as [|fuel IH]; intros value st Hpos; cbn [digits].
  - now apply consumed_none.
  - destruct (isDigit (peek st)) eqn:E; [|now apply consumed_none].
    pose proof (peek_inside isDigit st eq_refl E) as Hc.
    apply get_lt in Hc as Hlt.
    unfold advance at 1 2. rewrite Hc.
    apply (consumed_step _ _ _ _ _ Hc). unfold advance. rewrite Hc.
    apply IH. cbn. lia.
Qed.

(** [scanToken] on a letter or underscore runs [identifier()], on a
    digit [number()]. *)
Lemma scanToken_alpha (st : State.t) (c : ascii) :
  String.get (State.position st) (State.source st) = Some c ->
  isAlpha c = true ->
  scanToken st = Ok (identifier (snd (advance st))).
Proof.
  intros H Ha. unfold scanToken, advance. rewrite H. cbv iota beta.
  destruct c as [[] [] [] [] [] [] [] []];
    try (vm_compute in Ha; discriminate Ha); reflexivity.
Qed.

Lemma scanToken_digit (st : State.t) (c : ascii) :
  String.get (State.position st) (State.source st) = Some c ->
  isDigit c = true ->
  scanToken st = Ok (number (snd (advance st))).
Proof.
  intros H Ha. unfold scanToken, advance. rewrite H. cbv iota beta.
  destruct c as [[] [] [] [] [] [] [] []];
    try (vm_compute in Ha; discriminate Ha); reflexivity.
Qed.

Lemma currentChar_advance (st : State.t) (c : ascii) :
  String.get (State.position st) (State.source st) = Some c ->
  currentChar (snd (advance st)) = String c "".
Proof.
  intros H. unfold currentChar, advance.
  cbn [snd State.position State.source]. now rewrite Nat.add_sub, H.
Qed.

(** The token added after the first character [c] and the characters
    a loop consumed is the token of the lexeme that starts at [c]. *)
Lemma consumed_lexeme (st : State.t) (c : ascii) (value : string) (st' : State.t)
    (type : string) :
  String.get (State.position st) (State.source st) = Some c ->
  consumed (String c "") (snd (advance st)) value st' ->
  lexemeAtStart st (addToken type value st') type value.
Proof.
  intros Hc Hrest.
  assert (Hall : consumed "" st value st').
  { apply (consumed_step _ _ _ _ _ Hc). exact Hrest. }
  destruct Hall as [k [Hk [-> Hvalue]]]. cbn [append] in Hvalue.
  assert (Hlen : String.length value = k)
    by (rewrite Hvalue; now apply substring_length).
  unfold lexemeAtStart, addToken.
  cbn [State.source State.position State.line State.column State.tokens].
  rewrite Hlen. split; [exact Hvalue|]. split; [|lia].
  now rewrite Z.add_simpl_r.
Qed.

Lemma identifier_lexeme (st : State.t) (c : ascii) :
  String.get (State.position st) (State.source st) = Some c ->
  exists type text, lexemeAtStart st (identifier (snd (advance st))) type text.
Proof.
  intros Hc. unfold identifier.
  pose proof (identChars_consumed (remaining (snd (advance st)))
                (currentChar (snd (advance st))) (snd (advance st))) as H.
  destruct (identChars _ _ _) as [value st1]. cbn [fst snd] in H.
  rewrite (currentChar_advance _ _ Hc) in H.
  do 2 eexists. apply (consumed_lexeme _ _ _ _ _ Hc), H.
  apply get_lt in Hc. cbn. lia.
Qed.

Lemma number_lexeme (st : State.t) (c : ascii) :
  String.get (State.position st) (State.source st) = Some c ->
  exists text, lexemeAtStart st (number (snd (advance st))) "NUMBER" text.
Proof.
  intros Hc. unfold number.
  pose proof (digits_consumed (remaining (snd (advance st)))
                (currentChar (snd (advance st))) (snd (advance st))) as H.
  destruct (digits _ _ _) as [value st1]. cbn [fst snd] in H.
  rewrite (currentChar_advance _ _ Hc) in H.
  assert (H1 : consumed (String c "") (snd (advance st)) value st1).
  { apply H. apply get_lt in Hc. cbn. lia. }
  clear H.
  destruct (Ascii.eqb (peek st1) "." && isDigit (peekNext st1)) eqn:E.
  - apply andb_prop in E as [Edot _].
    pose proof (peek_inside (fun a => Ascii.eqb a ".") st1 eq_refl Edot) as Hdot.
    apply get_lt in Hdot as Hlt.
    assert (Hadv : advance st1 = (Some (peek st1), snd (advance st1))).
    { unfold advance. now rewrite Hdot. }
    rewrite Hadv. cbv iota beta.
    pose proof (digits_consumed
                  (remaining (snd (advance st1)))
                  (append_char value (Some (peek st1))) (snd (advance st1))) as H2.
    destruct (digits _ _ _) as [value2 st2]. cbn [fst snd] in H2.
    eexists. apply (consumed_lexeme _ _ _ _ _ Hc).
    apply (consumed_trans _ _ _ _ _ _ H1).
    apply (consumed_step _ _ _ _ _ Hdot).
    apply H2. cbn. lia.
  - eexists. apply (consumed_lexeme _ _ _ _ _ Hc), H1.
Qed.

(** The tokens of identifiers, keywords and numbers: when the scanner
    stands at a letter, an underscore or a digit, [scanToken] reads a
    lexeme that starts there and appends a token with the text of the
    lexeme whose column, the current column after the lexeme minus its
    length, is the column of the first character. *)
Theorem identifier_and_number_tokens_point_at_first_character :
  forall st c,
    String.get (State.position st) (State.source st) = Some c ->
    isAlpha c = true \/ isDigit c = true ->
    exists st' type text,
      scanToken st = Ok st' /\ lexemeAtStart st st' type text.
Proof.
  intros st c Hc [Ha|Hd].
  - destruct (identifier_lexeme st c Hc) as [type [text H]].
    exists (identifier (snd (advance st))), type, text.
    split; [exact (scanToken_alpha st c Hc Ha)|exact H].
  - destruct (number_lexeme st c Hc) as [text H].
    exists (number (snd (advance st))), "NUMBER", text.
    split; [exact (scanToken_digit st c Hc Hd)|exact H].
Qed.

Lemma identifier_and_number_tokens_point_at_first_character_witness :
  exists st' type text,
    scanToken (State.mk "x = total1;" 4 1 5 []) = Ok st'
    /\ lexemeAtStart (State.mk "x = total1;" 4 1 5 []) st' type text.
Proof.
  apply (identifier_and_number_tokens_point_at_first_character
           (State.mk "x = total1;" 4 1 5 []) "t").
  - reflexivity.
  - left. reflexivity.
Defined.

(** *** The loop bounds *)

Lemma moved_refl (st : State.t) :
  State.position st <= String.length (State.source st) -> moved st st.
Proof. unfold moved. auto. Qed.

Lemma moved_trans (s1 s2 s3 : State.t) : moved s1 s2 -> moved s2 s3 -> moved s1 s3.
Proof. unfold moved. intros [E1 [? ?]] [E2 [? ?]]. rewrite E1 in *. repeat split; lia || congruence. Qed.

Lemma moved_addToken (st st' : State.t) (type value : string) :
  moved st st' -> moved st (addToken type value st').
Proof. unfold moved, addToken. cbn. auto. Qed.

Lemma moved_line (st st' : State.t) (line column : Z) :
  moved st st' ->
  moved st (State.mk (State.source st') (State.position st') line column
              (State.tokens st')).
Proof. unfold moved. cbn. auto. Qed.

Lemma moved_advance (st : State.t) :
  State.position st < String.length (State.source st) -> moved st (snd (advance st)).
Proof. intros H. unfold moved, advance. cbn. repeat split; lia. Qed.

Lemma moved_match (st : State.t) (c : ascii) :
  State.position st <= String.length (State.source st) -> moved st (snd (match_ c st)).
Proof.
  intros H. unfold match_. destruct (isAtEnd st); [now apply moved_refl|].
  destruct (String.get (State.position st) (State.source st)) as [c'|] eqn:E;
    [|now apply moved_refl].
  apply get_lt in E.
  destruct (Ascii.eqb c' c); [|now apply moved_refl].
  unfold moved. cbn. repeat split; lia.
Qed.

Lemma moved_consumed (value value' : string) (st st' : State.t) :
  consumed value st value' st' -> moved st st'.
Proof. intros [k [Hk [-> _]]]. unfold moved. cbn. repeat split; lia. Qed.

Lemma isAtEnd_false (st : State.t) :
  isAtEnd st = false -> State.position st < String.length (State.source st).
Proof. unfold isAtEnd. intros H. now apply Nat.leb_gt in H. Qed.

Lemma isAtEnd_true (st : State.t) :
  State.position st <= String.length (State.source st) ->
  remaining st = 0 -> isAtEnd st = true.
Proof. unfold isAtEnd, remaining. intros H1 H2. apply Nat.leb_le. lia. Qed.

Lemma moved_skipComment (fuel : nat) :
  forall st, State.position st <= String.length (State.source st) ->
             moved st (skipComment fuel st).
Proof.
  induction fuel as [|fuel IH]; intros st H; cbn [skipComment].
  - now apply moved_refl.
  - destruct (negb (Ascii.eqb (peek st) newline)); cbn [andb]; [|now apply moved_refl].
    destruct (isAtEnd st) eqn:E; cbn [negb]; [now apply moved_refl|].
    apply isAtEnd_false in E.
    apply (moved_trans _ _ _ (moved_advance st E)), IH. cbn. lia.
Qed.

Lemma moved_stringChars (fuel : nat) :
  forall value st, State.position st <= String.length (State.source st) ->
                   moved st (snd (stringChars fuel value st)).
Proof.
  induction fuel as [|fuel IH]; intros value st H; cbn [stringChars].
  - now apply moved_refl.
  - destruct (negb (Ascii.eqb (peek st) quote)); cbn [andb]; [|now apply moved_refl].
    destruct (isAtEnd st) eqn:E; cbn [negb]; [now apply moved_refl|].
    apply isAtEnd_false in E.
    destruct (Ascii.eqb (peek st) newline);
      unfold advance; cbn [State.source State.position State.line State.column
                             State.tokens];
      (eapply moved_trans; [|apply IH; cbn; lia]); unfold moved; cbn;
      repeat split; lia.
Qed.

Lemma moved_string (st st' : State.t) :
  State.position st <= String.length (State.source st) ->
  string_ st = Ok st' -> moved st st'.
Proof.
  intros H. unfold string_.
  pose proof (moved_stringChars (remaining st) "" st H) as Hm.
  destruct (stringChars (remaining st) "" st) as [value st1]. cbn [snd] in Hm.
  destruct (isAtEnd st1) eqn:E; [discriminate|].
  intros Hs. injection Hs as <-.
  apply moved_addToken, (moved_trans _ _ _ Hm).
  destruct Hm as [Es _]. apply isAtEnd_false in E.
  pose proof (moved_advance st1 E) as Ha. exact Ha.
Qed.

Lemma moved_operatorToken (st : State.t) (c : ascii) (two one : string) :
  State.position st <= String.length (State.source st) ->
  moved st (operatorToken c two one st).
Proof.
  intros H. unfold operatorToken.
  pose proof (moved_match st "=" H) as H1.
  destruct (match_ "=" st) as [m1 st1]. cbn [snd] in H1.
  assert (H1' : State.position st1 <= String.length (State.source st1)).
  { destruct H1 as [-> [_ ?]]. assumption. }
  pose proof (moved_match st1 "=" H1') as H2.
  destruct (match_ "=" st1) as [m2 st2]. cbn [snd] in H2.
  apply moved_addToken, (moved_trans _ _ _ H1 H2).
Qed.

Lemma moved_identifier (st : State.t) :
  State.position st <= String.length (State.source st) -> moved st (identifier st).
Proof.
  intros H. unfold identifier.
  pose proof (identChars_consumed (remaining st) (currentChar st) st H) as Hc.
  destruct (identChars _ _ _) as [value st1]. cbn [fst snd] in Hc.
  apply moved_addToken, (moved_consumed _ _ _ _ Hc).
Qed.

Lemma moved_number (st : State.t) :
  State.position st <= String.length (State.source st) -> moved st (number st).
Proof.
  intros H. unfold number.
  pose proof (digits_consumed (remaining st) (currentChar st) st H) as Hc.
  destruct (digits _ _ _) as [value st1]. cbn [fst snd] in Hc.
  apply moved_consumed in Hc.
  destruct (Ascii.eqb (peek st1) "." && isDigit (peekNext st1)) eqn:E.
  - apply andb_prop in E as [Edot _].
    pose proof (peek_inside (fun a => Ascii.eqb a ".") st1 eq_refl Edot) as Hdot.
    apply get_lt in Hdot.
    assert (Hadv : advance st1 = (fst (advance st1), snd (advance st1)))
      by now destruct (advance st1).
    rewrite Hadv. cbv iota beta.
    pose proof (moved_advance st1 Hdot) as Ha.
    pose proof (digits_consumed (remaining (snd (advance st1)))
                  (append_char value (fst (advance st1))) (snd (advance st1))) as Hd.
    destruct (digits _ _ _) as [value2 st2]. cbn [fst snd] in Hd.
    apply moved_addToken, (moved_trans _ _ _ Hc), (moved_trans _ _ _ Ha).
    apply (moved_consumed _ _ _ _ (Hd ltac:(cbn; lia))).
  - now apply moved_addToken.
Qed.

(** Each inner loop, run with the number of characters left as its
    bound, stops because its condition fails. *)
Lemma identChars_stops (fuel : nat) :
  forall value st,
    State.position st <= String.length (State.source st) ->
    remaining st <= fuel ->
    isAlphaNumeric (peek (snd (identChars fuel value st))) = false.
Proof.
  induction fuel as [|fuel IH]; intros value st Hpos Hfuel; cbn [identChars].
  - cbn [snd]. unfold peek. now rewrite isAtEnd_true by (assumption || lia).
  - destruct (isAlphaNumeric (peek st)) eqn:E; [|exact E].
    apply (peek_inside isAlphaNumeric st eq_refl), get_lt in E.
    destruct (advance st) as [c st1] eqn:Ea.
    assert (st1 = snd (advance st)) as -> by now rewrite Ea.
    apply IH; unfold remaining in *; cbn; lia.
Qed.

Lemma digits_stops (fuel : nat) :
  forall value st,
    State.position st <= String.length (State.source st) ->
    remaining st <= fuel ->
    isDigit (peek (snd (digits fuel value st))) = false.
Proof.
  induction fuel as [|fuel IH]; intros value st Hpos Hfuel; cbn [digits].
  - cbn [snd]. unfold peek. now rewrite isAtEnd_true by (assumption || lia).
  - destruct (isDigit (peek st)) eqn:E; [|exact E].
    apply (peek_inside isDigit st eq_refl), get_lt in E.
    destruct (advance st) as [c st1] eqn:Ea.
    assert (st1 = snd (advance st)) as -> by now rewrite Ea.
    apply IH; unfold remaining in *; cbn; lia.
Qed.

Lemma skipComment_stops (fuel : nat) :
  forall st,
    State.position st <= String.length (State.source st) ->
    remaining st <= fuel ->
    negb (Ascii.eqb (peek (skipComment fuel st)) newline)
    && negb (isAtEnd (skipComment fuel st)) = false.
Proof.
  induction fuel as [|fuel IH]; intros st Hpos Hfuel; cbn [skipComment].
  - rewrite isAtEnd_true by (assumption || lia). apply andb_false_r.
  - destruct (negb (Ascii.eqb (peek st) newline) && negb (isAtEnd st)) eqn:E; [|exact E].
    apply andb_prop in E as [_ E]. apply negb_true_iff, isAtEnd_false in E.
    apply IH; unfold remaining in *; cbn; lia.
Qed.

Lemma stringChars_stops (fuel : nat) :
  forall value st,
    State.position st <= String.length (State.source st) ->
    remaining st <= fuel ->
    negb (Ascii.eqb (peek (snd (stringChars fuel value st))) quote)
    && negb (isAtEnd (snd (stringChars fuel value st))) = false.
Proof.
  induction fuel as [|fuel IH]; intros value st Hpos Hfuel; cbn [stringChars].
  - cbn [snd]. rewrite isAtEnd_true by (assumption || lia). apply andb_false_r.
  - destruct (negb (Ascii.eqb (peek st) quote) && negb (isAtEnd st)) eqn:E; [|exact E].
    apply andb_prop in E as [_ E]. apply negb_true_iff, isAtEnd_false in E.
    destruct (Ascii.eqb (peek st) newline); unfold advance;
      cbn [State.source State.position State.line State.column State.tokens];
      apply IH; unfold remaining in *; cbn; lia.
Qed.

(** Every call of [scanToken] that returns has moved the scanner on by
    at least one character, inside the text. *)
Lemma scanToken_moves (st st' : State.t) :
  isAtEnd st = false -> scanToken st = Ok st' ->
  State.source st' = State.source st
  /\ State.position st < State.position st'
  /\ State.position st' <= String.length (State.source st).
Proof.
  intros Hend Hscan. apply isAtEnd_false in Hend.
  enough (Hm : moved (snd (advance st)) st').
  { destruct Hm as [Hs [Hp Hl]]. cbn in Hs, Hp, Hl. repeat split; [exact Hs|lia|exact Hl]. }
  assert (Hpos : State.position (snd (advance st))
                 <= String.length (State.source (snd (advance st)))) by (cbn; lia).
  pose proof (moved_refl _ Hpos) as Hrefl.
  unfold scanToken in Hscan.
  destruct (advance st) as [char st1] eqn:Ea. cbn [snd] in *.
  destruct char as [c|]; [|discriminate Hscan].
  pose proof (moved_operatorToken st1 c) as Hop.
  pose proof (moved_match st1 "/" Hpos) as Hslash.
  pose proof (fun fuel => moved_skipComment fuel (snd (match_ "/" st1))) as Hcomment.
  pose proof (moved_string st1 st' Hpos) as Hstring.
  pose proof (moved_number st1 Hpos) as Hnumber.
  pose proof (moved_identifier st1 Hpos) as Hident.
  destruct (match_ "/" st1) as [m st2]. cbn [snd] in *.
  destruct c as [[] [] [] [] [] [] [] []]; cbv iota beta in Hscan;
    try (injection Hscan as <-);
    try discriminate Hscan;
    try solve [ apply moved_addToken; exact Hrefl
              | apply Hop; exact Hpos
              | exact Hrefl
              | apply moved_line; exact Hrefl
              | apply Hstring; exact Hscan
              | exact Hnumber
              | exact Hident
              | destruct m; injection Hscan as <-;
                [ apply (moved_trans _ _ _ Hslash), Hcomment;
                  destruct Hslash as [-> [_ ?]]; assumption
                | apply moved_addToken; exact Hslash ] ].
Qed.

(** The loop of [tokenize] ends because the scanner is at the end of
    the text, not because the bound is reached. *)
Lemma scanTokens_at_end (fuel : nat) :
  forall st st',
    State.position st <= String.length (State.source st) ->
    remaining st <= fuel ->
    scanTokens fuel st = Ok st' ->
    isAtEnd st' = true /\ State.source st' = State.source st.
Proof.
  induction fuel as [|fuel IH]; intros st st' Hpos Hfuel H; cbn [scanTokens] in H.
  - injection H as <-. split; [|reflexivity]. apply isAtEnd_true; [exact Hpos|lia].
  - destruct (isAtEnd st) eqn:E.
    + injection H as <-. auto.
    + destruct (scanToken st) as [st1|e] eqn:Es; [|discriminate].
      destruct (scanToken_moves _ _ E Es) as [Hs [Hlt Hle]].
      destruct (IH st1 st') as [Hend Hsrc]; try assumption.
      * now rewrite Hs.
      * unfold remaining in *. rewrite Hs. lia.
      * split; [exact Hend|congruence].
Qed.

(** The token list [tokenize] returns is the tokens scanned up to the
    end of the text followed by the end-of-input token, whose text is
    empty. *)
Theorem tokenize_ends_with_EOF :
  forall source tokens,
    tokenize source = Ok tokens ->
    exists st,
      scanTokens (String.length source) (State.mk source 0 1 1 []) = Ok st
      /\ isAtEnd st = true
      /\ tokens = (State.tokens st ++
                     [mkToken "EOF" "" (State.line st) (State.column st)])%list.
Proof.
  intros source tokens H. unfold tokenize in H.
  destruct (scanTokens (String.length source) (State.mk source 0 1 1 [])) as [st|e] eqn:E;
    [|discriminate].
  injection H as <-. exists st. split; [reflexivity|]. split.
  - destruct (scanTokens_at_end (String.length source) (State.mk source 0 1 1 []) st)
      as [Hend _]; [cbn; lia | unfold remaining; cbn; lia | exact E | exact Hend].
  - unfold addToken. cbn. now rewrite Z.sub_0_r.
Qed.

Lemma tokenize_ends_with_EOF_witness :
  exists st,
    scanTokens (String.length "var x;") (State.mk "var x;" 0 1 1 []) = Ok st
    /\ isAtEnd st = true
    /\ [mkToken "VAR" "var" 1 1; mkToken "IDENTIFIER" "x" 1 5;
        mkToken "SEMICOLON" ";" 1 6; mkToken "EOF" "" 1 7]
       = (State.tokens st ++ [mkToken "EOF" "" (State.line st) (State.column st)])%list.
Proof.
  apply (tokenize_ends_with_EOF "var x;"). vm_compute. reflexivity.
Defined.

End LexerFacts.

(* ================================================================= *)
(** ** The recursion bound of the parser *)

Section ParserFuel.
Import Parser.
Open Scope parser_scope.

Lemma refines_refl {A} (m : M A) : refines m m.
Proof. intros current r H _. exact H. Qed.

Lemma refines_outOfFuel {A} (m : M A) : refines outOfFuel m.
Proof. intros current r <- H. now contradiction H. Qed.

Lemma refines_bind {A B} (m m' : M A) (k k' : A -> M B) :
  refines m m' -> (forall a, refines (k a) (k' a)) ->
  refines (bind m k) (bind m' k').
Proof.
  intros Hm Hk current r H Hr. unfold bind in *.
  destruct (m current) as [a c|e c|] eqn:E.
  - rewrite (Hm _ _ E) by discriminate. now apply Hk.
  - rewrite (Hm _ _ E) by discriminate. exact H.
  - subst r. now contradiction Hr.
Qed.

Lemma refines_tryCatch {A} (body body' : M A) (handler : Error -> M A) :
  refines body body' -> refines (tryCatch body handler) (tryCatch body' handler).
Proof.
  intros Hb current r H Hr. unfold tryCatch in *.
  destruct (body current) as [a c|e c|] eqn:E.
  - rewrite (Hb _ _ E) by discriminate. exact H.
  - rewrite (Hb _ _ E) by discriminate. exact H.
  - subst r. now contradiction Hr.
Qed.

(** One step of a proof that two parsers built the same way refine
    each other. *)
Ltac refines_step :=
  match goal with
  | |- refines ?m ?m => apply refines_refl
  | |- refines outOfFuel _ => apply refines_outOfFuel
  | |- refines (bind _ _) (bind _ _) => apply refines_bind; [|intros ?]
  | |- refines (tryCatch _ _) (tryCatch _ _) => apply refines_tryCatch
  | |- refines (if ?b then _ else _) (if ?b then _ else _) => destruct b
  | H : refines ?m ?m' |- refines ?m ?m' => exact H
  end.

Ltac refines_auto := repeat refines_step; eauto.

Variable tokens : list Token.

(** The bound [synchronize] is run with, the length of the token list,
    is never reached: every trip of its loop but the last advances. *)
Lemma synchronizeLoop_bound (fuel : nat) :
  forall current,
    List.length tokens - current < fuel ->
    synchronizeLoop tokens fuel current <> OutOfFuel.
Proof.
  induction fuel as [|fuel IH]; intros current Hfuel; [lia|].
  cbn [synchronizeLoop].
  cbv beta iota zeta delta [bind isAtEnd peek ret previous previousToken throw advance].
  destruct (nth_error tokens current) as [t|] eqn:Et; [|discriminate].
  assert (Hlt : current < List.length tokens)
    by (apply nth_error_Some; rewrite Et; discriminate).
  destruct (String.eqb (Lexer.type t) "EOF") eqn:Eeof; [discriminate|].
  destruct current as [|c]; [discriminate|].
  destruct (nth_error tokens c) as [p|]; [|discriminate].
  destruct (String.eqb (Lexer.type p) "SEMICOLON"); [discriminate|].
  rewrite Et. destruct (isSyncKeyword (Lexer.type t)); [discriminate|].
  rewrite Et, Eeof.
  specialize (IH (S (S c)) ltac:(lia)).
  destruct (synchronizeLoop tokens fuel (S (S c))); congruence.
Qed.

Lemma synchronize_bound (current : nat) :
  synchronize tokens (List.length tokens) current <> OutOfFuel.
Proof.
  unfold synchronize.
  cbv beta iota zeta delta [bind isAtEnd peek ret previous previousToken throw advance].
  destruct (nth_error tokens current) as [t|] eqn:Et; [|discriminate].
  assert (Hlt : current < List.length tokens)
    by (apply nth_error_Some; rewrite Et; discriminate).
  destruct (String.eqb (Lexer.type t) "EOF") eqn:Eeof.
  - destruct (List.length tokens) as [|n] eqn:En; [lia|].
    cbn [synchronizeLoop].
    cbv beta iota zeta delta [bind isAtEnd peek ret previous previousToken throw advance].
    rewrite Et, Eeof. discriminate.
  - pose proof (synchronizeLoop_bound (List.length tokens) (S current) ltac:(lia)) as H.
    destruct (synchronizeLoop tokens (List.length tokens) (S current)); congruence.
Qed.

Lemma varDeclaration_refines (e e' : M ASTNode) :
  refines e e' -> refines (varDeclaration tokens e) (varDeclaration tokens e').
Proof. intros H. unfold varDeclaration. refines_auto. Qed.

Lemma expressionStatement_refines (e e' : M ASTNode) :
  refines e e' -> refines (expressionStatement tokens e) (expressionStatement tokens e').
Proof. intros H. unfold expressionStatement. refines_auto. Qed.

Lemma returnStatement_refines (e e' : M ASTNode) :
  refines e e' -> refines (returnStatement tokens e) (returnStatement tokens e').
Proof. intros H. unfold returnStatement. refines_auto. Qed.

Lemma ifStatement_refines (e e' s s' : M ASTNode) :
  refines e e' -> refines s s' ->
  refines (ifStatement tokens e s) (ifStatement tokens e' s').
Proof. intros He Hs. unfold ifStatement. refines_auto. Qed.

Lemma whileStatement_refines (e e' s s' : M ASTNode) :
  refines e e' -> refines s s' ->
  refines (whileStatement tokens e s) (whileStatement tokens e' s').
Proof. intros He Hs. unfold whileStatement. refines_auto. Qed.

Lemma forStatement_refines (e e' s s' : M ASTNode) :
  refines e e' -> refines s s' ->
  refines (forStatement tokens e s) (forStatement tokens e' s').
Proof.
  intros He Hs. unfold forStatement.
  pose proof (varDeclaration_refines _ _ He).
  pose proof (expressionStatement_refines _ _ He).
  refines_auto.
Qed.

Lemma parameterList_refines (n : nat) :
  forall m parameters, n <= m ->
    refines (parameterList tokens n parameters) (parameterList tokens m parameters).
Proof.
  induction n as [|n IH]; intros [|m] parameters Hle; try lia; cbn [parameterList].
  - apply refines_outOfFuel.
  - apply refines_outOfFuel.
  - assert (n <= m) by lia. refines_auto.
Qed.

Lemma functionDeclaration_refines (n m : nat) (b b' : M ASTNode) :
  n <= m -> refines b b' ->
  refines (functionDeclaration tokens n b) (functionDeclaration tokens m b').
Proof.
  intros Hle Hb. unfold functionDeclaration.
  pose proof (parameterList_refines n m [] Hle). refines_auto.
Qed.

Lemma blockStatements_refines (n : nat) :
  forall m d d' statements, n <= m -> refines d d' ->
    refines (blockStatements tokens n d statements)
            (blockStatements tokens m d' statements).
Proof.
  induction n as [|n IH]; intros [|m] d d' statements Hle Hd; try lia;
    cbn [blockStatements]; try apply refines_outOfFuel.
  assert (n <= m) by lia. refines_auto.
Qed.

Lemma block_refines (n m : nat) (d d' : M ASTNode) :
  n <= m -> refines d d' -> refines (block tokens n d) (block tokens m d').
Proof.
  intros Hle Hd. unfold block.
  pose proof (blockStatements_refines n m d d' [] Hle Hd). refines_auto.
Qed.

Lemma operatorLoop_refines (types : list string)
    (make : string -> ASTNode -> ASTNode -> ASTNode) (n : nat) :
  forall m o o' expr, n <= m -> refines o o' ->
    refines (operatorLoop tokens n types make o expr)
            (operatorLoop tokens m types make o' expr).
Proof.
  induction n as [|n IH]; intros [|m] o o' expr Hle Ho; try lia;
    cbn [operatorLoop]; try apply refines_outOfFuel.
  assert (n <= m) by lia. refines_auto.
Qed.

Lemma argumentList_refines (n : nat) :
  forall m e e' args, n <= m -> refines e e' ->
    refines (argumentList tokens n e args) (argumentList tokens m e' args).
Proof.
  induction n as [|n IH]; intros [|m] e e' args Hle He; try lia;
    cbn [argumentList]; try apply refines_outOfFuel.
  assert (n <= m) by lia. refines_auto.
Qed.

Lemma finishCall_refines (n m : nat) (e e' : M ASTNode) (callee : ASTNode) :
  n <= m -> refines e e' ->
  refines (finishCall tokens n e callee) (finishCall tokens m e' callee).
Proof.
  intros Hle He. unfold finishCall.
  pose proof (argumentList_refines n m e e' [] Hle He). refines_auto.
Qed.

Lemma primary_refines (e e' : M ASTNode) :
  refines e e' -> refines (primary tokens e) (primary tokens e').
Proof. intros He. unfold primary. refines_auto. Qed.

Lemma callLoop_refines (n : nat) :
  forall m e e' expr, n <= m -> refines e e' ->
    refines (callLoop tokens n e expr) (callLoop tokens m e' expr).
Proof.
  induction n as [|n IH]; intros [|m] e e' expr Hle He; try lia;
    cbn [callLoop]; try apply refines_outOfFuel.
  assert (Hnm : n <= m) by lia.
  pose proof (fun callee => finishCall_refines n m e e' callee Hnm He).
  refines_auto.
Qed.

Lemma call_refines (n m : nat) (e e' : M ASTNode) :
  n <= m -> refines e e' -> refines (call tokens n e) (call tokens m e').
Proof.
  intros Hle He. unfold call.
  pose proof (primary_refines e e' He).
  pose proof (fun expr => callLoop_refines n m e e' expr Hle He).
  refines_auto.
Qed.

Lemma unary_refines (n : nat) :
  forall m e e', n <= m -> refines e e' ->
    refines (unary tokens n e) (unary tokens m e').
Proof.
  induction n as [|n IH]; intros [|m] e e' Hle He; try lia;
    cbn [unary]; try apply refines_outOfFuel.
  assert (Hnm : n <= m) by lia.
  pose proof (call_refines n m e e' Hnm He).
  refines_auto.
Qed.

Lemma factor_refines (n m : nat) (e e' : M ASTNode) :
  n <= m -> refines e e' -> refines (factor tokens n e) (factor tokens m e').
Proof.
  intros Hle He. unfold factor.
  pose proof (unary_refines n m e e' Hle He) as Hu.
  pose proof (fun expr => operatorLoop_refines ["SLASH"; "STAR"] BinaryExpression
                            n m _ _ expr Hle Hu).
  refines_auto.
Qed.

Lemma term_refines (n m : nat) (e e' : M ASTNode) :
  n <= m -> refines e e' -> refines (term tokens n e) (term tokens m e').
Proof.
  intros Hle He. unfold term.
  pose proof (factor_refines n m e e' Hle He) as Hu.
  pose proof (fun expr => operatorLoop_refines ["MINUS"; "PLUS"] BinaryExpression
                            n m _ _ expr Hle Hu).
  refines_auto.
Qed.

Lemma comparison_refines (n m : nat) (e e' : M ASTNode) :
  n <= m -> refines e e' -> refines (comparison tokens n e) (comparison tokens m e').
Proof.
  intros Hle He. unfold comparison.
  pose proof (term_refines n m e e' Hle He) as Hu.
  pose proof (fun expr => operatorLoop_refines
                            ["GREATER"; "GREATER_EQUAL"; "LESS"; "LESS_EQUAL"]
                            BinaryExpression n m _ _ expr Hle Hu).
  refines_auto.
Qed.

Lemma equality_refines (n m : nat) (e e' : M ASTNode) :
  n <= m -> refines e e' -> refines (equality tokens n e) (equality tokens m e').
Proof.
  intros Hle He. unfold equality.
  pose proof (comparison_refines n m e e' Hle He) as Hu.
  pose proof (fun expr => operatorLoop_refines ["BANG_EQUAL"; "EQUAL_EQUAL"]
                            BinaryExpression n m _ _ expr Hle Hu).
  refines_auto.
Qed.

Lemma logicalAnd_refines (n m : nat) (e e' : M ASTNode) :
  n <= m -> refines e e' -> refines (logicalAnd tokens n e) (logicalAnd tokens m e').
Proof.
  intros Hle He. unfold logicalAnd.
  pose proof (equality_refines n m e e' Hle He) as Hu.
  pose proof (fun expr => operatorLoop_refines ["AND"] LogicalExpression
                            n m _ _ expr Hle Hu).
  refines_auto.
Qed.

Lemma logicalOr_refines (n m : nat) (e e' : M ASTNode) :
  n <= m -> refines e e' -> refines (logicalOr tokens n e) (logicalOr tokens m e').
Proof.
  intros Hle He. unfold logicalOr.
  pose proof (logicalAnd_refines n m e e' Hle He) as Hu.
  pose proof (fun expr => operatorLoop_refines ["OR"] LogicalExpression
                            n m _ _ expr Hle Hu).
  refines_auto.
Qed.

Lemma assignment_refines (n : nat) :
  forall m e e', n <= m -> refines e e' ->
    refines (assignment tokens n e) (assignment tokens m e').
Proof.
  induction n as [|n IH]; intros [|m] e e' Hle He; try lia;
    cbn [assignment]; try apply refines_outOfFuel.
  assert (Hnm : n <= m) by lia.
  pose proof (logicalOr_refines n m e e' Hnm He).
  refines_auto.
Qed.

Lemma expression_refines (n : nat) :
  forall m, n <= m -> refines (expression tokens n) (expression tokens m).
Proof.
  induction n as [|n IH]; intros [|m] Hle; try lia;
    cbn [expression]; try apply refines_outOfFuel.
  apply assignment_refines; [lia|]. apply IH. lia.
Qed.

Lemma statement_refines (n : nat) :
  forall m d d', n <= m -> refines d d' ->
    refines (statement tokens n d) (statement tokens m d').
Proof.
  induction n as [|n IH]; intros [|m] d d' Hle Hd; try lia;
    cbn [statement]; try apply refines_outOfFuel.
  assert (Hnm : n <= m) by lia.
  pose proof (expression_refines n m Hnm) as He.
  pose proof (IH m d d' Hnm Hd) as Hs.
  pose proof (ifStatement_refines _ _ _ _ He Hs).
  pose proof (whileStatement_refines _ _ _ _ He Hs).
  pose proof (forStatement_refines _ _ _ _ He Hs).
  pose proof (returnStatement_refines _ _ He).
  pose proof (expressionStatement_refines _ _ He).
  pose proof (block_refines n m d d' Hnm Hd).
  refines_auto.
Qed.

Lemma declaration_refines (n : nat) :
  forall m, n <= m -> refines (declaration tokens n) (declaration tokens m).
Proof.
  induction n as [|n IH]; intros [|m] Hle; try lia;
    cbn [declaration]; try apply refines_outOfFuel.
  assert (Hnm : n <= m) by lia.
  pose proof (IH m Hnm) as Hd.
  pose proof (expression_refines n m Hnm) as He.
  pose proof (varDeclaration_refines _ _ He).
  pose proof (block_refines n m _ _ Hnm Hd) as Hb.
  pose proof (functionDeclaration_refines n m _ _ Hnm Hb).
  pose proof (statement_refines n m _ _ Hnm Hd).
  refines_auto.
Qed.

Lemma programStatements_refines (n : nat) :
  forall m statements, n <= m ->
    refines (programStatements tokens n statements)
            (programStatements tokens m statements).
Proof.
  induction n as [|n IH]; intros [|m] statements Hle; try lia;
    cbn [programStatements]; try apply refines_outOfFuel.
  assert (Hnm : n <= m) by lia.
  pose proof (declaration_refines n m Hnm).
  refines_auto.
Qed.

Lemma program_refines (n m : nat) :
  n <= m -> refines (program tokens n) (program tokens m).
Proof.
  intros Hle. unfold program.
  pose proof (programStatements_refines n m [] Hle). refines_auto.
Qed.

(** A larger bound does not change what [parse] returns: once the
    bound is large enough for the token list, the result is the
    parser's. *)
Lemma parse_fuel (n m : nat) (r : Result ASTNode) :
  n <= m -> parse n tokens = r -> r <> OutOfFuel -> parse m tokens = r.
Proof.
  intros Hle H Hr. unfold parse in *.
  exact (refines_tryCatch _ _ _ (program_refines n m Hle) 0 r H Hr).
Qed.

End ParserFuel.

(* ================================================================= *)
(** ** The bound of [compile] *)

Section CompilerFuel.
Import Examples.

Lemma optimizeLoop_fuel (n : nat) :
  forall m ir r,
    n <= m -> Optimizer.optimizeLoop n ir = Some r -> Optimizer.optimizeLoop m ir = Some r.
Proof.
  induction n as [|n IH]; intros [|m] ir r Hle H; try lia; try discriminate.
  rewrite optimizeLoop_S in *.
  destruct (Optimizer.round ir) as [ir' [|]]; [|exact H].
  apply (IH m); [lia|exact H].
Qed.

(** A larger bound does not change what [compile] returns. *)
Lemma compile_fuel (n m : nat) (source : string) (c : Compiler.t)
    (x : Compiler.CompilationResult * Compiler.t) :
  n <= m -> Compiler.compile n source c = Some x -> Compiler.compile m source c = Some x.
Proof.
  intros Hle H. unfold Compiler.compile in *.
  destruct (Lexer.tokenize source) as [tokens|e]; [|exact H].
  destruct (Parser.parse n tokens) as [ast current|e current|] eqn:E; [| |discriminate].
  - rewrite (parse_fuel tokens n m _ Hle E) by discriminate.
    destruct (SemanticAnalyzer.analyze ast (Compiler.semanticAnalyzer c))
      as [errs analyzer|e analyzer]; [|exact H].
    destruct (0 <? List.length errs)%nat; [exact H|].
    destruct (IRGenerator.generate ast) as [ir|e]; [|exact H].
    unfold Optimizer.optimize in *.
    destruct (Optimizer.optimizeLoop n ir) as [r|] eqn:Eo; [|discriminate].
    now rewrite (optimizeLoop_fuel n m ir r Hle Eo).
  - rewrite (parse_fuel tokens n m _ Hle E) by discriminate. exact H.
Qed.

Lemma parseSource_fuel (n m : nat) (source : string) (r : Parser.Result Parser.ASTNode) :
  n <= m -> parseSource n source = Some r -> r <> Parser.OutOfFuel ->
  parseSource m source = Some r.
Proof.
  intros Hle H Hr. unfold parseSource in *.
  destruct (Lexer.tokenize source) as [tokens|e]; [|discriminate].
  injection H as H. now rewrite (parse_fuel tokens n m r Hle H Hr).
Qed.

Lemma analyzeSource_fuel (n m : nat) (source : string) (messages : list string) :
  n <= m -> analyzeSource n source = Some messages ->
  analyzeSource m source = Some messages.
Proof.
  intros Hle H. unfold analyzeSource in *.
  destruct (parseSource n source) as [[ast current|e current|]|] eqn:E; try discriminate.
  now rewrite (parseSource_fuel n m source _ Hle E) by discriminate.
Qed.

Lemma generateSource_fuel (n m : nat) (source : string) (o : IRGenerator.Outcome) :
  n <= m -> generateSource n source = Some o -> generateSource m source = Some o.
Proof.
  intros Hle H. unfold generateSource in *.
  destruct (parseSource n source) as [[ast current|e current|]|] eqn:E; try discriminate.
  now rewrite (parseSource_fuel n m source _ Hle E) by discriminate.
Qed.

Lemma report_fuel (n m : nat) (source : string) (c : Compiler.t)
    (x : bool * list Compiler.Diagnostic) :
  n <= m -> report (Compiler.compile n source c) = Some x ->
  report (Compiler.compile m source c) = Some x.
Proof.
  intros Hle H.
  destruct (Compiler.compile n source c) as [y|] eqn:E; [|discriminate].
  now rewrite (compile_fuel n m source c y Hle E).
Qed.

Lemma compileAgain_fuel (n m : nat) (first second : string) (c : Compiler.t)
    (x : bool * list Compiler.Diagnostic) :
  n <= m -> report (compileAgain n first second c) = Some x ->
  report (compileAgain m first second c) = Some x.
Proof.
  intros Hle H. unfold compileAgain in *.
  destruct (Compiler.compile n first c) as [[r1 c1]|] eqn:E; [|discriminate].
  rewrite (compile_fuel n m first c _ Hle E).
  now apply (report_fuel n m).
Qed.

(** Under no bound does [compile] return on the program that returns a
    string literal: a bound too small for the parser is reached there,
    any other in the optimizer. *)
Lemma compile_stringReturn (fuel : nat) :
  Compiler.compile fuel stringReturnSource Compiler.new = None.
Proof.
  assert (Ht : Lexer.tokenize stringReturnSource = Lexer.Ok stringReturnTokens)
    by (vm_compute; reflexivity).
  assert (Hp : Parser.parse 20 stringReturnTokens = Parser.Ok stringReturnAst 3)
    by (vm_compute; reflexivity).
  assert (Ha : SemanticAnalyzer.analyze stringReturnAst
                 (Compiler.semanticAnalyzer Compiler.new)
               = SemanticAnalyzer.Returns [] SemanticAnalyzer.new)
    by (vm_compute; reflexivity).
  assert (Hg : IRGenerator.generate stringReturnAst = IRGenerator.Generated stringReturnIR)
    by (vm_compute; reflexivity).
  unfold Compiler.compile. rewrite Ht.
  destruct (Parser.parse fuel stringReturnTokens) as [ast current|e current|] eqn:E;
    [| |reflexivity].
  - assert (Hr : Parser.Ok ast current = Parser.Ok stringReturnAst 3).
    { destruct (Nat.le_ge_cases fuel 20) as [Hle|Hge].
      + rewrite <- Hp. symmetry.
        apply (parse_fuel _ fuel 20 _ Hle E). discriminate.
      + rewrite <- E. apply (parse_fuel _ 20 fuel _ Hge Hp). discriminate. }
    injection Hr as -> ->.
    rewrite Ha. cbn [List.length Nat.ltb Nat.leb]. rewrite Hg.
    now rewrite stringReturnIR_diverges.
  - exfalso.
    destruct (Nat.le_ge_cases fuel 20) as [Hle|Hge].
    + pose proof (parse_fuel _ fuel 20 _ Hle E) as H. rewrite Hp in H.
      enough (Parser.Ok stringReturnAst 3 = Parser.Throw e current) by discriminate.
      apply H. discriminate.
    + pose proof (parse_fuel _ 20 fuel _ Hge Hp) as H. rewrite E in H.
      enough (Parser.Throw e current = Parser.Ok stringReturnAst 3) by discriminate.
      apply H. discriminate.
Qed.

End CompilerFuel.

(* ================================================================= *)
(** ** Properties of the IR generator *)

Section IRGeneratorFacts.
Import JS Parser IRGenerator.

(** [generateBinaryExpression] once both operands are generated: the
    result temporary is created, then the operator decides between an
    instruction and the error. *)
Lemma generateIR_binary (operator : string) (lhs rhs : ASTNode)
    (st st1 st2 : IRGenerator.t) (leftTemp rightTemp : string) :
  generateIR lhs st = Ok leftTemp st1 ->
  generateIR rhs st1 = Ok rightTemp st2 ->
  generateIR (BinaryExpression operator lhs rhs) st =
    match binaryOperation operator with
    | Some operation =>
        Ok ("t" ++ string_of_nat (tempCounter st2))
           (mk (instructions st2 ++
                  [mkInstr operation
                     [VStr leftTemp; VStr rightTemp;
                      VStr ("t" ++ string_of_nat (tempCounter st2))]])
               (S (tempCounter st2)) (labelCounter st2))
    | None =>
        Throw (mkIRGenerationError ("Unknown binary operator: " ++ operator)
                 (BinaryExpression operator lhs rhs))
              (mk (instructions st2) (S (tempCounter st2)) (labelCounter st2))
    end.
Proof.
  intros Hl Hr. cbn [generateIR]. unfold bind at 1. rewrite Hl.
  unfold bind at 1. rewrite Hr.
  unfold bind at 1, createTemp at 1.
  destruct (binaryOperation operator); reflexivity.
Qed.

End IRGeneratorFacts.

(* ================================================================= *)
(** ** Induction over syntax trees *)

Section ASTInduction.
Import Parser.
Variable P : ASTNode -> Prop.
Hypothesis HProgram : forall body, Forall P body -> P (Program body).
Hypothesis HVariableDeclaration :
  forall name initializer,
    match initializer with Some e => P e | None => True end -> P (VariableDeclaration name initializer).
Hypothesis HFunctionDeclaration :
  forall name params body, P body -> P (FunctionDeclaration name params body).
Hypothesis HBlockStatement : forall body, Forall P body -> P (BlockStatement body).
Hypothesis HExpressionStatement :
  forall expression, P expression -> P (ExpressionStatement expression).
Hypothesis HIfStatement :
  forall condition thenBranch elseBranch,
    P condition -> P thenBranch -> match elseBranch with Some e => P e | None => True end ->
    P (IfStatement condition thenBranch elseBranch).
Hypothesis HWhileStatement :
  forall condition body, P condition -> P body -> P (WhileStatement condition body).
Hypothesis HForStatement :
  forall initializer condition increment body,
    match initializer with Some e => P e | None => True end ->
    match condition with Some e => P e | None => True end ->
    match increment with Some e => P e | None => True end ->
    P body -> P (ForStatement initializer condition increment body).
Hypothesis HReturnStatement :
  forall value, match value with Some e => P e | None => True end -> P (ReturnStatement value).
Hypothesis HBinaryExpression :
  forall operator lhs rhs, P lhs -> P rhs -> P (BinaryExpression operator lhs rhs).
Hypothesis HUnaryExpression :
  forall operator argument, P argument -> P (UnaryExpression operator argument).
Hypothesis HLogicalExpression :
  forall operator lhs rhs, P lhs -> P rhs -> P (LogicalExpression operator lhs rhs).
Hypothesis HAssignmentExpression :
  forall operator lhs rhs, P lhs -> P rhs -> P (AssignmentExpression operator lhs rhs).
Hypothesis HCallExpression :
  forall callee arguments,
    P callee -> Forall P arguments -> P (CallExpression callee arguments).
Hypothesis HMemberExpression :
  forall object property, P object -> P property -> P (MemberExpression object property).
Hypothesis HIdentifier : forall name, P (Identifier name).
Hypothesis HLiteral : forall value, P (Literal value).
Hypothesis HGroupExpression :
  forall expression, P expression -> P (GroupExpression expression).

(** Induction over syntax trees, with the hypothesis for every child
    in a list or an optional field. *)
Lemma ASTNode_induction : forall node, P node.
Proof.
  fix IH 1. intros node.
  destruct node as [body|name initializer|name params body|body|expression
                   |condition thenBranch elseBranch|condition body
                   |initializer condition increment body|value
                   |operator lhs rhs|operator argument|operator lhs rhs
                   |operator lhs rhs|callee arguments|object property|name|value
                   |expression].
  - apply HProgram. induction body as [|x l IHl]; constructor; [apply IH|exact IHl].
  - apply HVariableDeclaration. destruct initializer; [apply IH|exact I].
  - apply HFunctionDeclaration, IH.
  - apply HBlockStatement.
    induction body as [|x l IHl]; constructor; [apply IH|exact IHl].
  - apply HExpressionStatement, IH.
  - apply HIfStatement; [apply IH|apply IH|destruct elseBranch; [apply IH|exact I]].
  - apply HWhileStatement; apply IH.
  - apply HForStatement;
      [ destruct initializer; [apply IH|exact I]
      | destruct condition; [apply IH|exact I]
      | destruct increment; [apply IH|exact I]
      | apply IH ].
  - apply HReturnStatement. destruct value; [apply IH|exact I].
  - apply HBinaryExpression; apply IH.
  - apply HUnaryExpression; apply IH.
  - apply HLogicalExpression; apply IH.
  - apply HAssignmentExpression; apply IH.
  - apply HCallExpression; [apply IH|].
    induction arguments as [|x l IHl]; constructor; [apply IH|exact IHl].
  - apply HMemberExpression; apply IH.
  - apply HIdentifier.
  - apply HLiteral.
  - apply HGroupExpression, IH.
Qed.

End ASTInduction.

(* ================================================================= *)
(** ** The tokens of the lexer *)

Section LexerTokens.
Import JS Lexer.

Lemma appended_refl (st : State.t) : appended st st [].
Proof. unfold appended. now rewrite app_nil_r. Qed.

Lemma appended_trans (s1 s2 s3 : State.t) (l1 l2 : list Token) :
  appended s1 s2 l1 -> appended s2 s3 l2 -> appended s1 s3 (l1 ++ l2).
Proof. unfold appended. intros H1 H2. now rewrite H2, H1, app_assoc. Qed.

Lemma match_tokens (c : ascii) (st : State.t) :
  State.tokens (snd (match_ c st)) = State.tokens st.
Proof.
  unfold match_. destruct (isAtEnd st); [reflexivity|].
  destruct (String.get _ _) as [c'|]; [|reflexivity].
  now destruct (Ascii.eqb c' c).
Qed.

Lemma skipComment_tokens (fuel : nat) :
  forall st, State.tokens (skipComment fuel st) = State.tokens st.
Proof.
  induction fuel as [|fuel IH]; intros st; cbn [skipComment]; [reflexivity|].
  destruct (_ && _); [|reflexivity]. now rewrite IH.
Qed.

Lemma stringChars_tokens (fuel : nat) :
  forall value st, State.tokens (snd (stringChars fuel value st)) = State.tokens st.
Proof.
  induction fuel as [|fuel IH]; intros value st; cbn [stringChars]; [reflexivity|].
  destruct (_ && _); [|reflexivity].
  destruct (Ascii.eqb (peek st) newline); unfold advance; now rewrite IH.
Qed.

Lemma digits_tokens (fuel : nat) :
  forall value st, State.tokens (snd (digits fuel value st)) = State.tokens st.
Proof.
  induction fuel as [|fuel IH]; intros value st; cbn [digits]; [reflexivity|].
  destruct (isDigit _); [|reflexivity]. unfold advance. now rewrite IH.
Qed.

Lemma identChars_tokens (fuel : nat) :
  forall value st, State.tokens (snd (identChars fuel value st)) = State.tokens st.
Proof.
  induction fuel as [|fuel IH]; intros value st; cbn [identChars]; [reflexivity|].
  destruct (isAlphaNumeric _); [|reflexivity]. unfold advance. now rewrite IH.
Qed.

Lemma keyword_type (value : string) :
  isKeyword value = true -> In (toUpperCase value) tokenTypes.
Proof.
  unfold isKeyword. intros H. apply existsb_exists in H as [k [Hin Hk]].
  apply String.eqb_eq in Hk. subst k.
  unfold tokenTypes. apply in_or_app. right. now apply in_map.
Qed.


Lemma known_nil : known [].
Proof. split; [cbn; lia|constructor]. Qed.

Lemma known_one (t : Token) : In (type t) tokenTypes -> known [t].
Proof. intros H. split; [cbn; lia|]. constructor; [exact H|constructor]. Qed.

Lemma appended_addToken (st st' : State.t) (type value : string) :
  State.tokens st' = State.tokens st ->
  appended st (addToken type value st')
    [mkToken type value (State.line st')
       (State.column st' - Z.of_nat (String.length value))].
Proof. intros H. unfold appended, addToken. cbn. now rewrite H. Qed.

(** What one call of [scanToken] adds to the token list. *)
Lemma scanToken_appends (st st' : State.t) :
  scanToken st = Ok st' -> exists added, appended st st' added /\ known added.
Proof.
  intros Hscan. unfold scanToken in Hscan.
  destruct (advance st) as [char st1] eqn:Ea.
  assert (Ht : State.tokens st1 = State.tokens st).
  { unfold advance in Ea. now injection Ea as _ <-. }
  destruct char as [c|]; [|discriminate Hscan].
  assert (Hone : forall type value,
             In type tokenTypes ->
             exists added, appended st (addToken type value st1) added /\ known added).
  { intros type value Hin. eexists. split; [apply appended_addToken, Ht|].
    now apply known_one. }
  assert (Hop : forall two one,
             In two tokenTypes -> In one tokenTypes ->
             exists added, appended st (operatorToken c two one st1) added /\ known added).
  { intros two one H2 H1. unfold operatorToken.
    pose proof (match_tokens "=" st1) as M1.
    destruct (match_ "=" st1) as [m1 s1]. cbn [snd] in M1.
    pose proof (match_tokens "=" s1) as M2.
    destruct (match_ "=" s1) as [m2 s2]. cbn [snd] in M2.
    eexists. split; [apply appended_addToken; congruence|].
    apply known_one. cbn [type]. now destruct m1. }
  assert (Hnone : forall s, State.tokens s = State.tokens st ->
                            exists added, appended st s added /\ known added).
  { intros s Hs. exists []. split; [|exact known_nil].
    unfold appended. now rewrite app_nil_r. }
  assert (Hslash : exists added,
             appended st
               (let (m, st2) := match_ "/" st1 in
                if m then skipComment (remaining st2) st2
                else addToken "SLASH" (String c "") st2) added /\ known added).
  { pose proof (match_tokens "/" st1) as M1.
    destruct (match_ "/" st1) as [m s1]. cbn [snd] in M1. destruct m.
    - apply Hnone. rewrite skipComment_tokens. congruence.
    - eexists. split; [apply appended_addToken; congruence|].
      apply known_one. cbn. tauto. }
  assert (Hstring : forall s, string_ st1 = Ok s ->
                              exists added, appended st s added /\ known added).
  { intros s. unfold string_.
    pose proof (stringChars_tokens (remaining st1) "" st1) as Hs.
    destruct (stringChars _ _ _) as [value s1]. cbn [snd] in Hs.
    destruct (isAtEnd s1); [discriminate|]. intros H. injection H as <-.
    eexists. split; [apply appended_addToken; cbn; congruence|].
    apply known_one. cbn. tauto. }
  assert (Hnumber : exists added, appended st (number st1) added /\ known added).
  { unfold number.
    pose proof (digits_tokens (remaining st1) (currentChar st1) st1) as Hd.
    destruct (digits _ _ _) as [value s1]. cbn [snd] in Hd.
    destruct (Ascii.eqb (peek s1) "." && isDigit (peekNext s1)).
    - destruct (advance s1) as [c1 s2] eqn:Ea2.
      assert (State.tokens s2 = State.tokens s1)
        by (unfold advance in Ea2; now injection Ea2 as _ <-).
      pose proof (digits_tokens (remaining s2) (append_char value c1) s2) as Hd2.
      destruct (digits _ _ _) as [value2 s3]. cbn [snd] in Hd2.
      eexists. split; [apply appended_addToken; congruence|].
      apply known_one. cbn. tauto.
    - eexists. split; [apply appended_addToken; congruence|].
      apply known_one. cbn. tauto. }
  assert (Hident : exists added, appended st (identifier st1) added /\ known added).
  { unfold identifier.
    pose proof (identChars_tokens (remaining st1) (currentChar st1) st1) as Hd.
    destruct (identChars _ _ _) as [value s1]. cbn [snd] in Hd.
    eexists. split; [apply appended_addToken; congruence|].
    apply known_one. cbn [type].
    destruct (isKeyword value) eqn:E; [now apply keyword_type|cbn; tauto]. }
  destruct (match_ "/" st1) as [m st2] eqn:Em.
  destruct c as [[] [] [] [] [] [] [] []]; cbv iota beta in Hscan;
    try discriminate Hscan;
    try (injection Hscan as <-);
    try solve [ apply Hone; cbn; tauto
              | apply Hop; cbn; tauto
              | apply Hnone; cbn; congruence
              | exact Hslash
              | apply Hstring; exact Hscan
              | exact Hnumber
              | exact Hident
              | destruct m; injection Hscan as <-; exact Hslash ].
Qed.

(** The loop of [tokenize]: every pass consumes at least one character
    and appends at most one token, of a known kind. *)
Lemma scanTokens_appends (fuel : nat) :
  forall st st',
    State.position st <= String.length (State.source st) ->
    scanTokens fuel st = Ok st' ->
    exists added,
      appended st st' added
      /\ Forall (fun t => In (type t) tokenTypes) added
      /\ List.length added + remaining st' <= remaining st
      /\ State.source st' = State.source st.
Proof.
  induction fuel as [|fuel IH]; intros st st' Hpos H; cbn [scanTokens] in H.
  - injection H as <-. exists []. split; [apply appended_refl|]. cbn. auto.
  - destruct (isAtEnd st) eqn:E.
    + injection H as <-. exists []. split; [apply appended_refl|]. cbn. auto.
    + destruct (scanToken st) as [st1|e] eqn:Es; [|discriminate].
      destruct (scanToken_moves _ _ E Es) as [Hs [Hlt Hle]].
      destruct (scanToken_appends _ _ Es) as [l1 [Ha1 [Hlen1 Hk1]]].
      destruct (IH st1 st') as [l2 [Ha2 [Hk2 [Hlen2 Hs2]]]];
        [rewrite Hs; exact Hle | exact H |].
      exists (l1 ++ l2)%list. split; [exact (appended_trans _ _ _ _ _ Ha1 Ha2)|].
      split; [apply Forall_app; now split|].
      split; [|congruence].
      rewrite length_app. unfold remaining in *. rewrite Hs in Hlen2. lia.
Qed.

(** Every token [tokenize] returns has one of the kinds in
    [tokenTypes].  None has the kind AND, OR or CLASS, which the
    parser tests for in [logicalAnd], [logicalOr] and [synchronize]. *)
Theorem tokenize_token_types :
  forall source tokens t,
    tokenize source = Ok tokens -> In t tokens ->
    In (type t) tokenTypes
    /\ type t <> "AND" /\ type t <> "OR" /\ type t <> "CLASS".
Proof.
  intros source tokens t H Hin.
  assert (Hknown : In (type t) tokenTypes).
  { unfold tokenize in H.
    destruct (scanTokens (String.length source) (State.mk source 0 1 1 [])) as [st|e] eqn:E;
      [|discriminate].
    injection H as <-.
    destruct (scanTokens_appends _ (State.mk source 0 1 1 []) st (Nat.le_0_l _) E) as [added [Ha [Hk _]]].
    unfold appended in Ha. cbn [State.tokens app] in Ha.
    unfold addToken in Hin. cbn [State.tokens] in Hin. rewrite Ha in Hin.
    apply in_app_or in Hin as [Hin|[<-|[]]].
    - rewrite Forall_forall in Hk. now apply Hk.
    - cbn. tauto. }
  split; [exact Hknown|].
  repeat split; intros Heq; rewrite Heq in Hknown; vm_compute in Hknown;
    repeat (destruct Hknown as [Hknown|Hknown]; [discriminate Hknown|]); exact Hknown.
Qed.

Lemma tokenize_token_types_witness :
  In (type (mkToken "VAR" "var" 1 1)) tokenTypes
  /\ type (mkToken "VAR" "var" 1 1) <> "AND"
  /\ type (mkToken "VAR" "var" 1 1) <> "OR"
  /\ type (mkToken "VAR" "var" 1 1) <> "CLASS".
Proof.
  apply (tokenize_token_types "var x;"
           [mkToken "VAR" "var" 1 1; mkToken "IDENTIFIER" "x" 1 5;
            mkToken "SEMICOLON" ";" 1 6; mkToken "EOF" "" 1 7]).
  - vm_compute. reflexivity.
  - left. reflexivity.
Defined.

(** The scan of a text appends at most one token per character. *)
Lemma scanTokens_count (source : string) (st : State.t) :
  scanTokens (String.length source) (State.mk source 0 1 1 []) = Ok st ->
  List.length (State.tokens st) <= String.length source.
Proof.
  intros E.
  destruct (scanTokens_appends _ (State.mk source 0 1 1 []) st (Nat.le_0_l _) E)
    as [added [Ha [_ [Hlen _]]]].
  unfold appended in Ha. cbn [State.tokens app] in Ha. rewrite Ha.
  unfold remaining in Hlen. cbn [State.source State.position] in Hlen. lia.
Qed.

(** [tokenize] returns at most one token per character of the text,
    and the end-of-input token. *)
Theorem tokenize_token_count :
  forall source tokens,
    tokenize source = Ok tokens ->
    1 <= List.length tokens <= String.length source + 1.
Proof.
  intros source tokens H. unfold tokenize in H.
  destruct (scanTokens (String.length source) (State.mk source 0 1 1 [])) as [st|e] eqn:E;
    [|discriminate].
  injection H as <-. pose proof (scanTokens_count _ _ E) as Hcount.
  unfold addToken. cbn [State.tokens]. rewrite length_app. cbn [List.length]. lia.
Qed.

Lemma tokenize_token_count_witness :
  1 <= List.length
         [mkToken "VAR" "var" 1 1; mkToken "IDENTIFIER" "x" 1 5;
          mkToken "SEMICOLON" ";" 1 6; mkToken "EOF" "" 1 7]
    <= String.length "var x;" + 1.
Proof.
  apply (tokenize_token_count "var x;"). vm_compute. reflexivity.
Defined.


End LexerTokens.

(* ================================================================= *)
(** ** Lexical errors and string literals *)

Section LexerErrors.
Import JS Lexer.

Lemma get_inside (s : string) :
  forall n, n < String.length s -> exists c, String.get n s = Some c.
Proof.
  induction s as [|a s IH]; intros [|n] H; cbn in *; try lia.
  - now exists a.
  - apply IH. lia.
Qed.

Lemma peek_get (st : State.t) (c : ascii) :
  String.get (State.position st) (State.source st) = Some c -> peek st = c.
Proof.
  intros H. unfold peek, isAtEnd. apply get_lt in H as Hlt.
  apply Nat.leb_gt in Hlt. now rewrite Hlt, H.
Qed.

Lemma scanToken_unexpected (st : State.t) (c : ascii) :
  String.get (State.position st) (State.source st) = Some c ->
  existsb (Ascii.eqb c) switchCharacters = false ->
  isDigit c = false -> isAlpha c = false ->
  scanToken st =
    Throw (mkLexicalError ("Unexpected character: " ++ String c "")
             (State.line st) (State.column st)).
Proof.
  intros H Hs Hd Ha. unfold scanToken, advance. rewrite H. cbv iota beta.
  cbn [State.line State.column].
  rewrite Z.add_simpl_r.
  destruct c as [[] [] [] [] [] [] [] []];
    try (vm_compute in Hs; discriminate Hs);
    try (vm_compute in Hd; discriminate Hd);
    try (vm_compute in Ha; discriminate Ha); reflexivity.
Qed.

(** A character that has no case in the switch of [scanToken] and is
    neither a digit, a letter nor an underscore makes [scanToken] throw
    a LexicalError that names the character and carries the line and
    the column of that character; at the start of the text that is
    line 1, column 1. *)
Theorem unexpected_character_is_reported :
  forall c,
    existsb (Ascii.eqb c) switchCharacters = false ->
    isDigit c = false -> isAlpha c = false ->
    (forall st,
        String.get (State.position st) (State.source st) = Some c ->
        scanToken st =
          Throw (mkLexicalError ("Unexpected character: " ++ String c "")
                   (State.line st) (State.column st)))
    /\ (forall rest,
          tokenize (String c rest) =
            Throw (mkLexicalError ("Unexpected character: " ++ String c "") 1 1)).
Proof.
  intros c Hs Hd Ha. split.
  - intros st H. now apply scanToken_unexpected.
  - intros rest. unfold tokenize. cbn [String.length scanTokens].
    unfold isAtEnd. cbn [State.source State.position String.length Nat.leb].
    rewrite (scanToken_unexpected _ c); auto.
Qed.

Lemma unexpected_character_is_reported_witness :
  (forall st,
      String.get (State.position st) (State.source st) = Some "&"%char ->
      scanToken st =
        Throw (mkLexicalError "Unexpected character: &" (State.line st) (State.column st)))
  /\ (forall rest,
        tokenize (String "&" rest) =
          Throw (mkLexicalError "Unexpected character: &" 1 1)).
Proof.
  apply (unexpected_character_is_reported "&"); reflexivity.
Defined.


(** *** String literals *)

Lemma quote_newline : Ascii.eqb quote newline = false.
Proof. reflexivity. Qed.

(** The loop of [string()] over [k] characters that are neither a
    quote nor a newline, with a quote behind them. *)
Lemma stringChars_plain (k : nat) :
  forall fuel value st,
    k <= fuel ->
    plainStringBody (State.source st) (State.position st) k ->
    String.get (State.position st + k) (State.source st) = Some quote ->
    stringChars fuel value st =
      (value ++ String.substring (State.position st) k (State.source st),
       State.mk (State.source st) (State.position st + k) (State.line st)
         (State.column st + Z.of_nat k) (State.tokens st)).
Proof.
  induction k as [|k IH]; intros fuel value st Hfuel Hbody Hquote.
  - rewrite Nat.add_0_r in Hquote.
    rewrite substring_zero, append_empty.
    replace (State.mk _ _ _ _ _) with st
      by (destruct st; cbn; f_equal; lia).
    destruct fuel as [|fuel]; [reflexivity|]. cbn [stringChars].
    now rewrite (peek_get _ _ Hquote), Ascii.eqb_refl.
  - destruct fuel as [|fuel]; [lia|]. cbn [stringChars].
    destruct (get_inside (State.source st) (State.position st)) as [c Hc];
      [apply get_lt in Hquote; lia|].
    destruct (Hbody 0 c ltac:(lia) ltac:(now rewrite Nat.add_0_r)) as [Hq Hn].
    apply get_lt in Hc as Hlt. apply Nat.leb_gt in Hlt as Hend.
    rewrite (peek_get _ _ Hc).
    apply Ascii.eqb_neq in Hq, Hn. rewrite Hq, Hn.
    unfold isAtEnd. rewrite Hend. cbn [negb andb].
    unfold advance. rewrite Hc. cbn [append_char].
    rewrite IH; cbn [State.source State.position State.line State.column State.tokens].
    + f_equal.
      * change (S k) with (1 + k).
        rewrite substring_add, (substring_one _ _ _ Hc), !append_assoc.
        reflexivity.
      * f_equal; lia.
    + lia.
    + intros i c' Hi Hget. apply (Hbody (S i) c'); [lia|].
      now rewrite <- Hget; f_equal; lia.
    + rewrite <- Hquote. f_equal. lia.
Qed.

Lemma scanToken_quote (st : State.t) :
  String.get (State.position st) (State.source st) = Some quote ->
  scanToken st = string_ (snd (advance st)).
Proof. intros H. unfold scanToken, advance. rewrite H. reflexivity. Qed.

(** A string literal on one line: the token holds the characters
    between the quotes, unchanged, and the scanner stops behind the
    closing quote.  The column of the token is the column behind the
    literal minus the length of the text between the quotes, which is
    two more than the column of the opening quote. *)
Theorem string_literal_token :
  forall st k,
    String.get (State.position st) (State.source st) = Some quote ->
    plainStringBody (State.source st) (State.position st + 1) k ->
    String.get (State.position st + 1 + k) (State.source st) = Some quote ->
    scanToken st =
      Ok (State.mk (State.source st) (State.position st + k + 2) (State.line st)
            (State.column st + Z.of_nat k + 2)
            (State.tokens st ++
               [mkToken "STRING"
                  (String.substring (State.position st + 1) k (State.source st))
                  (State.line st) (State.column st + 2)])).
Proof.
  intros st k Hopen Hbody Hclose.
  rewrite (scanToken_quote _ Hopen). unfold string_.
  apply get_lt in Hclose as Hlt.
  rewrite (stringChars_plain k);
    cbn [advance snd State.source State.position State.line State.column State.tokens];
    [ | unfold remaining; cbn; lia | exact Hbody | exact Hclose ].
  cbn [append]. unfold isAtEnd.
  cbn [State.source State.position].
  apply Nat.leb_gt in Hlt as Hend. rewrite Hend.
  unfold addToken, advance.
  cbn [snd State.source State.position State.line State.column State.tokens].
  rewrite substring_length by lia.
  do 2 f_equal; [lia|lia|]. do 3 f_equal. lia.
Qed.

Lemma string_literal_token_witness :
  scanToken (State.mk ("x = " ++ String quote ("hi" ++ String quote ";")) 4 1 5 []) =
    Ok (State.mk ("x = " ++ String quote ("hi" ++ String quote ";")) 8 1 9
          [mkToken "STRING" "hi" 1 7]).
Proof.
  apply (string_literal_token
           (State.mk ("x = " ++ String quote ("hi" ++ String quote ";")) 4 1 5 []) 2).
  - reflexivity.
  - intros [|[|i]] c Hi H; [| |lia]; vm_compute in H; injection H as <-;
      split; discriminate.
  - reflexivity.
Defined.

(** The loop of [string()] where no quote is left: it runs to the end
    of the text, counting the newlines it passes. *)
Lemma stringChars_to_end (fuel : nat) :
  forall value st,
    State.position st <= String.length (State.source st) ->
    remaining st <= fuel ->
    noQuoteFrom (State.source st) (State.position st) ->
    isAtEnd (snd (stringChars fuel value st)) = true
    /\ State.line (snd (stringChars fuel value st)) =
       (State.line st + newlines (JS.substring_from (State.position st) (State.source st)))%Z.
Proof.
  induction fuel as [|fuel IH]; intros value st Hpos Hfuel Hno; cbn [stringChars].
  - cbn [snd]. assert (State.position st = String.length (State.source st)) as Heq
      by (unfold remaining in Hfuel; lia).
    split; [apply isAtEnd_true; [exact Hpos|unfold remaining; lia]|].
    unfold substring_from. rewrite Heq, Nat.sub_diag, substring_zero. cbn. lia.
  - destruct (isAtEnd st) eqn:E.
    + rewrite andb_false_r. cbn [snd]. split; [exact E|].
      unfold isAtEnd in E. apply Nat.leb_le in E.
      unfold substring_from.
      replace (String.length (State.source st) - State.position st) with 0 by lia.
      rewrite substring_zero. cbn. lia.
    + apply isAtEnd_false in E as Hlt.
      destruct (get_inside _ _ Hlt) as [c Hc].
      rewrite (peek_get _ _ Hc).
      assert (Hq : Ascii.eqb c quote = false).
      { apply Ascii.eqb_neq. intros ->. exact (Hno _ (Nat.le_refl _) Hc). }
      rewrite Hq. cbn [negb andb].
      assert (Hsub : substring_from (State.position st) (State.source st)
                     = String c (substring_from (State.position st + 1) (State.source st))).
      { unfold substring_from.
        replace (String.length (State.source st) - State.position st)
          with (1 + (String.length (State.source st) - (State.position st + 1))) by lia.
        now rewrite substring_add, (substring_one _ _ _ Hc). }
      rewrite Hsub. cbn [newlines].
      destruct (Ascii.eqb c newline); unfold advance;
        cbn [State.source State.position State.line State.column State.tokens];
        match goal with
        | |- context [stringChars fuel ?v ?s] =>
            destruct (IH v s) as [Hend Hline];
            [ cbn; lia | unfold remaining in *; cbn; lia
            | intros i Hi; apply Hno; cbn in Hi; lia | ]
        end;
        cbn [State.source State.position State.line] in Hline;
        (split; [exact Hend|rewrite Hline; lia]).
Qed.

(** A string literal that is not closed: [scanToken] throws
    "Unterminated string" with the line on which the text ends and the
    column of the opening quote. *)
Theorem unterminated_string_is_reported :
  forall st,
    String.get (State.position st) (State.source st) = Some quote ->
    noQuoteFrom (State.source st) (State.position st + 1) ->
    scanToken st =
      Throw (mkLexicalError "Unterminated string"
               (State.line st
                + newlines (substring_from (State.position st + 1) (State.source st)))
               (State.column st)).
Proof.
  intros st Hopen Hno. rewrite (scanToken_quote _ Hopen). unfold string_.
  apply get_lt in Hopen as Hlt.
  destruct (stringChars_to_end (remaining (snd (advance st))) "" (snd (advance st)))
    as [Hend Hline]; [cbn; lia | lia | exact Hno |].
  destruct (stringChars _ _ _) as [value st1]. cbn [snd] in Hend, Hline.
  rewrite Hend, Hline. cbn [advance snd State.line State.column State.position State.source].
  now rewrite Z.add_simpl_r.
Qed.

Lemma unterminated_string_is_reported_witness :
  scanToken
    (State.mk ("x = " ++ String quote ("a" ++ String newline "b")) 4 1 5 []) =
    Throw (mkLexicalError "Unterminated string" 2 5).
Proof.
  apply (unterminated_string_is_reported
           (State.mk ("x = " ++ String quote ("a" ++ String newline "b")) 4 1 5 [])).
  - reflexivity.
  - intros i Hi. cbn in Hi.
    do 5 (destruct i as [|i]; [lia|]).
    do 3 (destruct i as [|i]; [vm_compute; discriminate|]).
    vm_compute. discriminate.
Defined.


End LexerErrors.

(* ================================================================= *)
(** ** What the parser returns *)

Section ParserResult.
Import Parser.
Open Scope parser_scope.
Variable tokens : list Token.

Lemma programStatements_at_end (fuel : nat) :
  forall statements result current current',
    programStatements tokens fuel statements current = Ok result current' ->
    exists t, nth_error tokens current' = Some t /\ Lexer.type t = "EOF".
Proof.
  induction fuel as [|fuel IH]; intros statements result current current' H;
    [discriminate H|].
  cbn [programStatements] in H.
  cbv beta iota zeta delta [bind isAtEnd peek ret] in H.
  destruct (nth_error tokens current) as [t|] eqn:Et; [|discriminate H].
  destruct (String.eqb (Lexer.type t) "EOF") eqn:Eeof; cbn [negb] in H.
  - injection H as _ <-. exists t. split; [exact Et|]. now apply String.eqb_eq.
  - destruct (declaration tokens fuel current) as [d c1|e c1|]; try discriminate H.
    exact (IH _ _ _ _ H).
Qed.

(** When [parse] returns a tree, the tree is a Program node and the
    parser has stopped at a token of kind EOF: every token before it
    has been consumed. *)
Theorem parse_stops_at_EOF :
  forall fuel ast current,
    parse fuel tokens = Ok ast current ->
    exists body t,
      ast = Program body
      /\ nth_error tokens current = Some t /\ Lexer.type t = "EOF".
Proof.
  intros fuel ast current H. cbv beta iota zeta delta [parse tryCatch program bind ret] in H.
  destruct (programStatements tokens fuel [] 0) as [body c|e c|] eqn:E;
    try discriminate H.
  injection H as <- <-. exists body.
  destruct (programStatements_at_end _ _ _ _ _ E) as [t Ht].
  exists t. split; [reflexivity|exact Ht].
Qed.

End ParserResult.

Lemma parse_stops_at_EOF_witness :
  exists body t,
    Examples.duplicateAst = Parser.Program body
    /\ nth_error Examples.duplicateTokens 6 = Some t /\ Lexer.type t = "EOF".
Proof.
  apply (parse_stops_at_EOF Examples.duplicateTokens 20). vm_compute. reflexivity.
Defined.


(* ================================================================= *)
(** ** The parser returns on every token list *)

Section ParserTermination.
Import Parser.
Open Scope parser_scope.
Variable tokens : list Token.


Lemma returns_ret {A} (a : A) (c : nat) (post : A -> nat -> Prop) :
  post a c -> returns (ret a) c post.
Proof. exact (fun H => H). Qed.

Lemma returns_throw {A} (e : Error) (c : nat) (post : A -> nat -> Prop) :
  returns (throw e) c post.
Proof. exact I. Qed.

Lemma returns_bind {A B} (m : M A) (k : A -> M B) (c : nat) (post : B -> nat -> Prop) :
  returns m c (fun a c' => returns (k a) c' post) -> returns (bind m k) c post.
Proof. unfold returns, bind. destruct (m c); auto. Qed.

Lemma returns_weaken {A} (m : M A) (c : nat) (p q : A -> nat -> Prop) :
  returns m c p -> (forall a c', p a c' -> q a c') -> returns m c q.
Proof. unfold returns. destruct (m c); auto. Qed.

Lemma returns_peek (c : nat) (post : Token -> nat -> Prop) :
  (forall t, post t c) -> returns (peek tokens) c post.
Proof. intros H. unfold returns, peek. destruct (nth_error tokens c); auto. Qed.

Lemma returns_previousToken (c : nat) (post : option Token -> nat -> Prop) :
  (forall t, post t c) -> returns (previousToken tokens) c post.
Proof. intros H. unfold returns, previousToken. apply H. Qed.

Lemma returns_previous (c : nat) (post : Token -> nat -> Prop) :
  (forall t, post t c) -> returns (previous tokens) c post.
Proof.
  intros H. unfold previous. apply returns_bind, returns_previousToken.
  intros [t|]; [apply returns_ret, H|apply returns_throw].
Qed.

Lemma returns_isAtEnd (c : nat) (post : bool -> nat -> Prop) :
  (forall b, post b c) -> returns (isAtEnd tokens) c post.
Proof.
  intros H. unfold isAtEnd. apply returns_bind, returns_peek.
  intros t. apply returns_ret, H.
Qed.

Lemma returns_check (type : string) (c : nat) (post : bool -> nat -> Prop) :
  (forall b, post b c) -> returns (check tokens type) c post.
Proof.
  intros H. unfold check. apply returns_bind, returns_isAtEnd.
  intros [|]; [apply returns_ret, H|].
  apply returns_bind, returns_peek. intros t. apply returns_ret, H.
Qed.

(** Where [check] answers [true] the parser is not at the end, and
    [advance] moves on by one token. *)
Lemma check_advance (type : string) (c c' : nat) :
  check tokens type c = Ok true c' ->
  c' = c /\ c < List.length tokens
  /\ advance tokens c = Ok (nth_error tokens c) (S c).
Proof.
  cbv beta iota zeta delta [check isAtEnd peek bind ret advance previousToken].
  destruct (nth_error tokens c) as [t|] eqn:Et; [|discriminate].
  destruct (String.eqb (Lexer.type t) "EOF"); [discriminate|].
  rewrite ?Et. cbv beta iota.
  intros H. injection H as _ <-.
  split; [reflexivity|]. split; [|reflexivity].
  apply nth_error_Some. rewrite Et. discriminate.
Qed.

Lemma check_same (type : string) (c c' : nat) (b : bool) :
  check tokens type c = Ok b c' -> c' = c.
Proof.
  cbv beta iota zeta delta [check isAtEnd peek bind ret].
  destruct (nth_error tokens c) as [t|] eqn:Et; [|discriminate].
  destruct (String.eqb (Lexer.type t) "EOF"); rewrite ?Et; cbv beta iota;
    intros H; now injection H.
Qed.

Lemma returns_match (types : list string) (c : nat) (post : bool -> nat -> Prop) :
  post false c -> (forall c', remaining tokens c' < remaining tokens c -> post true c') ->
  returns (match_ tokens types) c post.
Proof.
  intros Hfalse Htrue. induction types as [|type rest IH]; cbn [match_].
  - apply returns_ret, Hfalse.
  - unfold returns, bind.
    destruct (check tokens type c) as [b c1|e c1|] eqn:E; [|exact I|].
    + destruct b.
      * destruct (check_advance _ _ _ E) as [-> [Hlt ->]]. cbn.
        apply Htrue. unfold remaining. lia.
      * apply check_same in E as ->. exact IH.
    + exfalso. revert E.
      cbv beta iota zeta delta [check isAtEnd peek bind ret].
      destruct (nth_error tokens c) as [t|] eqn:Et; [|discriminate].
      destruct (String.eqb (Lexer.type t) "EOF"); rewrite ?Et; discriminate.
Qed.

Lemma returns_consume (type message : string) (c : nat) (post : Token -> nat -> Prop) :
  (forall t c', remaining tokens c' < remaining tokens c -> post t c') ->
  returns (consume tokens type message) c post.
Proof.
  intros H. unfold returns, consume, bind.
  destruct (check tokens type c) as [b c1|e c1|] eqn:E; [|exact I|].
  - destruct b.
    + destruct (check_advance _ _ _ E) as [-> [Hlt ->]].
      destruct (nth_error tokens c) as [t|] eqn:Et; [|exact I].
      cbn. apply H. unfold remaining. lia.
    + apply check_same in E as ->.
      unfold peek. now destruct (nth_error tokens c).
  - exfalso. revert E.
    cbv beta iota zeta delta [check isAtEnd peek bind ret].
    destruct (nth_error tokens c) as [t|] eqn:Et; [|discriminate].
    destruct (String.eqb (Lexer.type t) "EOF"); rewrite ?Et; discriminate.
Qed.

Lemma returns_tryCatch {A} (body : M A) (handler : Error -> M A) (c : nat)
    (post : A -> nat -> Prop) :
  returns body c post ->
  (forall e c', handler e c' <> OutOfFuel /\ forall a c'', handler e c' <> Ok a c'') ->
  returns (tryCatch body handler) c post.
Proof.
  unfold returns, tryCatch. intros H Hh.
  destruct (body c) as [a c'|e c'|]; auto.
  destruct (Hh e c') as [H1 H2].
  destruct (handler e c') as [a c''|e' c''|]; auto.
  exact (False_ind _ (H2 a c'' eq_refl)).
Qed.

Lemma consumes_le {A} (n n' : nat) (m : M A) :
  n' <= n -> consumes tokens n m -> consumes tokens n' m.
Proof. intros Hle H c Hc. apply H. lia. Qed.


Ltac returns_step :=
  cbv beta;
  lazymatch goal with
  | |- returns (bind _ _) _ _ => apply returns_bind
  | |- returns (ret _) _ _ => apply returns_ret
  | |- returns (throw _) _ _ => apply returns_throw
  | |- returns (peek _) _ _ => apply returns_peek; intros ?
  | |- returns (previousToken _) _ _ => apply returns_previousToken; intros ?
  | |- returns (previous _) _ _ => apply returns_previous; intros ?
  | |- returns (isAtEnd _) _ _ => apply returns_isAtEnd; intros ?
  | |- returns (check _ _) _ _ => apply returns_check; intros ?
  | |- returns (match_ _ _) _ _ => apply returns_match; [|intros ? ?]
  | |- returns (consume _ _ _) _ _ => apply returns_consume; intros ? ? ?
  | |- returns (if ?b then _ else _) _ _ => destruct b
  | |- returns (match ?o with Some _ => _ | None => _ end) _ _ => destruct o
  | |- _ < _ => lia
  | |- _ <= _ => lia
  end.

Ltac returns_use H :=
  cbv beta; eapply returns_weaken; [apply H; lia | cbv beta; intros ? ? ?].

Ltac returns_auto := repeat returns_step.

Lemma parameterList_consumes (fuel : nat) :
  forall parameters, consumes tokens fuel (parameterList tokens fuel parameters).
Proof.
  induction fuel as [|fuel IH]; intros parameters c Hc; [lia|].
  cbn [parameterList]. returns_auto; returns_use IH; returns_auto.
Qed.

Section Expressions.
Variable n : nat.
Variable expression : M ASTNode.
Hypothesis Hexpression : consumes tokens n expression.

Lemma primary_consumes : consumes tokens (S n) (primary tokens expression).
Proof.
  intros c Hc. unfold primary. returns_auto.
  returns_use Hexpression. returns_auto.
Qed.

Lemma argumentList_consumes (fuel : nat) :
  forall args, consumes tokens (Nat.min n fuel) (argumentList tokens fuel expression args).
Proof.
  induction fuel as [|fuel IH]; intros args c Hc; [lia|].
  cbn [argumentList]. returns_auto; returns_use Hexpression; returns_auto;
    returns_use IH; returns_auto.
Qed.

Lemma finishCall_consumes (fuel : nat) (callee : ASTNode) :
  consumes tokens (Nat.min n fuel) (finishCall tokens fuel expression callee).
Proof.
  intros c Hc. unfold finishCall. returns_auto.
  returns_use argumentList_consumes. returns_auto.
Qed.

Lemma callLoop_returns (fuel : nat) :
  forall expr c,
    remaining tokens c < Nat.min (S n) fuel ->
    returns (callLoop tokens fuel expression expr) c
      (fun _ c' => remaining tokens c' <= remaining tokens c).
Proof.
  induction fuel as [|fuel IH]; intros expr c Hc; [lia|].
  cbn [callLoop].
  repeat (returns_auto; first [returns_use finishCall_consumes | returns_use IH]).
Qed.

Lemma call_consumes (fuel : nat) :
  consumes tokens (Nat.min (S n) (S fuel)) (call tokens fuel expression).
Proof.
  intros c Hc. unfold call. returns_auto.
  returns_use primary_consumes. returns_use callLoop_returns. returns_auto.
Qed.

Lemma unary_consumes (fuel : nat) :
  consumes tokens (Nat.min (S n) fuel) (unary tokens fuel expression).
Proof.
  induction fuel as [|fuel IH]; intros c Hc; [lia|].
  cbn [unary].
  repeat (returns_auto; first [returns_use IH | returns_use call_consumes]).
Qed.

Lemma operatorLoop_returns (k : nat) (types : list string)
    (make : string -> ASTNode -> ASTNode -> ASTNode) (operand : M ASTNode) :
  consumes tokens k operand ->
  forall fuel expr c,
    remaining tokens c < Nat.min k fuel ->
    returns (operatorLoop tokens fuel types make operand expr) c
      (fun _ c' => remaining tokens c' <= remaining tokens c).
Proof.
  intros Hoperand. induction fuel as [|fuel IH]; intros expr c Hc; [lia|].
  cbn [operatorLoop]. returns_auto.
  returns_use Hoperand. returns_use IH. returns_auto.
Qed.

Lemma factor_consumes (fuel : nat) :
  consumes tokens (Nat.min (S n) fuel) (factor tokens fuel expression).
Proof.
  intros c Hc. unfold factor. returns_auto.
  returns_use unary_consumes.
  returns_use (operatorLoop_returns _ ["SLASH"; "STAR"] BinaryExpression _
                 (unary_consumes fuel)).
  returns_auto.
Qed.

Lemma term_consumes (fuel : nat) :
  consumes tokens (Nat.min (S n) fuel) (term tokens fuel expression).
Proof.
  intros c Hc. unfold term. returns_auto.
  returns_use factor_consumes.
  returns_use (operatorLoop_returns _ ["MINUS"; "PLUS"] BinaryExpression _
                 (factor_consumes fuel)).
  returns_auto.
Qed.

Lemma comparison_consumes (fuel : nat) :
  consumes tokens (Nat.min (S n) fuel) (comparison tokens fuel expression).
Proof.
  intros c Hc. unfold comparison. returns_auto.
  returns_use term_consumes.
  returns_use (operatorLoop_returns _ ["GREATER"; "GREATER_EQUAL"; "LESS"; "LESS_EQUAL"]
                 BinaryExpression _ (term_consumes fuel)).
  returns_auto.
Qed.

Lemma equality_consumes (fuel : nat) :
  consumes tokens (Nat.min (S n) fuel) (equality tokens fuel expression).
Proof.
  intros c Hc. unfold equality. returns_auto.
  returns_use comparison_consumes.
  returns_use (operatorLoop_returns _ ["BANG_EQUAL"; "EQUAL_EQUAL"] BinaryExpression _
                 (comparison_consumes fuel)).
  returns_auto.
Qed.

Lemma logicalAnd_consumes (fuel : nat) :
  consumes tokens (Nat.min (S n) fuel) (logicalAnd tokens fuel expression).
Proof.
  intros c Hc. unfold logicalAnd. returns_auto.
  returns_use equality_consumes.
  returns_use (operatorLoop_returns _ ["AND"] LogicalExpression _
                 (equality_consumes fuel)).
  returns_auto.
Qed.

Lemma logicalOr_consumes (fuel : nat) :
  consumes tokens (Nat.min (S n) fuel) (logicalOr tokens fuel expression).
Proof.
  intros c Hc. unfold logicalOr. returns_auto.
  returns_use logicalAnd_consumes.
  returns_use (operatorLoop_returns _ ["OR"] LogicalExpression _
                 (logicalAnd_consumes fuel)).
  returns_auto.
Qed.

Lemma assignment_consumes (fuel : nat) :
  consumes tokens (Nat.min (S n) (Nat.pred fuel)) (assignment tokens fuel expression).
Proof.
  induction fuel as [|fuel IH]; intros c Hc; [cbn in Hc; lia|].
  cbn [assignment]. returns_auto; returns_use logicalOr_consumes; returns_auto.
  returns_use IH. returns_auto.
Qed.

Lemma varDeclaration_consumes : consumes tokens (S n) (varDeclaration tokens expression).
Proof.
  intros c Hc. unfold varDeclaration. returns_auto.
  returns_use Hexpression. returns_auto.
Qed.

Lemma expressionStatement_consumes :
  consumes tokens n (expressionStatement tokens expression).
Proof.
  intros c Hc. unfold expressionStatement. returns_auto.
  returns_use Hexpression. returns_auto.
Qed.

Lemma returnStatement_consumes :
  consumes tokens n (returnStatement tokens expression).
Proof.
  intros c Hc. unfold returnStatement. returns_auto.
  returns_use Hexpression. returns_auto.
Qed.

Section Statements.
Variable statement : M ASTNode.
Hypothesis Hstatement : consumes tokens n statement.

Lemma ifStatement_consumes :
  consumes tokens (S n) (ifStatement tokens expression statement).
Proof.
  intros c Hc. unfold ifStatement. returns_auto.
  returns_use Hexpression. returns_auto.
  returns_use Hstatement. returns_auto.
  returns_use Hstatement. returns_auto.
Qed.

Lemma whileStatement_consumes :
  consumes tokens (S n) (whileStatement tokens expression statement).
Proof.
  intros c Hc. unfold whileStatement. returns_auto.
  returns_use Hexpression. returns_auto.
  returns_use Hstatement. returns_auto.
Qed.

Lemma forStatement_consumes :
  consumes tokens (S n) (forStatement tokens expression statement).
Proof.
  intros c Hc. unfold forStatement. returns_auto;
    try (returns_use varDeclaration_consumes; returns_auto);
    try (returns_use expressionStatement_consumes; returns_auto);
    repeat (returns_use Hexpression; returns_auto);
    returns_use Hstatement; returns_auto.
Qed.

End Statements.

End Expressions.

Lemma blockStatements_returns (n : nat) (declaration : M ASTNode) :
  consumes tokens n declaration ->
  forall fuel statements c,
    remaining tokens c < Nat.min n fuel ->
    returns (blockStatements tokens fuel declaration statements) c
      (fun _ c' => remaining tokens c' <= remaining tokens c).
Proof.
  intros Hdeclaration. induction fuel as [|fuel IH]; intros statements c Hc; [lia|].
  cbn [blockStatements].
  repeat (returns_auto; first [returns_use Hdeclaration | returns_use IH]).
Qed.

Lemma block_consumes (n fuel : nat) (declaration : M ASTNode) :
  consumes tokens n declaration ->
  consumes tokens (Nat.min n fuel) (block tokens fuel declaration).
Proof.
  intros Hdeclaration c Hc. unfold block. returns_auto.
  returns_use (blockStatements_returns n declaration Hdeclaration). returns_auto.
Qed.

Lemma functionDeclaration_consumes (n fuel : nat) (block : M ASTNode) :
  consumes tokens n block ->
  consumes tokens (Nat.min (S n) (S fuel)) (functionDeclaration tokens fuel block).
Proof.
  intros Hblock c Hc. unfold functionDeclaration.
  repeat (returns_auto; first [returns_use parameterList_consumes | returns_use Hblock]).
Qed.

Lemma expression_consumes (fuel : nat) :
  consumes tokens (fuel - 3) (expression tokens fuel).
Proof.
  induction fuel as [|fuel IH]; intros c Hc; [cbn in Hc; lia|].
  cbn [expression]. returns_use (assignment_consumes _ _ IH fuel). lia.
Qed.

Lemma statement_consumes (n : nat) (declaration : M ASTNode) :
  consumes tokens n declaration ->
  forall fuel,
    consumes tokens (Nat.min (S n) (fuel - 4)) (statement tokens fuel declaration).
Proof.
  intros Hdeclaration. induction fuel as [|fuel IH]; intros c Hc; [cbn in Hc; lia|].
  pose proof (expression_consumes fuel) as Hexpression.
  assert (Hboth : consumes tokens (Nat.min (S n) (fuel - 4)) (expression tokens fuel))
    by (apply (consumes_le (fuel - 3)); [lia|exact Hexpression]).
  cbn [statement]. returns_auto.
  - returns_use (expressionStatement_consumes _ _ Hexpression). lia.
  - returns_use (block_consumes n fuel declaration Hdeclaration). lia.
  - returns_use (returnStatement_consumes _ _ Hexpression). lia.
  - returns_use (forStatement_consumes _ _ Hboth _ IH). lia.
  - returns_use (whileStatement_consumes _ _ Hboth _ IH). lia.
  - returns_use (ifStatement_consumes _ _ Hboth _ IH). lia.
Qed.

Lemma synchronize_throws (e : Error) (c : nat) :
  (synchronize tokens (List.length tokens) ;;; @throw ASTNode e) c <> OutOfFuel
  /\ forall (a : ASTNode) c',
       (synchronize tokens (List.length tokens) ;;; @throw ASTNode e) c <> Ok a c'.
Proof.
  pose proof (synchronize_bound tokens c) as H. unfold bind, throw.
  destruct (synchronize tokens (List.length tokens) c); [split; discriminate|split; discriminate|].
  now contradiction H.
Qed.

Lemma declaration_consumes (fuel : nat) :
  consumes tokens (fuel - 5) (declaration tokens fuel).
Proof.
  induction fuel as [|fuel IH]; intros c Hc; [cbn in Hc; lia|].
  pose proof (expression_consumes fuel) as Hexpression.
  cbn [declaration]. apply returns_tryCatch; [|intros e c'; apply synchronize_throws].
  returns_auto.
  - returns_use (statement_consumes _ _ IH fuel). lia.
  - returns_use (functionDeclaration_consumes _ fuel _ (block_consumes _ fuel _ IH)). lia.
  - returns_use (varDeclaration_consumes _ _ Hexpression). lia.
Qed.

Lemma programStatements_returns (fuel : nat) :
  forall statements c,
    remaining tokens c < fuel - 6 ->
    returns (programStatements tokens fuel statements) c (fun _ _ => True).
Proof.
  induction fuel as [|fuel IH]; intros statements c Hc; [cbn in Hc; lia|].
  cbn [programStatements]. returns_auto; [|exact I].
  returns_use (declaration_consumes fuel). returns_use IH. exact I.
Qed.

(** With a recursion bound of the number of tokens and seven more,
    [parse] returns a tree or throws. *)
Lemma parse_within (fuel : nat) :
  List.length tokens + 7 <= fuel -> parse fuel tokens <> OutOfFuel.
Proof.
  intros Hfuel.
  pose proof (programStatements_returns fuel [] 0) as H.
  unfold returns in H. unfold parse, tryCatch, program, bind, ret, throw.
  destruct (programStatements tokens fuel [] 0); try discriminate.
  intros _. apply H. unfold remaining. lia.
Qed.

End ParserTermination.

(** [parse] is total: on every token list it returns a tree or throws
    an error, the same at every recursion bound from the number of
    tokens plus seven on. *)
Theorem parse_terminates :
  forall tokens,
    exists r,
      r <> Parser.OutOfFuel
      /\ forall fuel, List.length tokens + 7 <= fuel -> Parser.parse fuel tokens = r.
Proof.
  intros tokens. exists (Parser.parse (List.length tokens + 7) tokens).
  split; [apply parse_within; lia|].
  intros fuel Hfuel.
  apply (parse_fuel tokens (List.length tokens + 7)); [exact Hfuel|reflexivity|].
  apply parse_within. lia.
Qed.

(** [compile] returns unless the optimizer loops: with a bound of the
    length of the text and eight more, the only way to no result is
    that the text passes the lexer and the parser, the analyzer returns
    no error, the IR generator returns a list, and [optimize] does not
    return on that list within the bound. *)
Theorem compile_returns_unless_optimizer_loops :
  forall fuel source c,
    String.length source + 8 <= fuel ->
    Compiler.compile fuel source c = None ->
    exists tokens ast current analyzer ir,
      Lexer.tokenize source = Lexer.Ok tokens
      /\ Parser.parse fuel tokens = Parser.Ok ast current
      /\ SemanticAnalyzer.analyze ast (Compiler.semanticAnalyzer c)
         = SemanticAnalyzer.Returns [] analyzer
      /\ IRGenerator.generate ast = IRGenerator.Generated ir
      /\ Optimizer.optimize fuel ir = None.
Proof.
  intros fuel source c Hfuel H. unfold Compiler.compile in H.
  destruct (Lexer.tokenize source) as [tokens|e] eqn:Et; [|discriminate H].
  assert (Hlen : List.length tokens <= String.length source + 1).
  { unfold Lexer.tokenize in Et.
    destruct (Lexer.scanTokens (String.length source) (Lexer.State.mk source 0 1 1 []))
      as [st|e] eqn:E; [|discriminate Et].
    injection Et as <-. pose proof (scanTokens_count _ _ E) as Hcount.
    unfold Lexer.addToken. cbn [Lexer.State.tokens]. rewrite length_app.
    cbn [List.length]. lia. }
  assert (Hbound : List.length tokens + 7 <= fuel) by lia.
  pose proof (parse_within tokens fuel Hbound) as Hparse.
  destruct (Parser.parse fuel tokens) as [ast current|e current|] eqn:Ep;
    [|discriminate H|now contradiction Hparse].
  destruct (SemanticAnalyzer.analyze ast (Compiler.semanticAnalyzer c))
    as [errs analyzer|e analyzer] eqn:Ea; [|discriminate H].
  destruct errs as [|e errs]; [|discriminate H]. cbn [List.length Nat.ltb Nat.leb] in H.
  destruct (IRGenerator.generate ast) as [ir|e] eqn:Eg; [|discriminate H].
  destruct (Optimizer.optimize fuel ir) as [optimized|] eqn:Eo.
  - destruct (CodeGenerator.generate optimized); discriminate H.
  - exists tokens, ast, current, analyzer, ir. auto.
Qed.

Lemma compile_returns_unless_optimizer_loops_witness :
  exists tokens ast current analyzer ir,
    Lexer.tokenize Examples.stringReturnSource = Lexer.Ok tokens
    /\ Parser.parse 20 tokens = Parser.Ok ast current
    /\ SemanticAnalyzer.analyze ast (Compiler.semanticAnalyzer Compiler.new)
       = SemanticAnalyzer.Returns [] analyzer
    /\ IRGenerator.generate ast = IRGenerator.Generated ir
    /\ Optimizer.optimize 20 ir = None.
Proof.
  apply (compile_returns_unless_optimizer_loops 20 Examples.stringReturnSource
           Compiler.new).
  - vm_compute. lia.
  - vm_compute. reflexivity.
Defined.

(* ================================================================= *)
(** ** The scopes of the semantic analyzer *)

Section ScopeFacts.
Import Parser SemanticAnalyzer.

Lemma own_names (name : string) (l : list (string * Symbol)) :
  isSome (own name l) = includes (map fst l) name.
Proof.
  induction l as [|[k v] l IH]; [reflexivity|].
  cbn. rewrite (String.eqb_sym name k).
  destruct (String.eqb k name); [reflexivity|exact IH].
Qed.

Lemma names_replaceOwn (name : string) (symbol : Symbol) (l : list (string * Symbol)) :
  map fst (replaceOwn name symbol l) = map fst l.
Proof.
  induction l as [|[k v] l IH]; [reflexivity|].
  cbn [replaceOwn]. destruct (String.eqb k name); cbn [map fst]; [reflexivity|].
  now rewrite IH.
Qed.

Lemma names_insertIndex (name : string) (symbol : Symbol) (l : list (string * Symbol))
    (n : string) :
  In n (map fst (insertIndex name symbol l)) <-> n = name \/ In n (map fst l).
Proof.
  induction l as [|[k v] l IH]; cbn [insertIndex].
  - cbn. intuition.
  - destruct (_ && _); cbn [map fst In] in *; [rewrite IH|]; intuition.
Qed.

Lemma protoFollows_refl (p : option Symbol) : protoFollows p p.
Proof. destruct p; cbn; auto. Qed.

Lemma protoFollows_trans (p q r : option Symbol) :
  protoFollows p q -> protoFollows q r -> protoFollows p r.
Proof.
  destruct p, q, r; cbn; try tauto.
  intros [A [B C]] [A' [B' C']]. split; [congruence|auto].
Qed.

Lemma protoFollows_mark (field : Field) (p : option Symbol) :
  protoFollows p (option_map (mark field) p).
Proof. destruct p as [r|]; [|exact I]. destruct field; cbn; auto. Qed.

Lemma protosFollow_refl (l : list (option Symbol)) : Forall2 protoFollows l l.
Proof. induction l; constructor; [apply protoFollows_refl|assumption]. Qed.

Lemma protosFollow_trans (l1 l2 l3 : list (option Symbol)) :
  Forall2 protoFollows l1 l2 -> Forall2 protoFollows l2 l3 -> Forall2 protoFollows l1 l3.
Proof.
  intros H. revert l3. induction H as [|a b l1 l2 Hab _ IH]; intros l3 H2.
  - inversion H2. constructor.
  - inversion H2 as [|b' c l2' l3' Hbc Hrest]; subst. constructor.
    + eapply protoFollows_trans; eassumption.
    + now apply IH.
Qed.

Lemma prototypeFollows_refl (p : ObjectPrototype) : prototypeFollows p p.
Proof. repeat split; auto. Qed.

Lemma prototypeFollows_trans (p q r : ObjectPrototype) :
  prototypeFollows p q -> prototypeFollows q r -> prototypeFollows p r.
Proof.
  intros [A [B [C D]]] [A' [B' [C' D']]]. repeat split; auto.
Qed.

Lemma includes_add (name f : string) (l : list string) :
  includes l f = true -> includes (add name l) f = true.
Proof.
  intros H. unfold add. destruct (includes l name); [exact H|].
  unfold includes in *. rewrite existsb_app, H. reflexivity.
Qed.

Lemma prototypeFollows_markObject (field : Field) (p : ObjectPrototype) :
  prototypeFollows p (markObject field p).
Proof. destruct field; repeat split; cbn; auto. Qed.

Lemma prototypeFollows_markMember (field : Field) (name : string) (p : ObjectPrototype) :
  prototypeFollows p (markMember field name p).
Proof.
  destruct field; repeat split; cbn; intros; try assumption; now apply includes_add.
Qed.

Lemma follows_refl (st : t) : follows st st.
Proof.
  split; [reflexivity|]. split; [apply protosFollow_refl|].
  split; [apply incl_refl|]. split; [apply protoFollows_refl|].
  split; [apply prototypeFollows_refl|]. exists []. now rewrite app_nil_r.
Qed.

Lemma follows_trans (s1 s2 s3 : t) : follows s1 s2 -> follows s2 s3 -> follows s1 s3.
Proof.
  intros [A1 [B1 [C1 [D1 [E1 [e1 F1]]]]]] [A2 [B2 [C2 [D2 [E2 [e2 F2]]]]]].
  split; [congruence|]. split; [eapply protosFollow_trans; eassumption|].
  split; [eapply incl_tran; eassumption|].
  split; [eapply protoFollows_trans; eassumption|].
  split; [eapply prototypeFollows_trans; eassumption|].
  exists (e1 ++ e2)%list. now rewrite F2, F1, app_assoc.
Qed.

Lemma follows_pushError (e : SemanticError) (st : t) : follows st (pushError e st).
Proof.
  split; [reflexivity|]. split; [apply protosFollow_refl|].
  split; [apply incl_refl|]. split; [apply protoFollows_refl|].
  split; [apply prototypeFollows_refl|]. now exists [e].
Qed.

(** A name that [table[name]] does not find is not [__proto__], which
    every table finds. *)
Lemma found_proto (prototype : ObjectPrototype) (table : SymbolTable) :
  found (get prototype "__proto__" table) = true.
Proof.
  unfold get. destruct (own "__proto__" (entries table)); [reflexivity|].
  cbn. now destruct (proto table).
Qed.

Lemma assign_unfound (prototype : ObjectPrototype) (name : string) (symbol : Symbol)
    (table : SymbolTable) :
  found (get prototype name table) = false ->
  assign name symbol table =
    mkTable
      (if isIndex name then insertIndex name symbol (entries table)
       else (entries table ++ [(name, symbol)])%list)
      (proto table).
Proof.
  intros H. unfold assign.
  assert (Hown : own name (entries table) = None).
  { unfold get in H. now destruct (own name (entries table)). }
  destruct (String.eqb name "__proto__") eqn:E.
  { apply String.eqb_eq in E. subst name. now rewrite found_proto in H. }
  cbn [andb]. unfold assignOwn. now rewrite Hown.
Qed.

(** The own names of a table after the declaration of a name that
    [table[name]] did not find. *)
Lemma names_assign_unfound (prototype : ObjectPrototype) (name : string)
    (symbol : Symbol) (table : SymbolTable) :
  found (get prototype name table) = false ->
  (isIndex name = false ->
   names (assign name symbol table) = (names table ++ [name])%list)
  /\ (forall n, In n (names (assign name symbol table)) <-> n = name \/ In n (names table)).
Proof.
  intros H. rewrite (assign_unfound _ _ _ _ H). unfold names. cbn [entries]. split.
  - intros ->. now rewrite map_app.
  - intros n. destruct (isIndex name); [apply names_insertIndex|].
    rewrite map_app, in_app_iff. cbn. intuition.
Qed.

(** A declaration adds its name to the current scope. *)
Lemma follows_declare (name : string) (symbol : Symbol) (st : t) :
  found (get (objectPrototype st) name (currentScope st)) = false ->
  follows st (setCurrent name symbol st).
Proof.
  intros H. destruct (names_assign_unfound _ _ symbol _ H) as [_ Hn].
  split; [reflexivity|]. split; [apply protosFollow_refl|].
  split; [intros n Hin; apply Hn; now right|].
  split; [unfold setCurrent; cbn [currentScope];
          rewrite (assign_unfound _ _ _ _ H); apply protoFollows_refl|].
  split; [apply prototypeFollows_refl|]. exists []. cbn. now rewrite app_nil_r.
Qed.

Lemma names_markIn (field : Field) (name : string) (table : SymbolTable) :
  names (markIn field name table) = names table.
Proof.
  unfold markIn, names. destruct (own name (entries table)) eqn:E; [|reflexivity].
  cbn [entries]. apply names_replaceOwn.
Qed.

Lemma proto_markIn (field : Field) (name : string) (table : SymbolTable) :
  protoFollows (proto table) (proto (markIn field name table)).
Proof.
  unfold markIn. destruct (own name (entries table)); cbn [proto].
  - apply protoFollows_refl.
  - apply protoFollows_mark.
Qed.

Lemma names_markOuter (prototype : ObjectPrototype) (field : Field) (name : string)
    (l : list SymbolTable) :
  map names (markOuter prototype field name l) = map names l.
Proof.
  induction l as [|s l IH]; [reflexivity|].
  cbn [markOuter]. destruct (found _); cbn [map]; [|now rewrite IH].
  now rewrite names_markIn.
Qed.

Lemma proto_markOuter (prototype : ObjectPrototype) (field : Field) (name : string)
    (l : list SymbolTable) :
  Forall2 protoFollows (map proto l) (map proto (markOuter prototype field name l)).
Proof.
  induction l as [|s l IH]; [constructor|].
  cbn [markOuter]. destruct (found _); cbn [map]; constructor.
  - apply proto_markIn.
  - apply protosFollow_refl.
  - apply protoFollows_refl.
  - exact IH.
Qed.

Lemma Forall2_rev {A B} (R : A -> B -> Prop) (l1 : list A) (l2 : list B) :
  Forall2 R l1 l2 -> Forall2 R (rev l1) (rev l2).
Proof.
  induction 1; cbn; [constructor|].
  apply Forall2_app; [assumption|]. now constructor.
Qed.

Lemma follows_markVariable (field : Field) (name : string) (st : t) :
  follows st (markVariable field name st).
Proof.
  unfold markVariable. destruct (found _).
  - split; [reflexivity|]. split; [apply protosFollow_refl|].
    split; [cbn; rewrite names_markIn; apply incl_refl|].
    split; [apply proto_markIn|].
    split; [apply prototypeFollows_refl|]. exists []. cbn. now rewrite app_nil_r.
  - split; [cbn; now rewrite map_rev, names_markOuter, <- map_rev, rev_involutive|].
    split.
    { cbn [scopes]. rewrite <- (rev_involutive (scopes st)) at 1.
      rewrite !map_rev. apply Forall2_rev. rewrite <- map_rev. apply proto_markOuter. }
    split; [apply incl_refl|]. split; [apply protoFollows_refl|].
    split; [apply prototypeFollows_refl|]. exists []. cbn. now rewrite app_nil_r.
Qed.

Lemma follows_setObjectPrototype (p : ObjectPrototype) (st : t) :
  prototypeFollows (objectPrototype st) p -> follows st (setObjectPrototype p st).
Proof.
  intros H. split; [reflexivity|]. split; [apply protosFollow_refl|].
  split; [apply incl_refl|]. split; [apply protoFollows_refl|].
  split; [exact H|]. exists []. cbn. now rewrite app_nil_r.
Qed.

Lemma tableKeeps_refl (table : SymbolTable) : tableKeeps table table.
Proof. split; [apply incl_refl|apply protoFollows_refl]. Qed.

Lemma tableKeeps_trans (a b c : SymbolTable) :
  tableKeeps a b -> tableKeeps b c -> tableKeeps a c.
Proof.
  intros [A B] [A' B']. split.
  - eapply incl_tran; eassumption.
  - eapply protoFollows_trans; eassumption.
Qed.

Lemma tablesKeep_refl (l : list SymbolTable) : Forall2 tableKeeps l l.
Proof. induction l; constructor; [apply tableKeeps_refl|assumption]. Qed.

Lemma tablesKeep_trans (l1 l2 l3 : list SymbolTable) :
  Forall2 tableKeeps l1 l2 -> Forall2 tableKeeps l2 l3 -> Forall2 tableKeeps l1 l3.
Proof.
  intros H. revert l3. induction H as [|a b l1 l2 Hab _ IH]; intros l3 H2.
  - inversion H2. constructor.
  - inversion H2 as [|b' c l2' l3' Hbc Hrest]; subst. constructor.
    + eapply tableKeeps_trans; eassumption.
    + now apply IH.
Qed.

Lemma keeps_refl (st : t) : keeps st st.
Proof.
  split; [|apply prototypeFollows_refl].
  exists (stack st), []. split; [now rewrite app_nil_r|apply tablesKeep_refl].
Qed.

Lemma keeps_trans (s1 s2 s3 : t) : keeps s1 s2 -> keeps s2 s3 -> keeps s1 s3.
Proof.
  intros [[k1 [d1 [A1 B1]]] C1] [[k2 [d2 [A2 B2]]] C2].
  split; [|eapply prototypeFollows_trans; eassumption].
  rewrite A1 in B2. apply Forall2_app_inv_l in B2 as [k2a [k2b [Ba [Bb ->]]]].
  exists k2a, (k2b ++ d2)%list. split; [now rewrite A2, app_assoc|].
  eapply tablesKeep_trans; eassumption.
Qed.

(** Tables with the same own names, and prototypes that follow. *)
Lemma tablesKeep_names (l l' : list SymbolTable) :
  map names l' = map names l ->
  Forall2 protoFollows (map proto l) (map proto l') ->
  Forall2 tableKeeps l l'.
Proof.
  revert l'. induction l as [|a l IH]; intros [|b l'] Hn Hp; try discriminate Hn.
  - constructor.
  - cbn [map] in Hn, Hp. injection Hn as Hb Hn. inversion Hp; subst. constructor.
    + split; [rewrite Hb; apply incl_refl|assumption].
    + now apply IH.
Qed.

Lemma follows_keeps (st st' : t) : follows st st' -> keeps st st'.
Proof.
  intros [A [B [C [D [E _]]]]]. split; [|exact E].
  exists (stack st'), []. split; [now rewrite app_nil_r|].
  unfold stack. apply Forall2_app; [now apply tablesKeep_names|].
  constructor; [now split|constructor].
Qed.

(** What a state keeps of the scope entered at [st], it keeps of
    [st]. *)
Lemma keeps_inner (st inner st' : t) :
  scopes inner = stack st ->
  objectPrototype inner = objectPrototype st ->
  keeps inner st' -> keeps st st'.
Proof.
  intros Hs Hp [[kept [deeper [A B]]] C]. split; [|now rewrite <- Hp].
  unfold stack at 1 in B. rewrite Hs in B.
  apply Forall2_app_inv_l in B as [k1 [k2 [B1 [_ ->]]]].
  exists k1, (k2 ++ deeper)%list. split; [now rewrite A, app_assoc|exact B1].
Qed.

Lemma proceeds_bind (st : t) (m : Result) (f : t -> Result) :
  proceeds st m ->
  (forall s, proceeds s (f s)) ->
  proceeds st (bind m f).
Proof.
  intros Hm Hf. destruct m as [s|e s]; cbn; [|exact Hm].
  specialize (Hf s). destruct (f s) as [s'|e s']; cbn in *.
  - eapply follows_trans; eassumption.
  - eapply keeps_trans; [apply follows_keeps|]; eassumption.
Qed.

Lemma proceeds_step (st s : t) (r : Result) :
  follows st s -> proceeds s r -> proceeds st r.
Proof.
  intros H Hr. destruct r as [s'|e s']; cbn in *.
  - eapply follows_trans; eassumption.
  - eapply keeps_trans; [apply follows_keeps|]; eassumption.
Qed.

Lemma proceeds_forEach {A} (f : A -> t -> Result) (l : list A) :
  Forall (fun a => forall st, proceeds st (f a st)) l ->
  forall st, proceeds st (forEach f l st).
Proof.
  induction 1 as [|a l Ha _ IH]; intros st; cbn [forEach].
  - apply follows_refl.
  - apply proceeds_bind; [apply Ha|exact IH].
Qed.

Lemma proceeds_setField (field : Field) (name : string) (st : t) :
  proceeds st (setField field name st).
Proof.
  unfold setField. destruct (lookupVariable name st) as [[s| |f|s|b]|]; cbn.
  - apply follows_markVariable.
  - apply follows_setObjectPrototype, prototypeFollows_markObject.
  - apply follows_setObjectPrototype, prototypeFollows_markMember.
  - apply keeps_refl.
  - apply keeps_refl.
  - apply follows_refl.
Qed.

Lemma proceeds_visitIdentifier (name : string) (node : ASTNode) (st : t) :
  proceeds st (visitIdentifier name node st).
Proof.
  unfold visitIdentifier. destruct (lookupVariable name st) as [variable|].
  - apply proceeds_bind; [apply proceeds_setField|].
    intros s. destruct (negb _); cbn; [apply follows_pushError|apply follows_refl].
  - apply follows_pushError.
Qed.

Lemma proceeds_option (o : option ASTNode) :
  match o with Some e => forall st, proceeds st (visit e st) | None => True end ->
  forall st, proceeds st (match o with Some e => visit e st | None => Ok st end).
Proof. destruct o; intros H st; [apply H|apply follows_refl]. Qed.

(** A loop that only pushes errors leaves the tables alone. *)
Lemma fold_errors {A} (f : t -> A -> t) (l : list A) :
  (forall st a, f st a = st \/ exists e, f st a = pushError e st) ->
  forall st,
    scopes (fold_left f l st) = scopes st
    /\ currentScope (fold_left f l st) = currentScope st
    /\ objectPrototype (fold_left f l st) = objectPrototype st
    /\ exists new, errors (fold_left f l st) = (errors st ++ new)%list.
Proof.
  intros Hf. induction l as [|a l IH]; intros st; cbn [fold_left].
  - repeat (split; [reflexivity|]). exists []. now rewrite app_nil_r.
  - destruct (IH (f st a)) as [H1 [H2 [H3 [new H4]]]]. rewrite H1, H2, H3, H4.
    destruct (Hf st a) as [->|[e ->]].
    + repeat (split; [reflexivity|]). now exists new.
    + repeat (split; [reflexivity|]). exists (e :: new).
      cbn. now rewrite <- app_assoc.
Qed.

Lemma follows_fold_errors {A} (f : t -> A -> t) (l : list A) :
  (forall st a, f st a = st \/ exists e, f st a = pushError e st) ->
  forall st, follows st (fold_left f l st).
Proof.
  intros Hf st. destruct (fold_errors f l Hf st) as [H1 [H2 [H3 H4]]].
  split; [now rewrite H1|]. split; [rewrite H1; apply protosFollow_refl|].
  split; [rewrite H2; apply incl_refl|].
  split; [rewrite H2; apply protoFollows_refl|].
  split; [rewrite H3; apply prototypeFollows_refl|exact H4].
Qed.

(** The loop over the parameters fills the current scope only. *)
Lemma parameters_current (params : list string) :
  forall st,
    scopes (fold_left (fun st param => setCurrent param (mkSymbol "parameter" true false) st)
              params st) = scopes st
    /\ errors (fold_left (fun st param =>
                            setCurrent param (mkSymbol "parameter" true false) st)
                 params st) = errors st
    /\ objectPrototype
         (fold_left (fun st param => setCurrent param (mkSymbol "parameter" true false) st)
            params st) = objectPrototype st.
Proof.
  induction params as [|p params IH]; intros st; cbn [fold_left].
  - auto.
  - destruct (IH (setCurrent p (mkSymbol "parameter" true false) st)) as [A [B C]].
    rewrite A, B, C. auto.
Qed.

Lemma map_snoc {A B} (f : A -> B) (l : list A) (l1 : list B) (x : B) :
  map f l = (l1 ++ [x])%list ->
  exists l2 y, l = (l2 ++ [y])%list /\ map f l2 = l1 /\ f y = x.
Proof.
  intros H. destruct (exists_last (l := l)) as [l2 [y ->]].
  - intros ->. now destruct l1.
  - rewrite map_app in H. apply app_inj_tail in H as [H1 H2].
    now exists l2, y.
Qed.

Lemma exitScope_pops (st : t) (outer : list SymbolTable) (table : SymbolTable) :
  scopes st = (outer ++ [table])%list ->
  scopes (exitScope st) = outer
  /\ currentScope (exitScope st) = table
  /\ objectPrototype (exitScope st) = objectPrototype st
  /\ exists new, errors (exitScope st) = (errors st ++ new)%list.
Proof.
  intros H. unfold exitScope.
  match goal with
  | |- context [fold_left ?f ?l st] =>
      destruct (fold_errors f l) with (st := st) as [H1 [_ [H3 H4]]]
  end.
  { intros s [name info]. destruct (negb (used info)); [right; eauto|now left]. }
  cbn [scopes currentScope errors objectPrototype]. rewrite H1, H3, H.
  rewrite removelast_last, last_last. auto.
Qed.

(** A scope that was entered at [st] is left again: the tables have
    the own names they had at [st]. *)
Lemma scoped_follows (st inner st' : t) :
  scopes inner = (scopes st ++ [currentScope st])%list ->
  objectPrototype inner = objectPrototype st ->
  (exists new, errors inner = (errors st ++ new)%list) ->
  follows inner st' ->
  follows st (exitScope st')
  /\ names (currentScope (exitScope st')) = names (currentScope st)
  /\ map names (scopes (exitScope st')) = map names (scopes st).
Proof.
  intros Hs Hp [new0 He] [H1 [H2 [_ [_ [H5 [new1 H6]]]]]].
  rewrite Hs in H1, H2. rewrite map_app in H1, H2. cbn [map] in H1, H2.
  destruct (map_snoc _ _ _ _ H1) as [outer [table [Hst' [Houter Htable]]]].
  rewrite Hst', map_app in H2. cbn [map] in H2.
  assert (F : Forall2 protoFollows (map proto (scopes st)) (map proto outer)
              /\ protoFollows (proto (currentScope st)) (proto table)).
  { apply Forall2_app_inv_l in H2 as [l1 [l2 [F1 [F2 Happ]]]].
    inversion F2 as [|a b la lb Hab Hnil]; subst. inversion Hnil; subst.
    apply app_inj_tail in Happ as [<- <-]. auto. }
  destruct F as [F1 Hab].
  destruct (exitScope_pops st' outer table Hst') as [A [B [C [new2 D]]]].
  unfold follows. rewrite A, B, C. split; [|auto].
  split; [exact Houter|]. split; [exact F1|].
  split; [rewrite Htable; apply incl_refl|].
  split; [exact Hab|].
  split; [rewrite <- Hp; exact H5|].
  exists (new0 ++ new1 ++ new2)%list. rewrite D, H6, He. now rewrite <- !app_assoc.
Qed.

(** A step inside the scope entered at [st]. *)
Lemma scoped_bind (st inner s : t) (m : Result) (f : t -> Result) :
  scopes inner = stack st ->
  objectPrototype inner = objectPrototype st ->
  follows inner s ->
  proceeds s m ->
  (forall s', follows inner s' -> proceeds st (f s')) ->
  proceeds st (bind m f).
Proof.
  intros Hs Hp Hf Hm Hk. destruct m as [s'|e s']; cbn in *.
  - apply Hk. eapply follows_trans; eassumption.
  - apply (keeps_inner st inner); [exact Hs|exact Hp|].
    eapply keeps_trans; [apply follows_keeps|]; eassumption.
Qed.

Lemma enterScope_inner (st : t) :
  scopes (enterScope st) = stack st
  /\ objectPrototype (enterScope st) = objectPrototype st
  /\ exists new, errors (enterScope st) = (errors st ++ new)%list.
Proof.
  split; [reflexivity|]. split; [reflexivity|]. exists []. cbn. now rewrite app_nil_r.
Qed.

Lemma proceeds_declaration (name : string) (e : SemanticError) (symbol : Symbol)
    (st : t) :
  follows st
    (if found (get (objectPrototype st) name (currentScope st))
     then pushError e st else setCurrent name symbol st).
Proof.
  destruct (found _) eqn:E; [apply follows_pushError|now apply follows_declare].
Qed.

(** The analysis of a node that returns has not changed the own names
    of the enclosing scopes, has only added names to the current
    scope, and has only appended errors; one that throws has kept the
    tables it began with. *)
Lemma visit_proceeds : forall node st, proceeds st (visit node st).
Proof.
  induction node using ASTNode_induction; intros st; cbn [visit].
  - apply proceeds_forEach. exact H.
  - eapply proceeds_step; [apply proceeds_declaration|].
    apply (proceeds_option initializer H).
  - match goal with
    | |- proceeds st (bind (visit _ (fold_left _ _ (enterScope ?s0))) _) =>
        apply (proceeds_step st s0); [apply proceeds_declaration|]
    end.
    match goal with
    | |- proceeds ?s0 (bind (visit _ (fold_left ?G _ (enterScope _))) _) =>
        pose proof (parameters_current params (enterScope s0)) as Hp;
        set (inner := fold_left G params (enterScope s0)) in *;
        destruct Hp as [A [B C]];
        apply (scoped_bind s0 inner inner);
          [exact A|exact C|apply follows_refl|apply IHnode|];
        intros s Hs; cbn [proceeds];
        apply (scoped_follows s0 inner);
          [exact A|exact C|exists []; rewrite B; cbn; now rewrite app_nil_r|]
    end.
    eapply follows_trans; [exact Hs|].
    apply follows_fold_errors. intros s' [pname info].
    destruct (_ && _); [right; eauto|now left].
  - destruct (enterScope_inner st) as [A [B C]].
    apply (scoped_bind st (enterScope st) (enterScope st));
      [exact A|exact B|apply follows_refl|apply proceeds_forEach; exact H|].
    intros s Hs. now apply (scoped_follows st (enterScope st)).
  - apply IHnode.
  - apply proceeds_bind; [apply IHnode1|]. intros s.
    apply proceeds_bind; [apply IHnode2|]. intros s'.
    apply (proceeds_option elseBranch H).
  - apply proceeds_bind; [apply IHnode1|apply IHnode2].
  - destruct (enterScope_inner st) as [A [B C]].
    apply (scoped_bind st (enterScope st) (enterScope st));
      [exact A|exact B|apply follows_refl
      |destruct initializer; [apply H|apply follows_refl]|].
    intros s1 F1.
    apply (scoped_bind st (enterScope st) s1);
      [exact A|exact B|exact F1|apply (proceeds_option condition H0)|].
    intros s2 F2.
    apply (scoped_bind st (enterScope st) s2);
      [exact A|exact B|exact F2|apply (proceeds_option increment H1)|].
    intros s3 F3.
    apply (scoped_bind st (enterScope st) s3);
      [exact A|exact B|exact F3|apply IHnode|].
    intros s4 F4. now apply (scoped_follows st (enterScope st)).
  - apply (proceeds_option value H).
  - apply proceeds_bind; [apply IHnode1|apply IHnode2].
  - apply IHnode.
  - apply proceeds_bind; [apply IHnode1|apply IHnode2].
  - apply proceeds_bind; [|apply IHnode2].
    destruct node1; try apply IHnode1.
    destruct (lookupVariable name st);
      [apply proceeds_setField|apply follows_pushError].
  - apply proceeds_bind; [apply IHnode|]. intros s.
    apply proceeds_bind; [|intros s'; apply proceeds_forEach; exact H].
    destruct node; try apply follows_refl.
    destruct (lookupVariable name s) as [func|]; [|apply follows_pushError].
    destruct (negb _); [apply follows_pushError|apply proceeds_setField].
  - apply IHnode1.
  - apply proceeds_visitIdentifier.
  - apply follows_refl.
  - apply IHnode.
Qed.

Lemma includes_spec (l : list string) (s : string) : includes l s = true <-> In s l.
Proof.
  unfold includes. rewrite existsb_exists. split.
  - intros [k [Hk E]]. apply String.eqb_eq in E. now subst.
  - intros H. exists s. split; [exact H|apply String.eqb_refl].
Qed.

Lemma inherited_follows (p p' : ObjectPrototype) (name : string) :
  prototypeFollows p p' ->
  found (inherited p name) = true -> found (inherited p' name) = true.
Proof.
  intros [A [B _]]. unfold inherited.
  destruct (includes members name); [auto|].
  destruct (String.eqb name "used").
  - cbn [andb]. destruct (objectUsed p); [now rewrite A|].
    destruct (String.eqb name "initialized"); cbn [andb].
    + destruct (objectInitialized p); [|discriminate].
      rewrite B by reflexivity. intros _. now destruct (objectUsed p').
    + discriminate.
  - cbn [andb]. destruct (String.eqb name "initialized"); cbn [andb]; [|auto].
    destruct (objectInitialized p); [now rewrite B|discriminate].
Qed.

(** What [table[name]] finds, it finds in a table that has kept its
    names and its prototype. *)
Lemma found_keeps (p p' : ObjectPrototype) (table table' : SymbolTable) (name : string) :
  tableKeeps table table' -> prototypeFollows p p' ->
  found (get p name table) = true -> found (get p' name table') = true.
Proof.
  intros [Hn Hproto] Hp. unfold get.
  destruct (own name (entries table')) eqn:E'; [reflexivity|].
  assert (E : own name (entries table) = None).
  { destruct (own name (entries table)) eqn:E; [|reflexivity].
    assert (H : isSome (own name (entries table')) = true).
    { rewrite own_names. apply includes_spec, Hn, includes_spec.
      fold (names table). unfold names. rewrite <- own_names. now rewrite E. }
    rewrite E' in H. discriminate H. }
  rewrite E. destruct (String.eqb name "__proto__").
  { intros _. now destruct (proto table'). }
  destruct (proto table) as [r|], (proto table') as [r'|]; cbn in Hproto;
    try contradiction; [|now apply inherited_follows].
  destruct Hproto as [Ht [Hi Hu]].
  destruct (String.eqb name "type"); [cbn; now rewrite Ht|].
  destruct (String.eqb name "initialized"); [exact Hi|].
  destruct (String.eqb name "used"); [exact Hu|].
  now apply inherited_follows.
Qed.

Lemma lookupOuter_found (p : ObjectPrototype) (name : string) (l : list SymbolTable) :
  isSome (lookupOuter p name l) = existsb (fun table => found (get p name table)) l.
Proof.
  induction l as [|s l IH]; [reflexivity|]. cbn [lookupOuter existsb].
  destruct (found (get p name s)) eqn:E; [|exact IH].
  cbn [orb]. now destruct (get p name s).
Qed.

(** [lookupVariable] finds a name when a table of the stack has it. *)
Lemma declared_stack (name : string) (st : t) :
  declared name st = true
  <-> exists table,
        In table (stack st) /\ found (get (objectPrototype st) name table) = true.
Proof.
  unfold declared, lookupVariable, stack.
  destruct (found (get (objectPrototype st) name (currentScope st))) eqn:E.
  - split.
    + intros _. exists (currentScope st). split; [|exact E].
      apply in_or_app. right. now left.
    + intros _. now destruct (get (objectPrototype st) name (currentScope st)).
  - rewrite lookupOuter_found, existsb_exists. split.
    + intros [table [Hin H]]. exists table. split; [|exact H].
      apply in_or_app. left. now apply in_rev.
    + intros [table [Hin H]]. apply in_app_or in Hin as [Hin|[<-|[]]].
      * exists table. split; [now apply in_rev in Hin|exact H].
      * rewrite E in H. discriminate H.
Qed.

Lemma Forall2_In {A B} (R : A -> B -> Prop) (l : list A) (l' : list B) (a : A) :
  Forall2 R l l' -> In a l -> exists b, In b l' /\ R a b.
Proof.
  induction 1 as [|x y l l' Hxy _ IH]; intros Hin; [contradiction|].
  destruct Hin as [->|Hin].
  - exists y. split; [now left|exact Hxy].
  - destruct (IH Hin) as [b [Hb Hr]]. exists b. split; [now right|exact Hr].
Qed.

Lemma keeps_declared (st st' : t) (name : string) :
  keeps st st' -> declared name st = true -> declared name st' = true.
Proof.
  intros [[kept [deeper [Hs Hk]]] Hp] H.
  apply declared_stack in H as [table [Hin Hf]].
  destruct (Forall2_In _ _ _ _ Hk Hin) as [table' [Hin' Ht]].
  apply declared_stack. exists table'. split.
  - rewrite Hs. apply in_or_app. now left.
  - exact (found_keeps _ _ _ _ _ Ht Hp Hf).
Qed.

Lemma keeps_depth (st st' : t) :
  keeps st st' -> List.length (scopes st) <= List.length (scopes st').
Proof.
  intros [[kept [deeper [Hs Hk]]] _].
  apply Forall2_length in Hk. apply (f_equal (@List.length _)) in Hs.
  unfold stack in *. rewrite !length_app in *. cbn [List.length] in *. lia.
Qed.

Lemma follows_depth (st st' : t) :
  follows st st' -> List.length (scopes st') = List.length (scopes st).
Proof.
  intros [H _]. apply (f_equal (@List.length _)) in H. now rewrite !length_map in H.
Qed.

Lemma names_declaration (name : string) (e : SemanticError) (symbol : Symbol) (st : t) :
  scopes (if found (get (objectPrototype st) name (currentScope st))
          then pushError e st else setCurrent name symbol st) = scopes st
  /\ declares name st
       (if found (get (objectPrototype st) name (currentScope st))
        then pushError e st else setCurrent name symbol st).
Proof.
  unfold declares. destruct (found _) eqn:E; [auto|].
  split; [reflexivity|]. exact (names_assign_unfound _ _ symbol _ E).
Qed.

(** Declarations stay local to the scope they are made in.  When the
    visit of a block statement or of a for statement returns, the
    current scope and the enclosing scopes have the own names they
    had.  When the visit of a function declaration returns, they have
    them too, but for the name of the function, which the current
    scope has got exactly when [currentScope[name]] was not found: not
    for a name that every object inherits, such as [toString].  The
    name comes behind the others unless it is an array index.  Which
    names [lookupVariable] finds is not local: a block that mentions
    [__proto__] writes [used] to [Object.prototype], where every table
    finds it afterwards. *)
Theorem declarations_stay_local :
  (forall body st st',
      visit (BlockStatement body) st = Ok st' ->
      map names (scopes st') = map names (scopes st)
      /\ names (currentScope st') = names (currentScope st))
  /\ (forall initializer condition increment body st st',
        visit (ForStatement initializer condition increment body) st = Ok st' ->
        map names (scopes st') = map names (scopes st)
        /\ names (currentScope st') = names (currentScope st))
  /\ (forall function params body st st',
        visit (FunctionDeclaration function params body) st = Ok st' ->
        map names (scopes st') = map names (scopes st)
        /\ declares function st st')
  /\ (declared "used" new = false
      /\ exists st',
           visit (BlockStatement [ExpressionStatement (Identifier "__proto__")]) new
           = Ok st'
           /\ declared "used" st' = true).
Proof.
  assert (Hscope : forall st inner r st',
             scopes inner = stack st ->
             objectPrototype inner = objectPrototype st ->
             (exists new, errors inner = (errors st ++ new)%list) ->
             proceeds inner r ->
             bind r (fun st => Ok (exitScope st)) = Ok st' ->
             map names (scopes st') = map names (scopes st)
             /\ names (currentScope st') = names (currentScope st)).
  { intros st inner r st' A B C Hr H. destruct r as [s|e s]; [|discriminate H].
    injection H as <-.
    destruct (scoped_follows st inner s A B C Hr) as [_ [H1 H2]]. auto. }
  split; [|split; [|split]].
  - intros body st st' H. cbn [visit] in H.
    destruct (enterScope_inner st) as [A [B C]].
    apply (Hscope st (enterScope st) _ _ A B C) in H; [exact H|].
    apply proceeds_forEach, Forall_forall. intros node _ s. apply visit_proceeds.
  - intros initializer condition increment body st st' H. cbn [visit] in H.
    destruct (enterScope_inner st) as [A [B C]].
    pose proof (visit_proceeds (ForStatement initializer condition increment body) st)
      as Hp.
    cbn [visit] in Hp.
    destruct (match initializer with Some _ => _ | None => _ end) as [s1|e1 s1] eqn:E1;
      [|discriminate H].
    assert (F1 : follows (enterScope st) s1).
    { destruct initializer as [n|].
      - pose proof (visit_proceeds n (enterScope st)) as Hn. now rewrite E1 in Hn.
      - injection E1 as <-. apply follows_refl. }
    cbn [bind] in H.
    destruct (match condition with Some _ => _ | None => _ end) as [s2|e2 s2] eqn:E2;
      [|discriminate H].
    assert (F2 : follows s1 s2).
    { destruct condition as [n|].
      - pose proof (visit_proceeds n s1) as Hn. now rewrite E2 in Hn.
      - injection E2 as <-. apply follows_refl. }
    cbn [bind] in H.
    destruct (match increment with Some _ => _ | None => _ end) as [s3|e3 s3] eqn:E3;
      [|discriminate H].
    assert (F3 : follows s2 s3).
    { destruct increment as [n|].
      - pose proof (visit_proceeds n s2) as Hn. now rewrite E3 in Hn.
      - injection E3 as <-. apply follows_refl. }
    cbn [bind] in H.
    apply (Hscope st (enterScope st) _ _ A B C) in H; [exact H|].
    apply (proceeds_step _ s3); [|apply visit_proceeds].
    eapply follows_trans; [exact F1|]. eapply follows_trans; eassumption.
  - intros function params body st st' H. cbn [visit] in H.
    match type of H with
    | bind (visit _ (fold_left ?G _ (enterScope ?s0))) _ = _ =>
        pose proof (names_declaration function
                      (mkSemanticError
                         ("Function '" ++ function ++ "' already declared in this scope")
                         (FunctionDeclaration function params body))
                      (mkSymbol "function" true false) st) as Hd;
        cbn zeta in Hd;
        pose proof (parameters_current params (enterScope s0)) as Hparams;
        set (inner := fold_left G params (enterScope s0)) in *;
        set (declaring := s0) in *
    end.
    destruct Hd as [Hd1 Hd2]. destruct Hparams as [A [B C]].
    pose proof (visit_proceeds body inner) as Hv.
    destruct (visit body inner) as [s|e s]; [|discriminate H].
    cbn [bind proceeds] in H, Hv. injection H as <-.
    match goal with
    | |- context [exitScope ?s'] =>
        assert (Hs : follows declaring (exitScope s')
                     /\ names (currentScope (exitScope s'))
                        = names (currentScope declaring)
                     /\ map names (scopes (exitScope s'))
                        = map names (scopes declaring))
    end.
    { apply (scoped_follows declaring inner); [exact A|exact C| |].
      - exists []. rewrite B. cbn. now rewrite app_nil_r.
      - eapply follows_trans; [exact Hv|].
        apply follows_fold_errors. intros s' [pname info].
        destruct (_ && _); [right; eauto|now left]. }
    destruct Hs as [_ [H1 H2]]. split; [now rewrite H2, Hd1|].
    unfold declares in *. rewrite H1. exact Hd2.
  - split; [reflexivity|]. eexists. split; reflexivity.
Qed.

Lemma declarations_stay_local_witness :
  (map names
     (scopes
        (exitScope
           (setCurrent "y" (mkSymbol "variable" false false) (enterScope new))))
   = map names (scopes new)
   /\ names
        (currentScope
           (exitScope
              (setCurrent "y" (mkSymbol "variable" false false) (enterScope new))))
      = names (currentScope new))
  /\ (map names (scopes (pushError
                           (mkSemanticError
                              "Function 'toString' already declared in this scope"
                              (FunctionDeclaration "toString" [] (BlockStatement [])))
                           new))
      = map names (scopes new)
      /\ declares "toString" new
           (pushError
              (mkSemanticError
                 "Function 'toString' already declared in this scope"
                 (FunctionDeclaration "toString" [] (BlockStatement [])))
              new)).
Proof.
  split.
  - apply (proj1 declarations_stay_local [VariableDeclaration "y" None] new).
    reflexivity.
  - apply (proj1 (proj2 (proj2 declarations_stay_local)) "toString" []
             (BlockStatement []) new).
    reflexivity.
Defined.

(** [analyze] never forgets a declaration: a name that
    [lookupVariable] finds when the call starts is found when it
    returns, with the same number of enclosing scopes, and also when
    it throws, with the scopes it had entered on top. *)
Theorem analyze_keeps_declarations :
  forall ast st name,
    declared name st = true ->
    match analyze ast st with
    | Returns _ st' =>
        declared name st' = true
        /\ List.length (scopes st') = List.length (scopes st)
    | Throws _ st' =>
        declared name st' = true
        /\ List.length (scopes st) <= List.length (scopes st')
    end.
Proof.
  intros ast st name H. unfold analyze.
  set (st0 := mk (scopes st) (currentScope st) [] (objectPrototype st)).
  assert (H0 : declared name st0 = true) by exact H.
  pose proof (visit_proceeds ast st0) as Hv.
  destruct (visit ast st0) as [st'|e st']; cbn [proceeds] in Hv.
  - split; [exact (keeps_declared _ _ _ (follows_keeps _ _ Hv) H0)|].
    exact (follows_depth _ _ Hv).
  - split; [exact (keeps_declared _ _ _ Hv H0)|exact (keeps_depth _ _ Hv)].
Qed.

Lemma analyze_keeps_declarations_witness :
  match analyze (Program [VariableDeclaration "y" None])
          (mk [empty] (mkTable [("x", mkSymbol "variable" false false)] None) []
             pristine) with
  | Returns _ st' => declared "x" st' = true /\ List.length (scopes st') = 1
  | Throws _ st' => declared "x" st' = true /\ 1 <= List.length (scopes st')
  end
  /\ match analyze
             (Program
                [BlockStatement
                   [ExpressionStatement (Identifier "__proto__");
                    ExpressionStatement (Identifier "used")]])
             (mk [empty] (mkTable [("x", mkSymbol "variable" false false)] None) []
                pristine) with
     | Returns _ st' => declared "x" st' = true /\ List.length (scopes st') = 1
     | Throws _ st' => declared "x" st' = true /\ 1 <= List.length (scopes st')
     end.
Proof.
  split.
  - apply (analyze_keeps_declarations (Program [VariableDeclaration "y" None])
             (mk [empty] (mkTable [("x", mkSymbol "variable" false false)] None) []
                pristine) "x").
    reflexivity.
  - apply (analyze_keeps_declarations
             (Program
                [BlockStatement
                   [ExpressionStatement (Identifier "__proto__");
                    ExpressionStatement (Identifier "used")]])
             (mk [empty] (mkTable [("x", mkSymbol "variable" false false)] None) []
                pristine) "x").
    reflexivity.
Defined.

End ScopeFacts.

Section ScopeExit.
Import Parser SemanticAnalyzer.

Lemma exitScope_loop (table : list (string * Symbol)) :
  forall st,
    fold_left
      (fun st (entry : string * Symbol) =>
         let (name, info) := entry in
         if negb (used info) then
           pushError
             (mkSemanticError ("Variable '" ++ name ++ "' is declared but never used")
                (Identifier name)) st
         else st)
      table st
    = mk (scopes st) (currentScope st)
        (errors st
           ++ map unusedError (map fst (filter (fun entry => negb (used (snd entry))) table)))
        (objectPrototype st).
Proof.
  induction table as [|[name info] table IH]; intros st; cbn [fold_left].
  - cbn. rewrite app_nil_r. now destruct st.
  - rewrite IH. cbn [filter snd].
    destruct (negb (used info));
      cbn [map fst pushError scopes currentScope errors objectPrototype].
    + now rewrite <- app_assoc.
    + reflexivity.
Qed.

(** [exitScope] reports every own entry of the scope it leaves that is
    not marked as used, in declaration order and whatever its kind,
    and makes the innermost enclosing scope the current one.  Leaving
    a scope that was just entered changes nothing. *)
Theorem exitScope_reports_unused :
  (forall st outer table,
      scopes st = (outer ++ [table])%list ->
      exitScope st =
        mk outer table
          (errors st ++ map unusedError (unusedNames (currentScope st)))
          (objectPrototype st))
  /\ (forall st, exitScope (enterScope st) = st).
Proof.
  assert (H : forall st outer table,
             scopes st = (outer ++ [table])%list ->
             exitScope st =
               mk outer table
                 (errors st ++ map unusedError (unusedNames (currentScope st)))
                 (objectPrototype st)).
  { intros st outer table Hs. unfold exitScope. rewrite exitScope_loop.
    cbn [scopes currentScope errors objectPrototype]. rewrite Hs.
    now rewrite removelast_last, last_last. }
  split; [exact H|].
  intros st. rewrite (H _ (scopes st) (currentScope st)) by reflexivity.
  cbn. rewrite app_nil_r. now destruct st.
Qed.

Lemma exitScope_reports_unused_witness :
  exitScope
    (mk [empty; mkTable [("x", mkSymbol "variable" false true)] None]
       (mkTable
          [("y", mkSymbol "variable" false false); ("z", mkSymbol "variable" true true)]
          None)
       [] pristine)
  = mk [empty] (mkTable [("x", mkSymbol "variable" false true)] None)
      [unusedError "y"] pristine.
Proof.
  apply (proj1 exitScope_reports_unused
           (mk [empty; mkTable [("x", mkSymbol "variable" false true)] None]
              (mkTable
                 [("y", mkSymbol "variable" false false);
                  ("z", mkSymbol "variable" true true)]
                 None)
              [] pristine)
           [empty] (mkTable [("x", mkSymbol "variable" false true)] None)).
  reflexivity.
Defined.

End ScopeExit.

(* ================================================================= *)
(** ** What the code generator accepts *)

Section CodeGeneratorFacts.
Import JS CodeGenerator Pipeline.
Open Scope codegen_scope.

Lemma emitLine_level (line : string) (st : t) :
  (0 <= indentLevel st)%Z ->
  emitLine line 0 st = Ok tt (mk (output st ++ [repeat_string "  " (Z.to_nat (indentLevel st + 0)) ++ line]) (indentLevel st)).
Proof.
  intros H. unfold emitLine. destruct (indentLevel st + 0 <? 0)%Z eqn:E; [lia|reflexivity].
Qed.

Ltac level_case E :=
  apply String.eqb_eq in E; subst;
  cbv [Optimizer.includes existsb knownOps negb orb andb
       String.eqb Ascii.eqb Bool.eqb];
  unfold callLine, binaryLine; unfold withJoined, bind, indent, emitLine;
  cbn [indentLevel output];
  repeat (match goal with
          | |- context [isArray ?v] => destruct v; cbn [isArray negb]
          | |- context [Z.ltb ?a ?b] => destruct (Z.ltb_spec a b)
          | |- context [if ?b then _ else _] => destruct b
          end; cbn [indentLevel output]);
  (let Hl := fresh "Hl" in intros Hl; try discriminate Hl; injection Hl as <-);
  try solve [eexists; reflexivity | lia | eexists; f_equal; f_equal; lia].

(** [processInstruction] returns where [levelAfter] has a value, at
    that indentation level. *)
Lemma processInstruction_level (instr : IRInstruction) (st : t) (level : Z) :
  levelAfter instr (indentLevel st) = Some level ->
  exists out, processInstruction instr st = Ok tt (mk out level).
Proof.
  destruct instr as [o args]. unfold levelAfter, processInstruction.
  cbn [op IRGenerator.op].
  repeat match goal with
    | |- context [if String.eqb o ?s then _ else _] =>
        let E := fresh "E" in
        destruct (String.eqb o s) eqn:E; [level_case E|]
    end.
  unfold Optimizer.includes at 1, knownOps. cbn [existsb].
  repeat match goal with E : String.eqb o _ = false |- _ => rewrite E; clear E end.
  discriminate.
Qed.

Lemma processAll_levels (ir : list IRInstruction) :
  forall st level,
    levelsAfter ir (indentLevel st) = Some level ->
    exists out, processAll ir st = Ok tt (mk out level).
Proof.
  induction ir as [|instr ir IH]; intros st level H; cbn [levelsAfter processAll] in *.
  - injection H as <-. exists (output st). now destruct st.
  - destruct (levelAfter instr (indentLevel st)) as [l|] eqn:E; [|discriminate H].
    unfold bind. destruct (processInstruction_level _ _ _ E) as [out ->].
    apply (IH (mk out l)). exact H.
Qed.

(** [generate] returns the text of every list whose instructions
    [processInstruction] accepts from indentation level 0 on. *)
Lemma generate_levels (ir : list IRInstruction) (level : Z) :
  levelsAfter ir 0 = Some level -> exists code, generate ir = Generated code.
Proof.
  intros H. unfold generate. unfold bind at 1.
  assert (Hpre : exists out, preamble (mk [] 0) = Ok tt (mk out 0))
    by (eexists; reflexivity).
  destruct Hpre as [out ->].
  destruct (processAll_levels ir (mk out 0) level H) as [out' ->].
  eexists. reflexivity.
Qed.

Lemma processAll_app (l1 l2 : list IRInstruction) :
  forall st,
    processAll (l1 ++ l2) st =
      match processAll l1 st with
      | Ok _ st' => processAll l2 st'
      | Throw e => Throw e
      end.
Proof.
  induction l1 as [|x l1 IH]; intros st; cbn [app processAll]; [reflexivity|].
  unfold bind. destruct (processInstruction x st) as [[] st'|e]; [apply IH|reflexivity].
Qed.

Lemma processInstruction_unknown (instr : IRInstruction) (st : t) :
  Optimizer.includes knownOps (op instr) = false ->
  processInstruction instr st =
    Throw (CodeGenerationError ("Unknown instruction: " ++ op instr) instr).
Proof.
  unfold Optimizer.includes, knownOps. cbn [existsb]. intros H.
  repeat match type of H with
    | (?b || _) = false => apply orb_false_elim in H as [? H]
    end.
  unfold processInstruction.
  repeat match goal with E : String.eqb (op instr) _ = false |- _ => rewrite E; clear E end.
  reflexivity.
Qed.

(** The first instruction whose operation the code generator does not
    know makes [generate] throw a CodeGenerationError that names the
    operation and carries the instruction. *)
Theorem unknown_instruction_is_reported :
  forall before instr after code,
    generate before = Generated code ->
    Optimizer.includes knownOps (op instr) = false ->
    generate (before ++ instr :: after) =
      Failed (CodeGenerationError ("Unknown instruction: " ++ op instr) instr).
Proof.
  intros before instr after code Hbefore Hop. unfold generate, bind in *.
  destruct (preamble (mk [] 0)) as [[] st0|e]; [|discriminate Hbefore].
  rewrite processAll_app.
  destruct (processAll before st0) as [[] st1|e]; [|discriminate Hbefore].
  cbn [processAll]. unfold bind.
  now rewrite (processInstruction_unknown instr st1 Hop).
Qed.

Lemma unknown_instruction_is_reported_witness :
  generate (Examples.storeInput ++ Examples.instr "PRINT" [VStr "x"] :: []) =
    Failed (CodeGenerationError "Unknown instruction: PRINT"
              (Examples.instr "PRINT" [VStr "x"])).
Proof.
  apply (unknown_instruction_is_reported Examples.storeInput
           (Examples.instr "PRINT" [VStr "x"]) []
           (match generate Examples.storeInput with
            | Generated code => code
            | Failed _ => ""
            end)).
  - reflexivity.
  - reflexivity.
Defined.

End CodeGeneratorFacts.

(* ================================================================= *)
(** ** The instructions of the IR generator *)

Section GeneratedCode.
Import JS Parser Pipeline.
Import IRGenerator.
Open Scope ir_scope.

Lemma levelsAfter_app (l1 l2 : list IRInstruction) :
  forall level,
    levelsAfter (l1 ++ l2) level =
      match levelsAfter l1 level with
      | Some level' => levelsAfter l2 level'
      | None => None
      end.
Proof.
  induction l1 as [|x l1 IH]; intros level; cbn [app levelsAfter]; [reflexivity|].
  destruct (levelAfter x level); [apply IH|reflexivity].
Qed.

Lemma balanced_nil : balanced [].
Proof. intros level _. reflexivity. Qed.

Lemma balanced_app (l1 l2 : list IRInstruction) :
  balanced l1 -> balanced l2 -> balanced (l1 ++ l2).
Proof.
  intros H1 H2 level Hlevel. rewrite levelsAfter_app, (H1 level Hlevel).
  exact (H2 level Hlevel).
Qed.

Ltac level_compute :=
  cbv [levelsAfter levelAfter CodeGenerator.op op CodeGenerator.arg Optimizer.arg
       Optimizer.args args nth
       Optimizer.includes existsb knownOps String.eqb Ascii.eqb Bool.eqb
       negb orb andb isArray].

Ltac balanced_one :=
  let level := fresh "level" in
  let Hlevel := fresh "Hlevel" in
  intros level Hlevel; level_compute;
  destruct (Z.ltb_spec level 0); [lia|reflexivity].

Lemma emitsBalanced_ret {A} (a : A) : emitsBalanced (ret a).
Proof. intros st. exists []. split; [now rewrite app_nil_r|exact balanced_nil]. Qed.

Lemma emitsBalanced_throw {A} (e : IRGenerationError) : emitsBalanced (@throw A e).
Proof. intros st. exact I. Qed.

Lemma emitsBalanced_bind {A B} (m : M A) (k : A -> M B) :
  emitsBalanced m -> (forall a, emitsBalanced (k a)) -> emitsBalanced (bind m k).
Proof.
  intros Hm Hk st. unfold bind. specialize (Hm st).
  destruct (m st) as [a st1|e st1]; [|exact I].
  destruct Hm as [new1 [E1 B1]]. specialize (Hk a st1).
  destruct (k a st1) as [b st2|e st2]; [|exact I].
  destruct Hk as [new2 [E2 B2]]. exists (new1 ++ new2)%list.
  split; [now rewrite E2, E1, app_assoc|now apply balanced_app].
Qed.

Lemma emitsBalanced_emit (o : string) (a : list Value) :
  balanced [mkInstr o a] -> emitsBalanced (emit o a).
Proof. intros H st. exists [mkInstr o a]. now split. Qed.

Lemma emitsBalanced_createTemp : emitsBalanced createTemp.
Proof. intros st. exists []. split; [cbn; now rewrite app_nil_r|exact balanced_nil]. Qed.

Lemma emitsBalanced_createLabel (prefix : string) : emitsBalanced (createLabel prefix).
Proof. intros st. exists []. split; [cbn; now rewrite app_nil_r|exact balanced_nil]. Qed.

(** An instruction that opens a level, a balanced part, and the
    instruction that closes the level. *)
Lemma emitsBalanced_wrapped {A B} (o1 o2 : string) (a1 a2 : list Value)
    (inner : M A) (rest : M B) :
  (forall level, (0 <= level)%Z ->
                 levelAfter (mkInstr o1 a1) level = Some (level + 1)%Z) ->
  (forall level, (0 <= level)%Z ->
                 levelAfter (mkInstr o2 a2) (level + 1)%Z = Some level) ->
  emitsBalanced inner -> emitsBalanced rest ->
  emitsBalanced (emit o1 a1 ;;; inner ;;; emit o2 a2 ;;; rest).
Proof.
  intros Hopen Hclose Hinner Hrest st. unfold bind, emit.
  match goal with |- context [inner ?s] => specialize (Hinner s); destruct (inner s) as [a st1|e st1] end;
    [|exact I].
  destruct Hinner as [new1 [E1 B1]]. cbn [instructions] in E1.
  match goal with |- context [rest ?s] => specialize (Hrest s); destruct (rest s) as [b st2|e st2] end;
    [|exact I].
  destruct Hrest as [new2 [E2 B2]]. cbn [instructions] in E2.
  exists ([mkInstr o1 a1] ++ new1 ++ [mkInstr o2 a2] ++ new2)%list. split.
  - rewrite E2, E1. now rewrite <- !app_assoc.
  - intros level Hlevel. rewrite levelsAfter_app. cbn [levelsAfter].
    rewrite (Hopen level Hlevel), levelsAfter_app, (B1 (level + 1)%Z) by lia.
    rewrite levelsAfter_app. cbn [levelsAfter]. rewrite (Hclose level Hlevel).
    exact (B2 level Hlevel).
Qed.

Lemma binaryOperation_balanced (operator operation : string) (a : list Value) :
  binaryOperation operator = Some operation -> balanced [mkInstr operation a].
Proof.
  unfold binaryOperation.
  repeat match goal with
    | |- context [if String.eqb operator ?s then _ else _] =>
        destruct (String.eqb operator s);
        [intros H; injection H as <-; balanced_one|]
    end.
  discriminate.
Qed.

Ltac eb_step :=
  lazymatch goal with
  | |- emitsBalanced (bind _ _) => apply emitsBalanced_bind; [|intros ?]
  | |- emitsBalanced (ret _) => apply emitsBalanced_ret
  | |- emitsBalanced (throw _) => apply emitsBalanced_throw
  | |- emitsBalanced (emit _ _) =>
      apply emitsBalanced_emit;
      first [balanced_one | eapply binaryOperation_balanced; eassumption]
  | |- emitsBalanced createTemp => apply emitsBalanced_createTemp
  | |- emitsBalanced (createLabel _) => apply emitsBalanced_createLabel
  | |- emitsBalanced (match ?o with Some _ => _ | None => _ end) => destruct o eqn:?
  | |- emitsBalanced (if ?b then _ else _) => destruct b
  | |- emitsBalanced (generateIR _) => assumption
  end.

Lemma statements_balanced (body : list ASTNode) :
  Forall (fun node => emitsBalanced (generateIR node)) body ->
  emitsBalanced
    ((fix statements (l : list ASTNode) : M string :=
        match l with
        | [] => ret ""
        | s :: rest => generateIR s ;;; statements rest
        end) body).
Proof.
  induction 1 as [|node body Hnode _ IH]; [apply emitsBalanced_ret|].
  apply emitsBalanced_bind; [exact Hnode|intros _; exact IH].
Qed.

Lemma arguments_balanced (arguments : list ASTNode) :
  Forall (fun node => emitsBalanced (generateIR node)) arguments ->
  forall temps,
    emitsBalanced
      ((fix argTemps (l : list ASTNode) (args : list string) : M (list string) :=
          match l with
          | [] => ret args
          | arg :: rest =>
              argTemp <- generateIR arg ;;
              argTemps rest (args ++ [argTemp])%list
          end) arguments temps).
Proof.
  induction 1 as [|node body Hnode _ IH]; intros temps; [apply emitsBalanced_ret|].
  apply emitsBalanced_bind; [exact Hnode|intros a; apply IH].
Qed.

(** The instructions [generateIR] emits for a node are balanced, and
    so are those of the object of a member expression. *)
Lemma generateIR_balanced :
  forall node,
    emitsBalanced (generateIR node)
    /\ match node with
       | MemberExpression object _ => emitsBalanced (generateIR object)
       | _ => True
       end.
Proof.
  induction node using ASTNode_induction;
    (split; [|try exact I]); cbn [generateIR].
  - apply statements_balanced. eapply Forall_impl; [|exact H]. intros ? [? _]; assumption.
  - destruct initializer as [e|]; [destruct H as [H _]|]; repeat eb_step.
  - destruct IHnode as [IH _].
    apply emitsBalanced_wrapped;
      [intros level Hlevel; level_compute; destruct (Z.ltb_spec level 0); [lia|reflexivity]
      |intros level Hlevel; level_compute;
       destruct (Z.ltb_spec (level + 1 - 1) 0); [lia|f_equal; lia]
      |exact IH|apply emitsBalanced_ret].
  - apply emitsBalanced_wrapped;
      [intros level Hlevel; level_compute; destruct (Z.ltb_spec level 0); [lia|reflexivity]
      |intros level Hlevel; level_compute;
       destruct (Z.ltb_spec (level + 1 - 1) 0); [lia|f_equal; lia]
      | |apply emitsBalanced_ret].
    apply statements_balanced. eapply Forall_impl; [|exact H]. intros ? [? _]; assumption.
  - destruct IHnode as [IH _]. repeat eb_step.
  - destruct IHnode1 as [IH1 _], IHnode2 as [IH2 _].
    destruct elseBranch as [e|]; [destruct H as [H _]|]; repeat eb_step.
  - destruct IHnode1 as [IH1 _], IHnode2 as [IH2 _]. repeat eb_step.
  - destruct IHnode as [IH _].
    destruct initializer as [i|]; [destruct H as [H _]|];
      (destruct condition as [c|]; [destruct H0 as [H0 _]|]);
      (destruct increment as [u|]; [destruct H1 as [H1 _]|]); repeat eb_step.
  - destruct value as [e|]; [destruct H as [H _]|]; repeat eb_step.
  - destruct IHnode1 as [IH1 _], IHnode2 as [IH2 _]. repeat eb_step.
  - destruct IHnode as [IH _]. repeat eb_step.
  - destruct IHnode1 as [IH1 _], IHnode2 as [IH2 _]. repeat eb_step.
  - destruct IHnode2 as [IH2 _]. apply emitsBalanced_bind; [exact IH2|intros rightTemp].
    destruct node1; try apply emitsBalanced_throw; [|repeat eb_step].
    destruct IHnode1 as [_ IH1]. repeat eb_step.
  - destruct IHnode as [IH _].
    apply emitsBalanced_bind;
      [apply arguments_balanced; eapply Forall_impl; [|exact H]; intros ? [? _]; assumption|].
    intros temps. destruct node; repeat eb_step.
  - destruct IHnode1 as [IH1 _]. repeat eb_step.
  - destruct IHnode1 as [IH1 _]. exact IH1.
  - repeat eb_step.
  - repeat eb_step.
  - destruct IHnode as [IH _]. exact IH.
Qed.

(** The instruction list [generate] returns is balanced. *)
Lemma generate_balanced (ast : ASTNode) (ir : list IRInstruction) :
  generate ast = Generated ir -> balanced ir.
Proof.
  unfold generate. pose proof (proj1 (generateIR_balanced ast) (mk [] 0 0)) as H.
  destruct (generateIR ast (mk [] 0 0)) as [temp st|e st]; [|discriminate].
  destruct H as [new [E B]]. intros Hg. injection Hg as <-. now rewrite E.
Qed.

End GeneratedCode.

Section GeneratorFailures.
Import JS Parser.
Import IRGenerator.
Open Scope ir_scope.

Lemma failsKnown_ret {A} (a : A) : failsKnown (ret a).
Proof. intros st. exact I. Qed.

Lemma failsKnown_bind {A B} (m : M A) (k : A -> M B) :
  failsKnown m -> (forall a, failsKnown (k a)) -> failsKnown (bind m k).
Proof.
  intros Hm Hk st. unfold bind. specialize (Hm st).
  destruct (m st) as [a st1|e st1]; [apply Hk|exact Hm].
Qed.

Lemma failsKnown_throw {A} (e : IRGenerationError) :
  knownFailure e -> failsKnown (@throw A e).
Proof. intros H st. exact H. Qed.

Lemma failsKnown_emit (o : string) (a : list Value) : failsKnown (emit o a).
Proof. intros st. exact I. Qed.

Lemma failsKnown_createTemp : failsKnown createTemp.
Proof. intros st. exact I. Qed.

Lemma failsKnown_createLabel (prefix : string) : failsKnown (createLabel prefix).
Proof. intros st. exact I. Qed.

Ltac fk_step :=
  lazymatch goal with
  | |- failsKnown (bind _ _) => apply failsKnown_bind; [|intros ?]
  | |- failsKnown (ret _) => apply failsKnown_ret
  | |- failsKnown (emit _ _) => apply failsKnown_emit
  | |- failsKnown createTemp => apply failsKnown_createTemp
  | |- failsKnown (createLabel _) => apply failsKnown_createLabel
  | |- failsKnown (match ?o with Some _ => _ | None => _ end) => destruct o eqn:?
  | |- failsKnown (if ?b then _ else _) => destruct b eqn:?
  | |- failsKnown (generateIR _) => assumption
  end.

Lemma statements_failsKnown (body : list ASTNode) :
  Forall (fun node => failsKnown (generateIR node)) body ->
  failsKnown
    ((fix statements (l : list ASTNode) : M string :=
        match l with
        | [] => ret ""
        | s :: rest => generateIR s ;;; statements rest
        end) body).
Proof.
  induction 1 as [|node body Hnode _ IH]; [apply failsKnown_ret|].
  apply failsKnown_bind; [exact Hnode|intros _; exact IH].
Qed.

Lemma arguments_failsKnown (arguments : list ASTNode) :
  Forall (fun node => failsKnown (generateIR node)) arguments ->
  forall temps,
    failsKnown
      ((fix argTemps (l : list ASTNode) (args : list string) : M (list string) :=
          match l with
          | [] => ret args
          | arg :: rest =>
              argTemp <- generateIR arg ;;
              argTemps rest (args ++ [argTemp])%list
          end) arguments temps).
Proof.
  induction 1 as [|node body Hnode _ IH]; intros temps; [apply failsKnown_ret|].
  apply failsKnown_bind; [exact Hnode|intros a; apply IH].
Qed.

(** Every error [generateIR] throws is one of the four the source
    builds, thrown for the node it names. *)
Lemma generateIR_failsKnown :
  forall node,
    failsKnown (generateIR node)
    /\ match node with
       | MemberExpression object _ => failsKnown (generateIR object)
       | _ => True
       end.
Proof.
  induction node using ASTNode_induction;
    (split; [|try exact I]); cbn [generateIR].
  - apply statements_failsKnown. eapply Forall_impl; [|exact H]. intros ? [? _]; assumption.
  - destruct initializer as [e|]; [destruct H as [H _]|]; repeat fk_step.
  - destruct IHnode as [IH _]. repeat fk_step.
  - repeat fk_step.
    apply statements_failsKnown. eapply Forall_impl; [|exact H]. intros ? [? _]; assumption.
  - destruct IHnode as [IH _]. repeat fk_step.
  - destruct IHnode1 as [IH1 _], IHnode2 as [IH2 _].
    destruct elseBranch as [e|]; [destruct H as [H _]|]; repeat fk_step.
  - destruct IHnode1 as [IH1 _], IHnode2 as [IH2 _]. repeat fk_step.
  - destruct IHnode as [IH _].
    destruct initializer as [i|]; [destruct H as [H _]|];
      (destruct condition as [c|]; [destruct H0 as [H0 _]|]);
      (destruct increment as [u|]; [destruct H1 as [H1 _]|]); repeat fk_step.
  - destruct value as [e|]; [destruct H as [H _]|]; repeat fk_step.
  - destruct IHnode1 as [IH1 _], IHnode2 as [IH2 _]. repeat fk_step.
    apply failsKnown_throw. cbn. auto.
  - destruct IHnode as [IH _]. repeat fk_step.
    apply failsKnown_throw. cbn.
    repeat match goal with E : String.eqb _ _ = false |- _ => apply String.eqb_neq in E end.
    auto.
  - destruct IHnode1 as [IH1 _], IHnode2 as [IH2 _]. repeat fk_step.
    apply failsKnown_throw. cbn.
    repeat match goal with E : String.eqb _ _ = false |- _ => apply String.eqb_neq in E end.
    auto.
  - destruct IHnode2 as [IH2 _]. apply failsKnown_bind; [exact IH2|intros rightTemp].
    destruct node1;
      try (apply failsKnown_throw; cbn; repeat split; discriminate);
      [|repeat fk_step].
    destruct IHnode1 as [_ IH1]. repeat fk_step.
  - destruct IHnode as [IH _].
    apply failsKnown_bind;
      [apply arguments_failsKnown; eapply Forall_impl; [|exact H]; intros ? [? _]; assumption|].
    intros temps. destruct node; repeat fk_step.
  - destruct IHnode1 as [IH1 _]. repeat fk_step.
  - destruct IHnode1 as [IH1 _]. exact IH1.
  - repeat fk_step.
  - repeat fk_step.
  - destruct IHnode as [IH _]. exact IH.
Qed.

(** What [generate] can throw: an unknown binary, unary or logical
    operator, reported for the expression that carries it, or an
    assignment whose target is neither an Identifier nor a
    MemberExpression, reported for the assignment. *)
Theorem generate_fails_only_on_unknown_operators :
  forall ast message node,
    generate ast = Failed (mkIRGenerationError message node) ->
    (exists operator lhs rhs,
        node = BinaryExpression operator lhs rhs
        /\ binaryOperation operator = None
        /\ message = "Unknown binary operator: " ++ operator)
    \/ (exists operator argument,
          node = UnaryExpression operator argument
          /\ operator <> "-" /\ operator <> "!"
          /\ message = "Unknown unary operator: " ++ operator)
    \/ (exists operator lhs rhs,
          node = LogicalExpression operator lhs rhs
          /\ operator <> "&&" /\ operator <> "||"
          /\ message = "Unknown logical operator: " ++ operator)
    \/ (exists operator target value,
          node = AssignmentExpression operator target value
          /\ nodeType target <> "Identifier" /\ nodeType target <> "MemberExpression"
          /\ message = "Invalid assignment target").
Proof.
  intros ast message node H. unfold generate in H.
  pose proof (proj1 (generateIR_failsKnown ast) (mk [] 0 0)) as Hk.
  destruct (generateIR ast (mk [] 0 0)) as [temp st|e st]; [discriminate H|].
  injection H as ->. cbn in Hk.
  destruct node; try contradiction.
  - left. do 3 eexists. split; [reflexivity|exact Hk].
  - right. left. do 2 eexists. split; [reflexivity|exact Hk].
  - right. right. left. do 3 eexists. split; [reflexivity|exact Hk].
  - right. right. right. do 3 eexists. split; [reflexivity|exact Hk].
Qed.

Lemma generate_fails_only_on_unknown_operators_witness :
  (exists operator lhs rhs,
      Examples.oneTwo "=" = BinaryExpression operator lhs rhs
      /\ binaryOperation operator = None
      /\ "Unknown binary operator: =" = "Unknown binary operator: " ++ operator)
  \/ (exists operator argument,
        Examples.oneTwo "=" = UnaryExpression operator argument
        /\ operator <> "-" /\ operator <> "!"
        /\ "Unknown binary operator: =" = "Unknown unary operator: " ++ operator)
  \/ (exists operator lhs rhs,
        Examples.oneTwo "=" = LogicalExpression operator lhs rhs
        /\ operator <> "&&" /\ operator <> "||"
        /\ "Unknown binary operator: =" = "Unknown logical operator: " ++ operator)
  \/ (exists operator target value,
        Examples.oneTwo "=" = AssignmentExpression operator target value
        /\ nodeType target <> "Identifier" /\ nodeType target <> "MemberExpression"
        /\ "Unknown binary operator: =" = "Invalid assignment target").
Proof.
  apply (generate_fails_only_on_unknown_operators
           (Program [ExpressionStatement (Examples.oneTwo "=")])).
  reflexivity.
Defined.

End GeneratorFailures.

(* ================================================================= *)
(** ** The optimizer and the code generator *)

Section OptimizedCode.
Import JS Pipeline.
Import Optimizer.

Lemma plainOps_plain (instr : IRInstruction) :
  includes plainOps (op instr) = true -> plain instr.
Proof.
  destruct instr as [o a]. unfold includes, plainOps. cbn [existsb op IRGenerator.op].
  intros H level.
  repeat match type of H with
    | (String.eqb o ?s || _) = true =>
        let E := fresh "E" in
        destruct (String.eqb o s) eqn:E;
        [apply String.eqb_eq in E; subst o; clear H;
         cbv [levelsAfter levelAfter CodeGenerator.op IRGenerator.op CodeGenerator.arg
              Optimizer.arg Optimizer.args IRGenerator.args
              Optimizer.includes existsb knownOps String.eqb Ascii.eqb Bool.eqb
              negb orb andb]; reflexivity
        |cbn [orb] in H]
    end.
  discriminate H.
Qed.

Lemma includes_sub (l l' : list string) (o : string) :
  (forall s, In s l -> In s l') -> includes l o = true -> includes l' o = true.
Proof.
  unfold includes. intros Hsub H. apply existsb_exists in H as [s [Hin Hs]].
  apply existsb_exists. exists s. auto.
Qed.

Ltac in_plainOps :=
  let s := fresh in
  let H := fresh in
  intros s H; cbn in H;
  repeat (destruct H as [<-|H]; [cbn; tauto|]); destruct H.

Lemma binaryOps_plain (instr : IRInstruction) :
  includes binaryOps (op instr) = true -> plain instr.
Proof. intros H. apply plainOps_plain. revert H. apply includes_sub. in_plainOps. Qed.

Lemma unaryOps_plain (instr : IRInstruction) :
  includes ["NEG"; "NOT"] (op instr) = true -> plain instr.
Proof. intros H. apply plainOps_plain. revert H. apply includes_sub. in_plainOps. Qed.

Lemma const_plain (a : list Value) : plain (mkInstr "CONST" a).
Proof. now apply plainOps_plain. Qed.

Lemma copy_plain (a : list Value) : plain (mkInstr "COPY" a).
Proof. now apply plainOps_plain. Qed.

Lemma levelsAfter_replace (result rest : list IRInstruction) (x x' : IRInstruction)
    (level level' : Z) :
  (forall i k, levelAfter x i = Some k -> levelAfter x' i = Some k) ->
  levelsAfter (result ++ x :: rest) level = Some level' ->
  levelsAfter ((result ++ [x']) ++ rest) level = Some level'.
Proof.
  intros Hx. rewrite <- app_assoc, !levelsAfter_app. cbn [app levelsAfter].
  destruct (levelsAfter result level) as [l1|]; [|discriminate].
  destruct (levelAfter x l1) as [l2|] eqn:E; [|discriminate].
  now rewrite (Hx _ _ E).
Qed.

Lemma levelsAfter_keep (result rest : list IRInstruction) (x : IRInstruction)
    (level level' : Z) :
  levelsAfter (result ++ x :: rest) level = Some level' ->
  levelsAfter ((result ++ [x]) ++ rest) level = Some level'.
Proof. now rewrite <- app_assoc. Qed.

Lemma levelsAfter_drop (result rest : list IRInstruction) (x : IRInstruction)
    (level level' : Z) :
  plain x ->
  levelsAfter (result ++ x :: rest) level = Some level' ->
  levelsAfter (result ++ rest) level = Some level'.
Proof.
  intros Hx. rewrite !levelsAfter_app. cbn [levelsAfter].
  destruct (levelsAfter result level) as [l1|]; [|discriminate].
  rewrite (Hx l1). now destruct (l1 <? 0)%Z.
Qed.

Lemma plain_replace (x x' : IRInstruction) :
  plain x -> plain x' ->
  forall i k, levelAfter x i = Some k -> levelAfter x' i = Some k.
Proof. intros H H' i k. now rewrite (H i), (H' i). Qed.

Lemma constantFoldingLoop_levels (ir rest : list IRInstruction) (level level' : Z) :
  forall i result changed,
    levelsAfter (result ++ rest) level = Some level' ->
    levelsAfter (fst (constantFoldingLoop ir i rest result changed)) level = Some level'.
Proof.
  induction rest as [|x rest IH]; intros i result changed H; cbn [constantFoldingLoop].
  - now rewrite app_nil_r in H.
  - destruct (foldedBinary ir i x) as [folded|] eqn:Eb.
    + apply IH, (levelsAfter_replace _ _ x); [|exact H].
      unfold foldedBinary in Eb.
      destruct (includes binaryOps (op x)) eqn:Eo; [|discriminate Eb].
      apply plain_replace; [now apply binaryOps_plain|].
      repeat match type of Eb with
        | match ?t with _ => _ end = _ => destruct t; try discriminate Eb
        end.
      injection Eb as <-. apply const_plain.
    + destruct (foldedUnary ir i x) as [folded|] eqn:Eu.
      * apply IH, (levelsAfter_replace _ _ x); [|exact H].
        unfold foldedUnary in Eu.
        destruct (includes ["NEG"; "NOT"] (op x)) eqn:Eo; [|discriminate Eu].
        apply plain_replace; [now apply unaryOps_plain|].
        repeat match type of Eu with
          | match ?t with _ => _ end = _ => destruct t; try discriminate Eu
          end;
          injection Eu as <-; apply const_plain.
      * apply IH, levelsAfter_keep, H.
Qed.

Lemma isDead_plain (used : list string) (jumps : list Value) (x : IRInstruction) :
  isDead used jumps x = true -> plain x.
Proof.
  unfold isDead, isStoreOrConst. intros H. apply plainOps_plain.
  unfold includes, plainOps. cbn [existsb].
  destruct (String.eqb (op x) "STORE"); [now rewrite !orb_true_r|].
  destruct (String.eqb (op x) "CONST"); [now rewrite !orb_true_r|].
  destruct (String.eqb (op x) "LABEL"); [now rewrite !orb_true_r|].
  discriminate H.
Qed.

Lemma eliminationLoop_levels (used : list string) (jumps : list Value)
    (rest : list IRInstruction) (level level' : Z) :
  forall result changed,
    levelsAfter (result ++ rest) level = Some level' ->
    levelsAfter (fst (eliminationLoop used jumps rest result changed)) level
    = Some level'.
Proof.
  induction rest as [|x rest IH]; intros result changed H; cbn [eliminationLoop].
  - now rewrite app_nil_r in H.
  - destruct (isDead used jumps x) eqn:E.
    + apply IH, (levelsAfter_drop _ _ x); [exact (isDead_plain _ _ _ E)|exact H].
    + apply IH, levelsAfter_keep, H.
Qed.

Lemma substitute_array (constants : ValueMap) (instr : IRInstruction) :
  isArray (CodeGenerator.arg 1 instr) = true ->
  isArray (CodeGenerator.arg 1
             (mkInstr (op instr) (map (substitute constants) (args instr)))) = true.
Proof.
  unfold CodeGenerator.arg, arg, args, mkInstr. cbn [IRGenerator.args].
  intros H.
  rewrite (map_nth (substitute constants) (IRGenerator.args instr) VUndef 1
           : nth 1 (map (substitute constants) (IRGenerator.args instr)) VUndef = _).
  now destruct (nth 1 (IRGenerator.args instr) VUndef).
Qed.

Lemma substitute_levels (constants : ValueMap) (instr : IRInstruction) :
  forall i k,
    levelAfter instr i = Some k ->
    levelAfter (mkInstr (op instr) (map (substitute constants) (args instr))) i = Some k.
Proof.
  intros i k.
  pose proof (substitute_array constants instr) as Harr.
  set (instr' := mkInstr (op instr) (map (substitute constants) (args instr))) in *.
  assert (Hop : CodeGenerator.op instr' = CodeGenerator.op instr) by reflexivity.
  unfold levelAfter. rewrite Hop.
  destruct (negb (includes knownOps (CodeGenerator.op instr))); [discriminate|].
  destruct (includes ["FUNCTION_START"; "CALL"; "CALL_INDIRECT"] (CodeGenerator.op instr));
    cbn [andb]; [|auto].
  destruct (isArray (CodeGenerator.arg 1 instr)) eqn:E; [|discriminate].
  now rewrite (Harr eq_refl).
Qed.

Lemma constantPropagationLoop_levels (rest : list IRInstruction) (level level' : Z) :
  forall constants result changed,
    levelsAfter (result ++ rest) level = Some level' ->
    levelsAfter (fst (constantPropagationLoop rest constants result changed)) level
    = Some level'.
Proof.
  induction rest as [|x rest IH]; intros constants result changed H;
    cbn [constantPropagationLoop].
  - now rewrite app_nil_r in H.
  - destruct (track x constants) as [constants' [replaced|]] eqn:Et.
    + apply IH, (levelsAfter_replace _ _ x); [|exact H].
      unfold track in Et.
      repeat match type of Et with
        | (if ?b then _ else _) = _ => destruct b eqn:?; try discriminate Et
        | match ?t with _ => _ end = _ => destruct t; try discriminate Et
        end.
      injection Et as _ <-.
      apply plain_replace; [|apply const_plain].
      apply plainOps_plain. unfold includes, plainOps. cbn [existsb].
      match goal with E : String.eqb (op x) "LOAD" = true |- _ => rewrite E end.
      now rewrite !orb_true_r.
    + destruct (existsb (isKnown constants') (args x)).
      * apply IH, (levelsAfter_replace _ _ x); [apply substitute_levels|exact H].
      * apply IH, levelsAfter_keep, H.
Qed.

Lemma eliminationOfSubexpressions_levels (rest : list IRInstruction) (level level' : Z) :
  forall expressions result changed,
    levelsAfter (result ++ rest) level = Some level' ->
    levelsAfter (fst (eliminationOfSubexpressions rest expressions result changed)) level
    = Some level'.
Proof.
  induction rest as [|x rest IH]; intros expressions result changed H;
    cbn [eliminationOfSubexpressions].
  - now rewrite app_nil_r in H.
  - destruct (includes binaryOps (op x)) eqn:Eo.
    + destruct (exprGet (exprKey x) expressions).
      * apply IH, (levelsAfter_replace _ _ x); [|exact H].
        apply plain_replace; [now apply binaryOps_plain|apply copy_plain].
      * apply IH, levelsAfter_keep, H.
    + destruct (includes ["STORE"; "CALL"; "FUNCTION_START"; "BLOCK_START"] (op x));
        apply IH, levelsAfter_keep, H.
Qed.

(** No pass turns a list the code generator accepts into one it
    rejects. *)
Lemma pass_levels (pass : Pass) (ir : list IRInstruction) (level level' : Z) :
  In pass passes ->
  levelsAfter ir level = Some level' ->
  levelsAfter (fst (pass ir)) level = Some level'.
Proof.
  intros [<-|[<-|[<-|[<-|[]]]]] H.
  - now apply constantFoldingLoop_levels.
  - now apply eliminationLoop_levels.
  - now apply constantPropagationLoop_levels.
  - now apply eliminationOfSubexpressions_levels.
Qed.

Lemma round_levels_from (ps : list Pass) (level level' : Z) :
  (forall p, In p ps -> In p passes) ->
  forall optimized changed,
    levelsAfter optimized level = Some level' ->
    levelsAfter
      (fst (fold_left
              (fun (acc : list IRInstruction * bool) (pass : Pass) =>
                 let (optimized, changed) := acc in
                 let (ir', passChanged) := pass optimized in
                 if passChanged then (ir', true) else (optimized, changed))
              ps (optimized, changed))) level = Some level'.
Proof.
  induction ps as [|pass ps IH]; intros Hps optimized changed H; cbn [fold_left].
  - exact H.
  - pose proof (pass_levels pass optimized level level' (Hps pass (or_introl eq_refl)) H)
      as Hpass.
    destruct (pass optimized) as [ir' [|]]; cbn [fst] in Hpass;
      apply IH; try (intros q Hq; apply Hps; now right); assumption.
Qed.

Lemma optimize_levels (fuel : nat) :
  forall ir optimized level level',
    optimize fuel ir = Some optimized ->
    levelsAfter ir level = Some level' ->
    levelsAfter optimized level = Some level'.
Proof.
  unfold optimize. induction fuel as [|fuel IH]; intros ir optimized level level' H Hl;
    [discriminate H|].
  rewrite optimizeLoop_S in H.
  pose proof (round_levels_from passes level level' (fun p Hp => Hp) ir false Hl) as Hr.
  change (levelsAfter (fst (round ir)) level = Some level') in Hr.
  destruct (round ir) as [ir' [|]]; cbn [fst] in Hr.
  - exact (IH _ _ _ _ H Hr).
  - injection H as <-. exact Hr.
Qed.

End OptimizedCode.

Section PipelineFacts.
Import Pipeline.
(** The code generator accepts what the optimizer returns for a list
    of the IR generator. *)
Lemma optimized_code (ast : Parser.ASTNode) (ir optimized : list IRGenerator.IRInstruction)
    (fuel : nat) :
  IRGenerator.generate ast = IRGenerator.Generated ir ->
  Optimizer.optimize fuel ir = Some optimized ->
  exists code, CodeGenerator.generate optimized = CodeGenerator.Generated code.
Proof.
  intros H Ho. apply generate_balanced in H.
  exact (generate_levels optimized 0
           (optimize_levels fuel _ _ _ _ Ho (H 0%Z (Z.le_refl 0)))).
Qed.

(** Code generation cannot fail in the pipeline: for every tree on
    which the IR generator returns, the code generator returns the
    text of the instruction list, and of every list the optimizer
    returns for it. *)
Theorem code_generation_never_fails :
  forall ast ir,
    IRGenerator.generate ast = IRGenerator.Generated ir ->
    (exists code, CodeGenerator.generate ir = CodeGenerator.Generated code)
    /\ forall fuel optimized,
         Optimizer.optimize fuel ir = Some optimized ->
         exists code, CodeGenerator.generate optimized = CodeGenerator.Generated code.
Proof.
  intros ast ir H. apply generate_balanced in H.
  specialize (H 0%Z (Z.le_refl 0)). split.
  - exact (generate_levels ir 0 H).
  - intros fuel optimized Ho.
    exact (generate_levels optimized 0 (optimize_levels fuel _ _ _ _ Ho H)).
Qed.

Lemma code_generation_never_fails_witness :
  (exists code,
      CodeGenerator.generate Examples.storeInput = CodeGenerator.Generated code)
  /\ forall fuel optimized,
       Optimizer.optimize fuel Examples.storeInput = Some optimized ->
       exists code, CodeGenerator.generate optimized = CodeGenerator.Generated code.
Proof.
  apply (code_generation_never_fails
           (Parser.Program
              [Parser.VariableDeclaration "x" (Some (Parser.Literal (JS.VNum 1)))])).
  reflexivity.
Defined.

(** [compile] never reports an error of the code generation phase,
    and once the IR is generated the result is a success. *)
Theorem compile_never_fails_in_code_generation :
  forall fuel source c r c',
    Compiler.compile fuel source c = Some (r, c') ->
    (forall d, In d (Compiler.errors r) -> Compiler.phase d <> "Code Generation")
    /\ (Compiler.ir r <> None -> Compiler.success r = true).
Proof.
  intros fuel source c r c' H. unfold Compiler.compile in H.
  destruct (Lexer.tokenize source) as [toks|e].
  2:{ injection H as <- _. split; [|intros Hir; now contradiction Hir].
      intros d [<-|[]]. now destruct e. }
  destruct (Parser.parse fuel toks) as [tree cur|e cur|]; [| |discriminate H].
  2:{ injection H as <- _. split; [|intros Hir; now contradiction Hir].
      intros d [<-|[]]. now destruct e. }
  destruct (SemanticAnalyzer.analyze tree (Compiler.semanticAnalyzer c))
    as [errs analyzer|e analyzer].
  2:{ injection H as <- _. split; [|intros Hir; now contradiction Hir].
      intros d [<-|[]]. now destruct e. }
  destruct (0 <? List.length errs)%nat.
  { injection H as <- _. split; [|intros Hir; now contradiction Hir].
    cbn [Compiler.errors]. intros d Hd. apply in_map_iff in Hd as [e [<- _]].
    discriminate. }
  destruct (IRGenerator.generate tree) as [code0|e] eqn:Eg.
  2:{ injection H as <- _. split; [|intros Hir; now contradiction Hir].
      intros d [<-|[]]. now destruct e. }
  destruct (Optimizer.optimize fuel code0) as [opt|] eqn:Eo; [|discriminate H].
  destruct (optimized_code _ _ _ _ Eg Eo) as [text Et].
  rewrite Et in H.
  injection H as <- _. split; [intros d []|reflexivity].
Qed.

Lemma compile_never_fails_in_code_generation_witness :
  Compiler.compile 20 "var x = 1;" Compiler.new
  = Some (Examples.declarationResult, Examples.declarationCompiler)
  /\ (forall d, In d (Compiler.errors Examples.declarationResult) ->
                Compiler.phase d <> "Code Generation")
  /\ (Compiler.ir Examples.declarationResult <> None ->
      Compiler.success Examples.declarationResult = true).
Proof.
  assert (H : Compiler.compile 20 "var x = 1;" Compiler.new
              = Some (Examples.declarationResult, Examples.declarationCompiler))
    by (vm_compute; reflexivity).
  split; [exact H|].
  exact (compile_never_fails_in_code_generation 20 "var x = 1;" Compiler.new _ _ H).
Defined.

End PipelineFacts.

(* ================================================================= *)
(** ** The results of the compiler *)

Section CompilerResult.
Import Compiler.

(** The shape of every result of [compile]: [success] holds exactly
    when [errors] is empty, and exactly when [code] is present; the
    products of the phases are present in pipeline order. *)
Theorem compile_result_shape :
  forall fuel source c r c',
    compile fuel source c = Some (r, c') ->
    (success r = true <-> errors r = [])
    /\ (success r = true <-> code r <> None)
    /\ (ast r <> None -> tokens r <> None)
    /\ (ir r <> None -> ast r <> None)
    /\ (optimizedIr r <> None <-> ir r <> None)
    /\ (code r <> None -> optimizedIr r <> None).
Proof.
  intros fuel source c r c' H. unfold compile in H.
  destruct (Lexer.tokenize source) as [toks|e].
  2:{ injection H as <- _. cbn. repeat split; intros; try discriminate; congruence. }
  destruct (Parser.parse fuel toks) as [tree cur|e cur|]; [| |discriminate H].
  2:{ injection H as <- _. cbn. repeat split; intros; try discriminate; congruence. }
  destruct (SemanticAnalyzer.analyze tree (semanticAnalyzer c))
    as [errs analyzer|e analyzer].
  2:{ injection H as <- _. cbn. repeat split; intros; try discriminate; congruence. }
  destruct errs as [|e errs]; cbn [List.length Nat.ltb Nat.leb] in H.
  2:{ injection H as <- _. cbn. repeat split; intros; try discriminate; congruence. }
  destruct (IRGenerator.generate tree) as [code0|e].
  2:{ injection H as <- _. cbn. repeat split; intros; try discriminate; congruence. }
  destruct (Optimizer.optimize fuel code0) as [opt|]; [|discriminate H].
  destruct (CodeGenerator.generate opt) as [text|e];
    injection H as <- _; cbn; repeat split; intros; try discriminate; congruence.
Qed.

Lemma compile_result_shape_witness :
  compile 20 "var x; var x;" new
  = Some (Examples.duplicateResult, mk Examples.duplicateAnalyzer)
  /\ (success Examples.duplicateResult = true <-> errors Examples.duplicateResult = [])
  /\ (success Examples.duplicateResult = true <-> code Examples.duplicateResult <> None)
  /\ (ast Examples.duplicateResult <> None -> tokens Examples.duplicateResult <> None)
  /\ (ir Examples.duplicateResult <> None -> ast Examples.duplicateResult <> None)
  /\ (optimizedIr Examples.duplicateResult <> None
      <-> ir Examples.duplicateResult <> None)
  /\ (code Examples.duplicateResult <> None
      -> optimizedIr Examples.duplicateResult <> None).
Proof.
  assert (H : compile 20 "var x; var x;" new
              = Some (Examples.duplicateResult, mk Examples.duplicateAnalyzer))
    by (vm_compute; reflexivity).
  split; [exact H|].
  exact (compile_result_shape 20 "var x; var x;" new _ _ H).
Defined.

End CompilerResult.

(* ================================================================= *)
(** ** What the passes keep, and what their flags say *)

Section DeadCode.
Import JS Optimizer Examples.

Lemma includes_In (l : list string) (s : string) : includes l s = true <-> In s l.
Proof.
  unfold includes. rewrite existsb_exists. split.
  - intros [k [Hk E]]. apply String.eqb_eq in E. now subst.
  - intros H. exists s. split; [exact H|apply String.eqb_refl].
Qed.

Lemma markArgs_spec (a : list Value) (s : string) :
  forall used,
    In s (markArgs used a)
    <-> In s used \/ (In (VStr s) a /\ startsWith s "t" = true).
Proof.
  induction a as [|v a IH]; intros used.
  - cbn. split; [auto|]. now intros [H|[[] _]].
  - unfold markArgs. cbn [fold_left]. fold (markArgs
      (match v with
       | VStr s0 => if startsWith s0 "t" && negb (includes used s0)
                    then (used ++ [s0])%list else used
       | _ => used end) a).
    rewrite IH. clear IH. cbn [In].
    destruct v as [n|k|b| | |l];
      try (split; [intros [H|[H1 H2]]; auto|intros [H|[[H1|H1] H2]]; auto; discriminate H1]).
    destruct (startsWith k "t") eqn:Et; cbn [andb].
    + destruct (includes used k) eqn:Ei; cbn [negb].
      * apply includes_In in Ei.
        split; [intros [H|[H1 H2]]; auto|].
        intros [H|[[H1|H1] H2]]; auto. injection H1 as ->. auto.
      * rewrite in_app_iff. cbn [In].
        split.
        -- intros [[H|[<-|[]]]|[H1 H2]]; auto.
        -- intros [H|[[H1|H1] H2]]; auto. injection H1 as ->. auto.
    + split; [intros [H|[H1 H2]]; auto|].
      intros [H|[[H1|H1] H2]]; auto. injection H1 as ->. congruence.
Qed.

(** The [usedVars] set holds the names that start with t and are an
    element of the [args] of an instruction other than a STORE or a
    CONST. *)
Lemma usedVars_spec (ir : list IRInstruction) (s : string) :
  In s (usedVars ir)
  <-> startsWith s "t" = true
      /\ exists reader,
           In reader ir /\ isStoreOrConst reader = false /\ In (VStr s) (args reader).
Proof.
  unfold usedVars.
  change (In s (fold_left (fun used instr =>
                             if negb (isStoreOrConst instr)
                             then markArgs used (args instr) else used) ir [])
          <-> startsWith s "t" = true
              /\ exists reader,
                   In reader ir /\ isStoreOrConst reader = false
                   /\ In (VStr s) (args reader)).
  assert (H : forall used,
             In s (fold_left (fun used instr =>
                                if negb (isStoreOrConst instr)
                                then markArgs used (args instr) else used) ir used)
             <-> In s used
                 \/ (startsWith s "t" = true
                     /\ exists reader,
                          In reader ir /\ isStoreOrConst reader = false
                          /\ In (VStr s) (args reader))).
  { induction ir as [|x ir IH]; intros used; cbn [fold_left].
    - split; [auto|]. now intros [H|[_ [r [[] _]]]].
    - rewrite IH. clear IH.
      destruct (isStoreOrConst x) eqn:E; cbn [negb].
      + split.
        * intros [H|[Ht [r [Hin Hr]]]]; auto.
          right. split; [exact Ht|]. exists r. split; [now right|exact Hr].
        * intros [H|[Ht [r [[->|Hin] [Hr Hs]]]]]; auto; [congruence|].
          right. split; [exact Ht|]. exists r. auto.
      + rewrite markArgs_spec. split.
        * intros [[H|[H1 H2]]|[Ht [r [Hin Hr]]]]; auto.
          -- right. split; [exact H2|]. exists x. split; [now left|auto].
          -- right. split; [exact Ht|]. exists r. split; [now right|exact Hr].
        * intros [H|[Ht [r [[->|Hin] [Hr Hs]]]]]; auto.
          right. split; [exact Ht|]. exists r. auto. }
  rewrite H. cbn [In]. tauto.
Qed.

Lemma storeOrConst_not_label (x : IRInstruction) :
  isStoreOrConst x = true -> String.eqb (op x) "LABEL" = false.
Proof.
  unfold isStoreOrConst. intros H.
  destruct (String.eqb (op x) "LABEL") eqn:E; [|reflexivity].
  apply String.eqb_eq in E. rewrite E in H. discriminate H.
Qed.

(** What dead code elimination removes.  An instruction other than a
    STORE, a CONST or a LABEL is kept.  A STORE or a CONST is kept
    exactly when its destination is not a string that starts with t,
    or is itself an element of the [args] of some instruction of the
    list other than a STORE or a CONST; a name inside an argument
    array is not an element of [args]. *)
Theorem dead_code_elimination_keeps_what_is_read :
  forall ir x,
    In x ir ->
    (isStoreOrConst x = false -> op x <> "LABEL" ->
     In x (fst (deadCodeElimination ir)))
    /\ (isStoreOrConst x = true ->
        (In x (fst (deadCodeElimination ir))
         <-> isTempName (arg 1 x) = false
             \/ exists reader,
                  In reader ir /\ isStoreOrConst reader = false
                  /\ In (arg 1 x) (args reader))).
Proof.
  intros ir x Hin. split.
  - intros Hop Hlabel. apply deadCodeElimination_spec. split; [exact Hin|].
    unfold isDead. rewrite Hop. apply String.eqb_neq in Hlabel. now rewrite Hlabel.
  - intros Hop. rewrite deadCodeElimination_spec.
    unfold isDead. rewrite Hop, (storeOrConst_not_label _ Hop).
    cbn [andb orb]. rewrite orb_false_r.
    destruct (isTempName (arg 1 x)) eqn:Et; cbn [andb].
    2:{ split; [now left|now split]. }
    destruct (arg 1 x) as [n|s|b| | |l] eqn:Ea; try discriminate Et.
    cbn [isTempName] in Et. cbn [hasUsed].
    pose proof (usedVars_spec ir s) as Hspec. rewrite <- includes_In in Hspec.
    destruct (includes (usedVars ir) s) eqn:Ei; cbn [negb].
    + split; [|now split]. intros _. right. now apply Hspec.
    + split; [now intros [_ H]|].
      intros [H|H]; [discriminate H|].
      assert (false = true) by (apply Hspec; now split). discriminate.
Qed.

Lemma dead_code_elimination_keeps_what_is_read_witness :
  In (instr "CONST" [VStr "a"; VStr "t0"]) (fst (deadCodeElimination stringReturnIR))
  /\ ~ In (instr "CONST" [VNum 1; VStr "t0"])
         (fst (deadCodeElimination
                 [instr "CONST" [VNum 1; VStr "t0"];
                  instr "CALL" [VStr "f"; VArr ["t0"]; VStr "t1"]])).
Proof.
  split.
  - apply (dead_code_elimination_keeps_what_is_read stringReturnIR);
      [left; reflexivity|reflexivity|].
    right. exists (instr "RETURN" [VStr "t0"]).
    split; [right; left; reflexivity|]. split; [reflexivity|left; reflexivity].
  - intros H.
    apply (dead_code_elimination_keeps_what_is_read
             [instr "CONST" [VNum 1; VStr "t0"];
              instr "CALL" [VStr "f"; VArr ["t0"]; VStr "t1"]]) in H;
      [|left; reflexivity|reflexivity].
    destruct H as [H|[reader [[<-|[<-|[]]] [Hr Hs]]]]; try discriminate.
    destruct Hs as [Hs|[Hs|[Hs|[]]]]; discriminate.
Defined.

End DeadCode.

Section ChangeFlags.
Import JS Optimizer Examples.

Lemma honest_step (x x' : IRInstruction) (rest result : list IRInstruction)
    (changed changed' : bool) (out : list IRInstruction * bool) :
  honest rest (result ++ [x']) changed' out ->
  (changed' = false -> changed = false /\ x' = x) ->
  (changed' = true -> changed = true \/ x' <> x) ->
  honest (x :: rest) result changed out.
Proof.
  intros [mid [Hout [Hfalse Htrue]]] Hf Ht. exists (x' :: mid).
  split; [now rewrite Hout, <- app_assoc|]. split.
  - intros H. destruct (Hfalse H) as [Hc ->]. destruct (Hf Hc) as [-> ->]. auto.
  - intros H. destruct (Htrue H) as [Hc|Hmid].
    + destruct (Ht Hc) as [->|Hx]; [now left|right; congruence].
    + right. congruence.
Qed.

Lemma honest_nil (result : list IRInstruction) (changed : bool) :
  honest [] result changed (result, changed).
Proof.
  exists []. cbn. split; [now rewrite app_nil_r|]. split; [auto|]. intros ->. now left.
Qed.

Lemma honest_keep (x : IRInstruction) (rest result : list IRInstruction)
    (changed : bool) (out : list IRInstruction * bool) :
  honest rest (result ++ [x]) changed out -> honest (x :: rest) result changed out.
Proof. intros H. apply (honest_step x x _ _ changed changed _ H); auto. Qed.

Lemma honest_replace (x x' : IRInstruction) (rest result : list IRInstruction)
    (changed : bool) (out : list IRInstruction * bool) :
  x' <> x ->
  honest rest (result ++ [x']) true out -> honest (x :: rest) result changed out.
Proof.
  intros Hx H. apply (honest_step x x' _ _ changed true _ H); [discriminate|auto].
Qed.

Lemma op_differs (x : IRInstruction) (o : string) (a : list Value) (l : list string) :
  includes l (op x) = true -> includes l o = false -> mkInstr o a <> x.
Proof. intros H1 H2 <-. cbn in H1. congruence. Qed.

Lemma constantFoldingLoop_honest (ir rest : list IRInstruction) :
  forall i result changed,
    honest rest result changed (constantFoldingLoop ir i rest result changed).
Proof.
  induction rest as [|x rest IH]; intros i result changed; cbn [constantFoldingLoop].
  - apply honest_nil.
  - destruct (foldedBinary ir i x) as [folded|] eqn:Eb.
    + apply (honest_replace x folded); [|apply IH].
      unfold foldedBinary in Eb.
      destruct (includes binaryOps (op x)) eqn:Eo; [|discriminate Eb].
      repeat match type of Eb with
        | match ?t with _ => _ end = _ => destruct t; try discriminate Eb
        end.
      injection Eb as <-. now apply (op_differs x _ _ binaryOps).
    + destruct (foldedUnary ir i x) as [folded|] eqn:Eu.
      * apply (honest_replace x folded); [|apply IH].
        unfold foldedUnary in Eu.
        destruct (includes ["NEG"; "NOT"] (op x)) eqn:Eo; [|discriminate Eu].
        repeat match type of Eu with
          | match ?t with _ => _ end = _ => destruct t; try discriminate Eu
          end;
          injection Eu as <-; now apply (op_differs x _ _ ["NEG"; "NOT"]).
      * apply honest_keep, IH.
Qed.

Lemma eliminationOfSubexpressions_honest (rest : list IRInstruction) :
  forall expressions result changed,
    honest rest result changed
      (eliminationOfSubexpressions rest expressions result changed).
Proof.
  induction rest as [|x rest IH]; intros expressions result changed;
    cbn [eliminationOfSubexpressions].
  - apply honest_nil.
  - destruct (includes binaryOps (op x)) eqn:Eo.
    + destruct (exprGet (exprKey x) expressions).
      * eapply (honest_replace x); [|apply IH].
        now apply (op_differs x _ _ binaryOps).
      * apply honest_keep, IH.
    + destruct (includes ["STORE"; "CALL"; "FUNCTION_START"; "BLOCK_START"] (op x));
        apply honest_keep, IH.
Qed.

(** Constant propagation unsets its flag only if it replaced nothing. *)
Lemma constantPropagationLoop_unchanged (rest : list IRInstruction) :
  forall constants result changed,
    snd (constantPropagationLoop rest constants result changed) = false ->
    changed = false
    /\ fst (constantPropagationLoop rest constants result changed)
       = (result ++ rest)%list.
Proof.
  induction rest as [|x rest IH]; intros constants result changed;
    cbn [constantPropagationLoop].
  - cbn. intros ->. now rewrite app_nil_r.
  - destruct (track x constants) as [constants' [replaced|]].
    + intros H. now destruct (IH _ _ _ H).
    + destruct (existsb (isKnown constants') (args x)).
      * intros H. now destruct (IH _ _ _ H).
      * intros H. destruct (IH _ _ _ H) as [-> ->]. now rewrite <- app_assoc.
Qed.

(** The flag of dead code elimination is set exactly when an
    instruction was dropped. *)
Lemma eliminationLoop_flag (used : list string) (jumps : list Value)
    (rest : list IRInstruction) :
  forall result changed,
    (snd (eliminationLoop used jumps rest result changed) = false ->
     changed = false
     /\ fst (eliminationLoop used jumps rest result changed) = (result ++ rest)%list)
    /\ (snd (eliminationLoop used jumps rest result changed) = true ->
        changed = true
        \/ List.length (fst (eliminationLoop used jumps rest result changed))
           < List.length result + List.length rest).
Proof.
  induction rest as [|x rest IH]; intros result changed; cbn [eliminationLoop].
  - cbn. split; [intros ->; now rewrite app_nil_r|intros ->; now left].
  - destruct (isDead used jumps x).
    + destruct (IH result true) as [Hf Ht]. split.
      * intros H. now destruct (Hf H).
      * intros _. right.
        pose proof (eliminationLoop_length used jumps rest result true).
        cbn [List.length]. lia.
    + destruct (IH (result ++ [x])%list changed) as [Hf Ht]. split.
      * intros H. destruct (Hf H) as [-> ->]. now rewrite <- app_assoc.
      * intros H. destruct (Ht H) as [->|Hlen]; [now left|right].
        rewrite length_app in Hlen. cbn [List.length] in *. lia.
Qed.

Lemma pass_unchanged (pass : Pass) (ir : list IRInstruction) :
  In pass passes -> snd (pass ir) = false -> fst (pass ir) = ir.
Proof.
  intros [<-|[<-|[<-|[<-|[]]]]] H.
  - destruct (constantFoldingLoop_honest ir ir 0 [] false) as [mid [Hout [Hf _]]].
    unfold constantFolding in *. rewrite Hout. now destruct (Hf H) as [_ ->].
  - unfold deadCodeElimination in *.
    now destruct (proj1 (eliminationLoop_flag _ _ ir [] false) H) as [_ ->].
  - unfold constantPropagation in *.
    now destruct (constantPropagationLoop_unchanged ir [] [] false H) as [_ ->].
  - destruct (eliminationOfSubexpressions_honest ir [] [] false) as [mid [Hout [Hf _]]].
    unfold commonSubexpressionElimination in *. rewrite Hout.
    now destruct (Hf H) as [_ ->].
Qed.

Lemma pass_changed (pass : Pass) (ir : list IRInstruction) :
  In pass [constantFolding; deadCodeElimination; commonSubexpressionElimination] ->
  snd (pass ir) = true -> fst (pass ir) <> ir.
Proof.
  intros [<-|[<-|[<-|[]]]] H.
  - destruct (constantFoldingLoop_honest ir ir 0 [] false) as [mid [Hout [_ Ht]]].
    unfold constantFolding in *. rewrite Hout.
    destruct (Ht H) as [Hc|Hmid]; [discriminate Hc|exact Hmid].
  - unfold deadCodeElimination in *.
    destruct (proj2 (eliminationLoop_flag _ _ ir [] false) H) as [Hc|Hlen];
      [discriminate Hc|].
    intros Heq. rewrite Heq in Hlen. cbn in Hlen. lia.
  - destruct (eliminationOfSubexpressions_honest ir [] [] false) as [mid [Hout [_ Ht]]].
    unfold commonSubexpressionElimination in *. rewrite Hout.
    destruct (Ht H) as [Hc|Hmid]; [discriminate Hc|exact Hmid].
Qed.

(** The change flags of the passes.  A pass that reports no change
    returns its input.  Constant folding, dead code elimination and
    common subexpression elimination report a change only when the
    list they return differs from their input; constant propagation
    reports one on [CONST("a","a"), RETURN("a")] although it returns
    that list unchanged. *)
Theorem passes_report_changes :
  (forall pass ir, In pass passes -> snd (pass ir) = false -> fst (pass ir) = ir)
  /\ (forall pass ir,
        In pass [constantFolding; deadCodeElimination; commonSubexpressionElimination] ->
        snd (pass ir) = true -> fst (pass ir) <> ir)
  /\ constantPropagation stringReturnStuck = (stringReturnStuck, true).
Proof.
  split; [exact pass_unchanged|]. split; [exact pass_changed|].
  vm_compute. reflexivity.
Qed.

Lemma passes_report_changes_witness :
  fst (deadCodeElimination storeInput) <> storeInput.
Proof.
  apply (proj1 (proj2 passes_report_changes) deadCodeElimination storeInput).
  - right. left. reflexivity.
  - reflexivity.
Defined.

End ChangeFlags.

(* ================================================================= *)
(** ** The comparison operators, from the text to the tree *)

Section LexerOperators.
Import JS Lexer.

Lemma operatorToken_three_characters (st : State.t) (c : ascii) (two one : string) :
  String.get (State.position st) (State.source st) = Some "="%char ->
  String.get (State.position st + 1) (State.source st) = Some "="%char ->
  operatorToken c two one st =
    State.mk (State.source st) (State.position st + 1 + 1) (State.line st)
      (State.column st + 1 + 1)
      (State.tokens st ++
         [mkToken two (String c "=") (State.line st) (State.column st + 1 + 1 - 2)]).
Proof.
  intros H1 H2. unfold operatorToken.
  rewrite (match_found _ _ H1).
  rewrite (match_found _ "="%char) by exact H2.
  reflexivity.
Qed.

Ltac scan_three_characters :=
  intros st H0 H1 H2;
  unfold scanToken, advance; rewrite H0; cbv iota beta;
  rewrite operatorToken_three_characters;
  cbn [State.source State.position State.line State.column State.tokens];
  [ rewrite <- !Nat.add_assoc, <- !Z.add_assoc; reflexivity
  | exact H1
  | rewrite <- Nat.add_assoc; exact H2 ].

Lemma scans_equal_equal_equal : scansThreeCharacters "=" "EQUAL_EQUAL".
Proof. scan_three_characters. Qed.

Lemma scans_bang_equal_equal : scansThreeCharacters "!" "BANG_EQUAL".
Proof. scan_three_characters. Qed.

Lemma scans_less_equal_equal : scansThreeCharacters "<" "LESS_EQUAL".
Proof. scan_three_characters. Qed.

Lemma scans_greater_equal_equal : scansThreeCharacters ">" "GREATER_EQUAL".
Proof. scan_three_characters. Qed.

(** Rounds of the loop add up. *)
Lemma scanTokens_add (n m : nat) :
  forall st,
    scanTokens (n + m) st =
      match scanTokens n st with
      | Ok st' => scanTokens m st'
      | Throw e => Throw e
      end.
Proof.
  induction n as [|n IH]; intros st; [reflexivity|].
  cbn [Nat.add scanTokens]. destruct (isAtEnd st) eqn:E.
  - destruct m; cbn [scanTokens]; [reflexivity|now rewrite E].
  - destruct (scanToken st); [apply IH|reflexivity].
Qed.

Lemma scanTokens_stopped (n : nat) (st : State.t) :
  isAtEnd st = true -> scanTokens n st = Ok st.
Proof. intros H. destruct n; cbn [scanTokens]; [reflexivity|now rewrite H]. Qed.

(** From a state the loop reaches, the loop goes on to the state at
    which it stops. *)
Lemma reaches_continues (source : string) (st final : State.t) :
  reaches source st ->
  scanTokens (String.length source) (State.mk source 0 1 1 []) = Ok final ->
  scanTokens (String.length source) st = Ok final.
Proof.
  intros [n Hn] Hf.
  assert (Hend : isAtEnd final = true).
  { destruct (scanTokens_at_end (String.length source) (State.mk source 0 1 1 []) final)
      as [H _]; [cbn; lia|unfold remaining; cbn; lia|exact Hf|exact H]. }
  pose proof (scanTokens_add n (String.length source) (State.mk source 0 1 1 [])) as H1.
  rewrite Hn in H1. rewrite <- H1, Nat.add_comm, scanTokens_add, Hf.
  now apply scanTokens_stopped.
Qed.

Lemma reaches_source (source : string) (st : State.t) :
  reaches source st -> State.source st = source.
Proof.
  intros [n Hn].
  destruct (scanTokens_appends n (State.mk source 0 1 1 []) st) as [added [_ [_ [_ Hs]]]];
    [cbn; lia|exact Hn|exact Hs].
Qed.

(** The token that [scanToken] appends in a state the loop reaches is
    in the list [tokenize] returns. *)
Lemma reaches_token (source : string) (tokens : list Token) (st st' : State.t)
    (t : Token) :
  tokenize source = Ok tokens ->
  reaches source st ->
  State.position st < String.length (State.source st) ->
  scanToken st = Ok st' ->
  State.tokens st' = (State.tokens st ++ [t])%list ->
  In t tokens.
Proof.
  intros Ht Hr Hpos Hscan Htok.
  pose proof (reaches_source _ _ Hr) as Hsrc.
  unfold tokenize in Ht.
  destruct (scanTokens (String.length source) (State.mk source 0 1 1 []))
    as [final|e] eqn:Ef; [|discriminate Ht].
  injection Ht as <-.
  pose proof (reaches_continues _ _ _ Hr Ef) as Hc.
  assert (Hend : isAtEnd st = false).
  { unfold isAtEnd. apply Nat.leb_gt. exact Hpos. }
  destruct (String.length source) as [|n] eqn:El.
  { rewrite Hsrc, El in Hpos. lia. }
  cbn [scanTokens] in Hc. rewrite Hend, Hscan in Hc.
  destruct (scanToken_moves _ _ Hend Hscan) as [Hs' [_ Hle]].
  destruct (scanTokens_appends n st' final) as [added [Ha _]];
    [rewrite Hs'; exact Hle|exact Hc|].
  unfold appended in Ha. unfold addToken. cbn [State.tokens].
  rewrite Ha, Htok. apply in_or_app. left. apply in_or_app. left.
  apply in_or_app. right. now left.
Qed.

Ltac tokenize_two_characters scans :=
  intros source tokens st Ht Hr H0 H1 H2;
  eapply (reaches_token source tokens st _ _ Ht Hr);
  [ now apply get_lt in H0
  | exact (scans st H0 H1 H2)
  | cbn [State.tokens];
    replace (State.column st + 2 - 1)%Z with (State.column st + 1)%Z by lia;
    reflexivity ].

Lemma tokenizes_equal_equal : tokenizesTwoCharacterOperator "=" "EQUAL_EQUAL".
Proof. tokenize_two_characters scans_equal_equal. Qed.

Lemma tokenizes_bang_equal : tokenizesTwoCharacterOperator "!" "BANG_EQUAL".
Proof. tokenize_two_characters scans_bang_equal. Qed.

Lemma tokenizes_less_equal : tokenizesTwoCharacterOperator "<" "LESS_EQUAL".
Proof. tokenize_two_characters scans_less_equal. Qed.

Lemma tokenizes_greater_equal : tokenizesTwoCharacterOperator ">" "GREATER_EQUAL".
Proof. tokenize_two_characters scans_greater_equal. Qed.


End LexerOperators.

Section ParserOperators.
Import Parser.

(** [check(type)] at a token. *)
Lemma check_token (tokens : list Token) (type : string) (current : nat) (t : Token) :
  nth_error tokens current = Some t ->
  Parser.check tokens type current =
    Parser.Ok (negb (String.eqb (Lexer.type t) "EOF") && String.eqb (Lexer.type t) type)
      current.
Proof.
  intros Ht.
  cbv beta iota zeta delta [Parser.check Parser.isAtEnd Parser.peek Parser.bind Parser.ret].
  rewrite Ht. cbv beta iota.
  destruct (String.eqb (Lexer.type t) "EOF"); [reflexivity|].
  rewrite ?Ht. reflexivity.
Qed.

Lemma advance_token (tokens : list Token) (current : nat) (t : Token) :
  nth_error tokens current = Some t ->
  Lexer.type t <> "EOF" ->
  Parser.advance tokens current = Parser.Ok (Some t) (S current).
Proof.
  intros Ht Heof. apply String.eqb_neq in Heof.
  cbv beta iota zeta delta
    [Parser.advance Parser.isAtEnd Parser.peek Parser.bind Parser.ret
     Parser.previousToken].
  rewrite Ht. cbv beta iota. rewrite Heof. cbv beta iota. now rewrite Ht.
Qed.

(** [match(...types)] at a token whose kind is one of [types]. *)
Lemma match_kind (tokens : list Token) (types : list string) (current : nat)
    (t : Token) :
  nth_error tokens current = Some t ->
  Lexer.type t <> "EOF" ->
  In (Lexer.type t) types ->
  Parser.match_ tokens types current = Parser.Ok true (S current).
Proof.
  intros Ht Heof Hin.
  assert (E : String.eqb (Lexer.type t) "EOF" = false) by now apply String.eqb_neq.
  induction types as [|type types IH]; [contradiction|].
  cbn [Parser.match_]. unfold Parser.bind at 1.
  rewrite (check_token _ _ _ _ Ht), E. cbn [negb andb].
  destruct (String.eqb (Lexer.type t) type) eqn:Et.
  - unfold Parser.bind. now rewrite (advance_token _ _ _ Ht Heof).
  - apply IH. destruct Hin as [->|Hin]; [|exact Hin].
    rewrite String.eqb_refl in Et. discriminate Et.
Qed.

(** [match(...types)] at a token of another kind. *)
Lemma match_other (tokens : list Token) (types : list string) (current : nat)
    (t : Token) :
  nth_error tokens current = Some t ->
  ~ In (Lexer.type t) types ->
  Parser.match_ tokens types current = Parser.Ok false current.
Proof.
  intros Ht Hin.
  induction types as [|type types IH]; [reflexivity|].
  cbn [Parser.match_]. unfold Parser.bind at 1.
  rewrite (check_token _ _ _ _ Ht).
  assert (Et : String.eqb (Lexer.type t) type = false).
  { apply String.eqb_neq. intros <-. apply Hin. now left. }
  rewrite Et, andb_false_r. apply IH. intros H. apply Hin. now right.
Qed.

(** One round of the loop of [equality()], [comparison()], [term()] or
    [factor()]: the node gets the text of the matched token as its
    operator. *)
Lemma operatorLoop_step (tokens : list Token) (fuel : nat) (types : list string)
    (make : string -> ASTNode -> ASTNode -> ASTNode) (operand : M ASTNode)
    (expr right : ASTNode) (current current' : nat) (t : Token) :
  nth_error tokens current = Some t ->
  Lexer.type t <> "EOF" ->
  In (Lexer.type t) types ->
  operand (S current) = Parser.Ok right current' ->
  operatorLoop tokens (S fuel) types make operand expr current =
    operatorLoop tokens fuel types make operand (make (Lexer.value t) expr right)
      current'.
Proof.
  intros Ht Heof Hin Hop. cbn [operatorLoop].
  unfold Parser.bind at 1. rewrite (match_kind _ _ _ _ Ht Heof Hin).
  cbv beta iota zeta delta
    [Parser.bind Parser.ret Parser.previous Parser.previousToken].
  rewrite Ht. cbv beta iota. rewrite Hop. reflexivity.
Qed.

Lemma operatorLoop_stop (tokens : list Token) (fuel : nat) (types : list string)
    (make : string -> ASTNode -> ASTNode -> ASTNode) (operand : M ASTNode)
    (expr : ASTNode) (current : nat) (t : Token) :
  nth_error tokens current = Some t ->
  ~ In (Lexer.type t) types ->
  operatorLoop tokens (S fuel) types make operand expr current = Parser.Ok expr current.
Proof.
  intros Ht Hin. cbn [operatorLoop].
  unfold Parser.bind at 1. now rewrite (match_other _ _ _ _ Ht Hin).
Qed.

Lemma equality_takes_text :
  takesTokenText equality comparison ["BANG_EQUAL"; "EQUAL_EQUAL"].
Proof.
  intros tokens fuel expression current left right operator after p q
    Hl Ht Hin Hr Ha Hn.
  unfold equality. unfold Parser.bind at 1. rewrite Hl.
  rewrite (operatorLoop_step _ _ _ _ _ _ right p q operator Ht); try assumption.
  - now apply (operatorLoop_stop _ _ _ _ _ _ _ after).
  - destruct Hin as [<-|[<-|[]]]; discriminate.
Qed.

Lemma comparison_takes_text :
  takesTokenText comparison term ["GREATER"; "GREATER_EQUAL"; "LESS"; "LESS_EQUAL"].
Proof.
  intros tokens fuel expression current left right operator after p q
    Hl Ht Hin Hr Ha Hn.
  unfold comparison. unfold Parser.bind at 1. rewrite Hl.
  rewrite (operatorLoop_step _ _ _ _ _ _ right p q operator Ht); try assumption.
  - now apply (operatorLoop_stop _ _ _ _ _ _ _ after).
  - destruct Hin as [<-|[<-|[<-|[<-|[]]]]]; discriminate.
Qed.

End ParserOperators.

(* ================================================================= *)
(** ** The claims of the specification *)

Section Claims.
Import JS Examples.

(** C1.  When tokenizing and parsing succeed and the analyzer returns a
    non-empty error list, [compile] answers with [success = false], the
    tokens and the AST attached, no IR, optimized IR or code, and one
    diagnostic per semantic error, in order, each with phase
    "Semantic Analysis" and neither line nor column.  In particular
    compiling [var x; var x;] on a new compiler gives exactly one such
    diagnostic, the duplicate declaration of [x], under every bound
    from 20 on. *)
Theorem compile_stops_at_semantic_errors :
  (forall fuel source c tokens ast current semanticErrors analyzer,
      Lexer.tokenize source = Lexer.Ok tokens ->
      Parser.parse fuel tokens = Parser.Ok ast current ->
      SemanticAnalyzer.analyze ast (Compiler.semanticAnalyzer c)
        = SemanticAnalyzer.Returns semanticErrors analyzer ->
      semanticErrors <> [] ->
      Compiler.compile fuel source c =
        Some (Compiler.mkResult false (Some tokens) (Some ast) None None None
                (map (fun e =>
                        Compiler.mkDiagnostic "Semantic Analysis"
                          (SemanticAnalyzer.message e) None None)
                     semanticErrors),
              Compiler.mk analyzer))
  /\ (forall fuel,
        Compiler.compile (20 + fuel) "var x; var x;" Compiler.new =
          Some (Compiler.mkResult false (Some duplicateTokens) (Some duplicateAst)
                  None None None
                  [Compiler.mkDiagnostic "Semantic Analysis"
                     "Variable 'x' already declared in this scope" None None],
                Compiler.mk duplicateAnalyzer)).
Proof.
  split.
  - intros fuel source c tokens ast current semanticErrors analyzer Ht Hp Ha Hne.
    unfold Compiler.compile. rewrite Ht, Hp, Ha.
    destruct semanticErrors as [|e errs]; [contradiction|].
    reflexivity.
  - intros fuel. apply (compile_fuel 20); [lia|]. vm_compute. reflexivity.
Qed.

Lemma compile_stops_at_semantic_errors_witness :
  Lexer.tokenize "var x; var x;" = Lexer.Ok duplicateTokens
  /\ Parser.parse 20 duplicateTokens = Parser.Ok duplicateAst 6
  /\ SemanticAnalyzer.analyze duplicateAst (Compiler.semanticAnalyzer Compiler.new)
     = SemanticAnalyzer.Returns [duplicateError] duplicateAnalyzer
  /\ [duplicateError] <> []
  /\ Compiler.compile 20 "var x; var x;" Compiler.new =
       Some (Compiler.mkResult false (Some duplicateTokens) (Some duplicateAst)
               None None None
               (map (fun e =>
                       Compiler.mkDiagnostic "Semantic Analysis"
                         (SemanticAnalyzer.message e) None None)
                    [duplicateError]),
             Compiler.mk duplicateAnalyzer).
Proof.
  assert (Ht : Lexer.tokenize "var x; var x;" = Lexer.Ok duplicateTokens)
    by (vm_compute; reflexivity).
  assert (Hp : Parser.parse 20 duplicateTokens = Parser.Ok duplicateAst 6)
    by (vm_compute; reflexivity).
  assert (Ha : SemanticAnalyzer.analyze duplicateAst
                 (Compiler.semanticAnalyzer Compiler.new)
               = SemanticAnalyzer.Returns [duplicateError] duplicateAnalyzer)
    by (vm_compute; reflexivity).
  assert (Hne : [duplicateError] <> []) by discriminate.
  split; [exact Ht|]. split; [exact Hp|]. split; [exact Ha|]. split; [exact Hne|].
  exact (proj1 compile_stops_at_semantic_errors _ _ _ _ _ _ _ _ Ht Hp Ha Hne).
Defined.

(** C2 (amended).  On [CONST(2,t0), CONST(3,t1), ADD(t0,t1,t2)]
    constant folding replaces the ADD by [CONST(5,t2)]; dead-code
    elimination then drops all three CONST instructions, since none of
    [t0], [t1], [t2] is an argument of an instruction other than a
    STORE or a CONST; [optimize] returns the empty list. *)
Theorem optimize_folding_example_is_empty :
  Optimizer.constantFolding foldingInput =
    ([instr "CONST" [VNum 2; VStr "t0"]; instr "CONST" [VNum 3; VStr "t1"]; foldedConst],
     true)
  /\ Optimizer.deadCodeElimination
       [instr "CONST" [VNum 2; VStr "t0"]; instr "CONST" [VNum 3; VStr "t1"]; foldedConst]
     = ([], true)
  /\ forall fuel, Optimizer.optimize (2 + fuel) foldingInput = Some [].
Proof.
  split; [vm_compute; reflexivity|].
  split; [vm_compute; reflexivity|].
  exact optimize_foldingInput.
Qed.

(** C2, as stated, fails: under no bound on the rounds does [optimize]
    return the one-instruction list [CONST(5,t2)]. *)
Lemma optimize_folding_example_not_singleton :
  ~ exists fuel, Optimizer.optimize fuel foldingInput = Some [foldedConst].
Proof.
  intros [[|[|fuel]] H].
  - discriminate H.
  - vm_compute in H. discriminate H.
  - change (S (S fuel)) with (2 + fuel) in H.
    rewrite (optimize_foldingInput fuel) in H. discriminate H.
Qed.

(** C3.  Dead-code elimination does not count the source operand of a
    STORE as a use: on the IR of [var x = 1;] it drops [CONST(1,t0)]
    although [STORE(t0,x)] reads [t0].  A variable whose name starts
    with the letter t is taken for a temporary: on the IR of
    [var total = 1;] the store to [total] is dropped as well. *)
Theorem dead_code_elimination_drops_stored_constant :
  Optimizer.deadCodeElimination storeInput
    = ([instr "STORE" [VStr "t0"; VStr "x"]], true)
  /\ Optimizer.deadCodeElimination totalInput = ([], true).
Proof. split; vm_compute; reflexivity. Qed.

(** C4.  [optimize] does not return on the IR of the program that
    returns a string literal.  The program passes the analyzer and is
    lowered to [CONST("a",t0), RETURN(t0)]; the first round rewrites
    this to [CONST("a","a"), RETURN("a")], on which constant
    propagation reports a change in every later round while returning
    the same list.  So no bound on the rounds is enough, and [compile]
    does not return on that program either. *)
Theorem optimize_diverges_on_string_return :
  (forall fuel, analyzeSource (20 + fuel) stringReturnSource = Some [])
  /\ (forall fuel,
        generateSource (20 + fuel) stringReturnSource
        = Some (IRGenerator.Generated stringReturnIR))
  /\ Optimizer.round stringReturnIR = (stringReturnStuck, true)
  /\ Optimizer.constantPropagation stringReturnStuck = (stringReturnStuck, true)
  /\ Optimizer.round stringReturnStuck = (stringReturnStuck, true)
  /\ Optimizer.diverges stringReturnIR
  /\ (forall fuel, Compiler.compile fuel stringReturnSource Compiler.new = None).
Proof.
  split; [intros fuel; apply (analyzeSource_fuel 20); [lia|vm_compute; reflexivity]|].
  split; [intros fuel; apply (generateSource_fuel 20); [lia|vm_compute; reflexivity]|].
  split; [exact round_stringReturnIR|].
  split; [vm_compute; reflexivity|].
  split; [exact round_stringReturnStuck|].
  split; [exact stringReturnIR_diverges|].
  exact compile_stringReturn.
Qed.

(** C5.  [optimize(optimize(ir)) == optimize(ir)] has no value to
    compare on a list on which [optimize] does not return: on
    [CONST("a",t0), RETURN(t0)] no bound on the rounds yields a list
    [optimize(ir)], hence none to apply [optimize] to again. *)
Theorem optimize_twice_has_no_value_on_string_return :
  Optimizer.diverges stringReturnIR
  /\ ~ exists fuel r,
        Optimizer.optimize fuel stringReturnIR = Some r
        /\ exists fuel', Optimizer.optimize fuel' r = Some r.
Proof.
  split; [exact stringReturnIR_diverges|].
  intros [fuel [r [H _]]]. rewrite stringReturnIR_diverges in H. discriminate H.
Qed.

(** C6.  [parse] accepts an assignment whose target is not an
    Identifier: the error built for the [=] token is not thrown, and
    the statement is parsed as its left-hand side alone. *)
Theorem parse_accepts_invalid_assignment_target :
  forall fuel,
    parseSource (20 + fuel) "a.b = 1;" =
      Some (Parser.Ok
              (Parser.Program
                 [Parser.ExpressionStatement
                    (Parser.MemberExpression (Parser.Identifier "a")
                       (Parser.Identifier "b"))])
              6)
    /\ parseSource (20 + fuel) "(x) = 1;" =
         Some (Parser.Ok
                 (Parser.Program
                    [Parser.ExpressionStatement
                       (Parser.GroupExpression (Parser.Identifier "x"))])
                 6).
Proof.
  intros fuel.
  split; (apply (parseSource_fuel 20); [lia|vm_compute; reflexivity|discriminate]).
Qed.

(** C7.  The token of a two-character operator records the column of
    its second character: in [a == b] the [==] starts at column 3 and
    its token has column 4; [==] alone, at column 1, has column 2. *)
Theorem operator_token_column_is_second_character :
  Lexer.tokenize "a == b" =
    Lexer.Ok
      [Lexer.mkToken "IDENTIFIER" "a" 1 1; Lexer.mkToken "EQUAL_EQUAL" "=" 1 4;
       Lexer.mkToken "IDENTIFIER" "b" 1 6; Lexer.mkToken "EOF" "" 1 7]
  /\ Lexer.tokenize "==" =
       Lexer.Ok [Lexer.mkToken "EQUAL_EQUAL" "=" 1 2; Lexer.mkToken "EOF" "" 1 3].
Proof. split; vm_compute; reflexivity. Qed.

(** C8.  [analyze] resets only its error list: the global scope filled
    by one [compile] call is still there in the next.  Compiling
    [var x;] twice on one compiler succeeds with no diagnostic the
    first time and reports a duplicate declaration the second time. *)
Theorem second_compile_sees_earlier_declarations :
  forall fuel,
    report (Compiler.compile (20 + fuel) "var x;" Compiler.new) = Some (true, [])
    /\ report (compileAgain (20 + fuel) "var x;" "var x;" Compiler.new) =
         Some (false,
               [Compiler.mkDiagnostic "Semantic Analysis"
                  "Variable 'x' already declared in this scope" None None]).
Proof.
  intros fuel. split.
  - apply (report_fuel 20); [lia|]. vm_compute. reflexivity.
  - apply (compileAgain_fuel 20); [lia|]. vm_compute. reflexivity.
Qed.

(** C9 (amended).  In constant propagation a [CONST(v, t)] with a
    string destination [t] comes out as [CONST(v', v)]: the destination
    is replaced by the value just recorded for it, and [v'] is [v]
    after the same substitution.  So the output is [CONST(v, v)]
    whenever [v] does not name a constant recorded before the
    instruction (every number, boolean and null).  A [STORE(s, d)]
    whose source [s] names a recorded constant [c] comes out as
    [STORE(c, c)]. *)
Theorem constant_propagation_rewrites_destination :
  (forall before after v t,
      nth_error
        (fst (Optimizer.constantPropagation
                (before ++ instr "CONST" [v; VStr t] :: after)))
        (List.length before) =
      Some (instr "CONST"
              [Optimizer.substitute
                 (Optimizer.mapSet (VStr t) v (Optimizer.constantsAfter before)) v;
               v]))
  /\ (forall before after v t,
        Optimizer.isKnown (Optimizer.constantsAfter before) v = false ->
        nth_error
          (fst (Optimizer.constantPropagation
                  (before ++ instr "CONST" [v; VStr t] :: after)))
          (List.length before) =
        Some (instr "CONST" [v; v]))
  /\ (forall before after s d c,
        Optimizer.mapGet (VStr s) (Optimizer.constantsAfter before) = Some c ->
        nth_error
          (fst (Optimizer.constantPropagation
                  (before ++ instr "STORE" [VStr s; VStr d] :: after)))
          (List.length before) =
        Some (instr "STORE" [c; c])).
Proof.
  split; [exact constantPropagation_const|].
  split; [|exact constantPropagation_store].
  intros before after v t H.
  rewrite constantPropagation_const, substitute_unrecorded by exact H.
  reflexivity.
Qed.

Lemma constant_propagation_rewrites_destination_witness :
  nth_error
    (fst (Optimizer.constantPropagation
            ([instr "LOAD" [VStr "n"; VStr "t2"]]
             ++ instr "CONST" [VNum 1; VStr "t3"] :: [instr "RETURN" [VStr "t3"]])))
    1 = Some (instr "CONST" [VNum 1; VNum 1])
  /\ nth_error
       (fst (Optimizer.constantPropagation
               ([instr "CONST" [VNum 1; VStr "t0"]]
                ++ instr "STORE" [VStr "t0"; VStr "x"] :: [])))
       1 = Some (instr "STORE" [VNum 1; VNum 1]).
Proof.
  split.
  - apply (proj1 (proj2 constant_propagation_rewrites_destination)
             [instr "LOAD" [VStr "n"; VStr "t2"]]).
    reflexivity.
  - apply (proj2 (proj2 constant_propagation_rewrites_destination)
             [instr "CONST" [VNum 1; VStr "t0"]] [] "t0" "x").
    reflexivity.
Defined.

(** C9, as stated, fails when the value is itself the name of a
    recorded constant: after [CONST(1,t0)], the instruction
    [CONST("t0",t1)] comes out as [CONST(1,"t0")], not
    [CONST("t0","t0")]. *)
Lemma constant_propagation_name_valued_const :
  nth_error (fst (Optimizer.constantPropagation nameValuedInput)) 1
    = Some (instr "CONST" [VNum 1; VStr "t0"])
  /\ nth_error (fst (Optimizer.constantPropagation nameValuedInput)) 1
     <> Some (instr "CONST" [VStr "t0"; VStr "t0"]).
Proof. split; [vm_compute; reflexivity | vm_compute; discriminate]. Qed.

(** C10 (amended).  Whenever [scanToken] starts at [==], [!=], [<=] or
    [>=] and no further [=] follows, it appends a token of the
    two-character kind whose text is the first character alone; when a
    further [=] follows, the second [match('=')] succeeds as well, the
    text is the two-character form and three characters are consumed.
    The token of every such start that the loop of [tokenize] arrives
    at is in the list [tokenize] returns.  [equality()] and
    [comparison()] take the operator of the BinaryExpression from the
    text of the token, whatever it is, so [==] and [!=] give the
    operators [=] and [!], for which the IR generator throws "Unknown
    binary operator", and [<=] and [>=] give [<] and [>], which are
    lowered to LT and GT. *)
Theorem two_character_operators_lose_their_second_character :
  (Lexer.scansTwoCharacterOperator "=" "EQUAL_EQUAL"
   /\ Lexer.scansTwoCharacterOperator "!" "BANG_EQUAL"
   /\ Lexer.scansTwoCharacterOperator "<" "LESS_EQUAL"
   /\ Lexer.scansTwoCharacterOperator ">" "GREATER_EQUAL")
  /\ (Lexer.scansThreeCharacters "=" "EQUAL_EQUAL"
      /\ Lexer.scansThreeCharacters "!" "BANG_EQUAL"
      /\ Lexer.scansThreeCharacters "<" "LESS_EQUAL"
      /\ Lexer.scansThreeCharacters ">" "GREATER_EQUAL")
  /\ (Lexer.tokenizesTwoCharacterOperator "=" "EQUAL_EQUAL"
      /\ Lexer.tokenizesTwoCharacterOperator "!" "BANG_EQUAL"
      /\ Lexer.tokenizesTwoCharacterOperator "<" "LESS_EQUAL"
      /\ Lexer.tokenizesTwoCharacterOperator ">" "GREATER_EQUAL")
  /\ Parser.takesTokenText Parser.equality Parser.comparison
       ["BANG_EQUAL"; "EQUAL_EQUAL"]
  /\ Parser.takesTokenText Parser.comparison Parser.term
       ["GREATER"; "GREATER_EQUAL"; "LESS"; "LESS_EQUAL"]
  /\ (forall operator (lhs rhs : Parser.ASTNode) st st1 st2 leftTemp rightTemp,
        In operator ["="; "!"] ->
        IRGenerator.generateIR lhs st = IRGenerator.Ok leftTemp st1 ->
        IRGenerator.generateIR rhs st1 = IRGenerator.Ok rightTemp st2 ->
        exists st',
          IRGenerator.generateIR (Parser.BinaryExpression operator lhs rhs) st =
            IRGenerator.Throw
              (IRGenerator.mkIRGenerationError ("Unknown binary operator: " ++ operator)
                 (Parser.BinaryExpression operator lhs rhs)) st')
  /\ (forall operator operation (lhs rhs : Parser.ASTNode) st st1 st2 leftTemp rightTemp,
        In (operator, operation) [("<", "LT"); (">", "GT")] ->
        IRGenerator.generateIR lhs st = IRGenerator.Ok leftTemp st1 ->
        IRGenerator.generateIR rhs st1 = IRGenerator.Ok rightTemp st2 ->
        exists temp st',
          IRGenerator.generateIR (Parser.BinaryExpression operator lhs rhs) st =
            IRGenerator.Ok temp st'
          /\ IRGenerator.instructions st' =
               (IRGenerator.instructions st2 ++
                  [instr operation [VStr leftTemp; VStr rightTemp; VStr temp]])%list)
  /\ (forall fuel source operator,
        In (source, operator)
           [("1 == 2;", "="); ("1 != 2;", "!"); ("1 <= 2;", "<"); ("1 >= 2;", ">")] ->
        parseSource (20 + fuel) source =
          Some (Parser.Ok
                  (Parser.Program [Parser.ExpressionStatement (oneTwo operator)]) 4))
  /\ (forall fuel source operator,
        In (source, operator) [("1 == 2;", "="); ("1 != 2;", "!")] ->
        generateSource (20 + fuel) source =
          Some (IRGenerator.Failed
                  (IRGenerator.mkIRGenerationError
                     ("Unknown binary operator: " ++ operator) (oneTwo operator))))
  /\ (forall fuel source operation,
        In (source, operation) [("1 <= 2;", "LT"); ("1 >= 2;", "GT")] ->
        generateSource (20 + fuel) source =
          Some (IRGenerator.Generated
                  [instr "CONST" [VNum 1; VStr "t0"]; instr "CONST" [VNum 2; VStr "t1"];
                   instr operation [VStr "t0"; VStr "t1"; VStr "t2"]])).
Proof.
  split.
  { repeat split; [exact scans_equal_equal | exact scans_bang_equal
                  | exact scans_less_equal | exact scans_greater_equal]. }
  split.
  { repeat split; [exact scans_equal_equal_equal | exact scans_bang_equal_equal
                  | exact scans_less_equal_equal | exact scans_greater_equal_equal]. }
  split.
  { repeat split; [exact tokenizes_equal_equal | exact tokenizes_bang_equal
                  | exact tokenizes_less_equal | exact tokenizes_greater_equal]. }
  split; [exact equality_takes_text|].
  split; [exact comparison_takes_text|].
  split.
  { intros operator lhs rhs st st1 st2 leftTemp rightTemp Hop Hl Hr.
    destruct Hop as [<-|[<-|[]]]; eexists;
      rewrite (generateIR_binary _ _ _ _ _ _ _ _ Hl Hr); reflexivity. }
  split.
  { intros operator operation lhs rhs st st1 st2 leftTemp rightTemp Hop Hl Hr.
    repeat (destruct Hop as [Hop|Hop]; [inversion Hop; subst; clear Hop|]);
      [..|destruct Hop];
      do 2 eexists; rewrite (generateIR_binary _ _ _ _ _ _ _ _ Hl Hr);
      split; reflexivity. }
  split.
  { intros fuel source operator H.
    apply (parseSource_fuel 20); [lia| |discriminate].
    repeat (destruct H as [H|H]; [inversion H; subst; clear H|]); [..|destruct H];
      vm_compute; reflexivity. }
  split.
  { intros fuel source operator H.
    apply (generateSource_fuel 20); [lia|].
    repeat (destruct H as [H|H]; [inversion H; subst; clear H|]); [..|destruct H];
      vm_compute; reflexivity. }
  intros fuel source operation H.
  apply (generateSource_fuel 20); [lia|].
  repeat (destruct H as [H|H]; [inversion H; subst; clear H|]); [..|destruct H];
    vm_compute; reflexivity.
Qed.

Lemma two_character_operators_lose_their_second_character_witness :
  Lexer.scanToken (Lexer.State.mk "a<=b" 1 1 2 [Lexer.mkToken "IDENTIFIER" "a" 1 1]) =
    Lexer.Ok
      (Lexer.State.mk "a<=b" 3 1 4
         [Lexer.mkToken "IDENTIFIER" "a" 1 1; Lexer.mkToken "LESS_EQUAL" "<" 1 3])
  /\ In (Lexer.mkToken "LESS_EQUAL" "<" 1 3)
        [Lexer.mkToken "IDENTIFIER" "a" 1 1; Lexer.mkToken "LESS_EQUAL" "<" 1 3;
         Lexer.mkToken "IDENTIFIER" "b" 1 4; Lexer.mkToken "EOF" "" 1 5]
  /\ Parser.equality
       [Lexer.mkToken "NUMBER" "1" 1 1; Lexer.mkToken "EQUAL_EQUAL" "=" 1 4;
        Lexer.mkToken "NUMBER" "2" 1 6; Lexer.mkToken "SEMICOLON" ";" 1 7;
        Lexer.mkToken "EOF" "" 1 8]
       10 (Parser.ret (Parser.Literal VNull)) 0
     = Parser.Ok (oneTwo "=") 3
  /\ (exists st',
        IRGenerator.generateIR (oneTwo "=") (IRGenerator.mk [] 0 0) =
          IRGenerator.Throw
            (IRGenerator.mkIRGenerationError "Unknown binary operator: =" (oneTwo "="))
            st')
  /\ (exists temp st',
        IRGenerator.generateIR (oneTwo "<") (IRGenerator.mk [] 0 0)
        = IRGenerator.Ok temp st'
        /\ IRGenerator.instructions st' =
             [instr "CONST" [VNum 1; VStr "t0"]; instr "CONST" [VNum 2; VStr "t1"];
              instr "LT" [VStr "t0"; VStr "t1"; VStr temp]])
  /\ parseSource 20 "1 == 2;" =
       Some (Parser.Ok (Parser.Program [Parser.ExpressionStatement (oneTwo "=")]) 4)
  /\ generateSource 20 "1 != 2;" =
       Some (IRGenerator.Failed
               (IRGenerator.mkIRGenerationError "Unknown binary operator: !" (oneTwo "!")))
  /\ generateSource 20 "1 >= 2;" =
       Some (IRGenerator.Generated
               [instr "CONST" [VNum 1; VStr "t0"]; instr "CONST" [VNum 2; VStr "t1"];
                instr "GT" [VStr "t0"; VStr "t1"; VStr "t2"]]).
Proof.
  destruct two_character_operators_lose_their_second_character
    as [[_ [_ [Hless _]]] [_ [[_ [_ [Htokens _]]] [Hequality [_
          [Hthrow [Hemit [Hparse [Hfail Hlower]]]]]]]]].
  pose (st0 := IRGenerator.mk [] 0 0).
  pose (st1 := IRGenerator.mk [instr "CONST" [VNum 1; VStr "t0"]] 1 0).
  pose (st2 := IRGenerator.mk
                 [instr "CONST" [VNum 1; VStr "t0"]; instr "CONST" [VNum 2; VStr "t1"]]
                 2 0).
  assert (Hl : IRGenerator.generateIR (Parser.Literal (VNum 1)) st0
               = IRGenerator.Ok "t0" st1) by reflexivity.
  assert (Hr : IRGenerator.generateIR (Parser.Literal (VNum 2)) st1
               = IRGenerator.Ok "t1" st2) by reflexivity.
  split.
  { apply (Hless (Lexer.State.mk "a<=b" 1 1 2 [Lexer.mkToken "IDENTIFIER" "a" 1 1]));
      [reflexivity | reflexivity | discriminate]. }
  split.
  { apply (Htokens "a<=b" _
             (Lexer.State.mk "a<=b" 1 1 2 [Lexer.mkToken "IDENTIFIER" "a" 1 1]));
      [vm_compute; reflexivity | exists 1; vm_compute; reflexivity
      | reflexivity | reflexivity | discriminate]. }
  split.
  { apply (Hequality _ 8 _ 0 _ _
             (Lexer.mkToken "EQUAL_EQUAL" "=" 1 4) (Lexer.mkToken "SEMICOLON" ";" 1 7)
             1 3);
      [ vm_compute; reflexivity | reflexivity | right; left; reflexivity
      | vm_compute; reflexivity | reflexivity
      | intros [H|[H|[]]]; discriminate H ]. }
  split.
  { apply (Hthrow "=" _ _ _ _ _ _ _ (or_introl eq_refl) Hl Hr). }
  split.
  { apply (Hemit "<" "LT" _ _ _ _ _ _ _ (or_introl eq_refl) Hl Hr). }
  split.
  { apply (Hparse 0). left. reflexivity. }
  split.
  { apply (Hfail 0). right. left. reflexivity. }
  apply (Hlower 0). right. left. reflexivity.
Defined.

(** C10, as stated, fails: not every occurrence of a two-character
    operator that no [=] follows gets a token with the one-character
    text.  In [a === b] the characters at index 3 and 4 are such an
    occurrence of [==], and the one EQUAL_EQUAL token has the text
    [==]; an occurrence in a comment or in a string literal gets no
    token of its own; and [tokenize] returns no token at all when an
    unexpected character follows anywhere in the text. *)
Lemma two_character_operator_without_one_character_token :
  (String.get 3 "a === b" = Some "="%char
   /\ String.get 4 "a === b" = Some "="%char
   /\ String.get 5 "a === b" <> Some "="%char)
  /\ Lexer.tokenize "a === b" =
       Lexer.Ok
         [Lexer.mkToken "IDENTIFIER" "a" 1 1; Lexer.mkToken "EQUAL_EQUAL" "==" 1 4;
          Lexer.mkToken "IDENTIFIER" "b" 1 7; Lexer.mkToken "EOF" "" 1 8]
  /\ (forall tokens t,
        Lexer.tokenize "a === b" = Lexer.Ok tokens ->
        In t tokens -> Lexer.type t = "EQUAL_EQUAL" -> Lexer.value t <> "=")
  /\ Lexer.tokenize "// a == b" = Lexer.Ok [Lexer.mkToken "EOF" "" 1 10]
  /\ Lexer.tokenize (CodeGenerator.dquote ++ "==" ++ CodeGenerator.dquote) =
       Lexer.Ok [Lexer.mkToken "STRING" "==" 1 3; Lexer.mkToken "EOF" "" 1 5]
  /\ Lexer.tokenize "1 == 2 @" =
       Lexer.Throw (Lexer.mkLexicalError "Unexpected character: @" 1 8).
Proof.
  split; [split; [reflexivity|split; [reflexivity|discriminate]]|].
  split; [vm_compute; reflexivity|].
  split.
  { intros tokens t H Hin Htype. vm_compute in H. injection H as <-.
    destruct Hin as [<-|[<-|[<-|[<-|[]]]]]; try discriminate Htype.
    discriminate. }
  split; [vm_compute; reflexivity|].
  split; vm_compute; reflexivity.
Qed.

End Claims.
